(** * generate-team-data.js: the team dataset generator

    A shallow embedding of [src/generate-team-data.js]: the CSV parser, the
    name normaliser, the alias resolver with its memoised promise, the
    selection of the image and of the description, and the loop of [main]
    that assembles the dataset; then the properties the specification
    states about them.

    JavaScript strings are sequences of UTF-16 code units: lists of [N].
    What the script calls and does not define (the Unicode functions of
    strings, the network, the files, paths and [JSON.stringify]) is the
    [Host]; the properties hold for every host, some of them under what
    ECMAScript says of [normalize], [toLowerCase] and [toUpperCase] on
    ASCII text.

    Further down come [fetchJson] at the level of its requests, with the
    redirects it follows, and [src/script.js], the page that loads the
    dataset and builds the cards. *)

From Stdlib Require Import NArith List String Ascii Bool Lia.
From Stdlib Require Import Strings.Byte DecimalString.
From stdpp Require Import base option list gmap.
Import ListNotations.

Set Warnings "-register-all".

Local Open Scope N_scope.

(** ** Strings *)

Abbreviation jsstring := (list N).

(** A string literal of the source, read code unit by code unit. *)
Definition js (s : string) : jsstring :=
  List.map N_of_ascii (list_ascii_of_string s).

Definition HYPHEN : N := 45.
Definition SPACE : N := 32.
Definition COMMA : N := 44.
Definition HASH : N := 35.
Definition LF : N := 10.
Definition CR : N := 13.
Definition FF : N := 12.

(** [\s] of a regular expression, which is also what [trim] strips:
    WhiteSpace and LineTerminator of ECMAScript. *)
Definition is_whitespace (c : N) : bool :=
  ((9 <=? c) && (c <=? 13)) || (c =? 32) || (c =? 160) || (c =? 5760)
  || ((8192 <=? c) && (c <=? 8202)) || (c =? 8232) || (c =? 8233)
  || (c =? 8239) || (c =? 8287) || (c =? 12288) || (c =? 65279).

(** [[a-z0-9]] *)
Definition is_lower_alnum (c : N) : bool :=
  ((97 <=? c) && (c <=? 122)) || ((48 <=? c) && (c <=? 57)).

(** [[^a-z0-9]] *)
Definition not_lower_alnum (c : N) : bool := negb (is_lower_alnum c).

(** [[\u0300-\u036f]], the combining diacritical marks *)
Definition is_combining_mark (c : N) : bool := (768 <=? c) && (c <=? 879).

Definition is_hyphen (c : N) : bool := c =? HYPHEN.
Definition is_form_feed (c : N) : bool := c =? FF.

Definition is_ascii (c : N) : bool := c <? 128.

(** The ASCII part of the case mappings. *)
Definition lower_unit (c : N) : N :=
  if (65 <=? c) && (c <=? 90) then c + 32 else c.
Definition upper_unit (c : N) : N :=
  if (97 <=? c) && (c <=? 122) then c - 32 else c.

Fixpoint drop_while (p : N -> bool) (s : jsstring) : jsstring :=
  match s with
  | [] => []
  | c :: r => if p c then drop_while p r else s
  end.

Definition trimStart (s : jsstring) : jsstring := drop_while is_whitespace s.

(** [s.trimEnd()]: what is left once the white space that ends [s] is
    taken away. *)
Fixpoint trimEnd (s : jsstring) : jsstring :=
  match s with
  | [] => []
  | c :: r =>
      match trimEnd r with
      | [] => if is_whitespace c then [] else [c]
      | t => c :: t
      end
  end.

(** [s.trim()] *)
Definition trim (s : jsstring) : jsstring := trimEnd (trimStart s).

(** [s.replace(/[cls]/g, rep)]: every code unit of the class is replaced. *)
Fixpoint replace_each (cls : N -> bool) (rep : jsstring) (s : jsstring)
  : jsstring :=
  match s with
  | [] => []
  | c :: r =>
      if cls c then rep ++ replace_each cls rep r
      else c :: replace_each cls rep r
  end.

(** [s.replace(/[cls]+/g, rep)]: every maximal run of the class is replaced
    once.  [in_run] tells that the previous code unit belonged to the run
    that is being consumed. *)
Fixpoint replace_runs_from (cls : N -> bool) (rep : jsstring) (in_run : bool)
  (s : jsstring) : jsstring :=
  match s with
  | [] => []
  | c :: r =>
      if cls c then
        (if in_run then [] else rep) ++ replace_runs_from cls rep true r
      else c :: replace_runs_from cls rep false r
  end.

Definition replace_runs (cls : N -> bool) (rep s : jsstring) : jsstring :=
  replace_runs_from cls rep false s.

(** [s.split(/[cls]+/)]: the pieces between the maximal runs of the class;
    [cur] holds the piece being read, reversed. *)
Fixpoint split_runs_from (cls : N -> bool) (cur : jsstring) (in_run : bool)
  (s : jsstring) : list jsstring :=
  match s with
  | [] => [rev cur]
  | c :: r =>
      if cls c then
        if in_run then split_runs_from cls [] true r
        else rev cur :: split_runs_from cls [] true r
      else split_runs_from cls (c :: cur) false r
  end.

Definition split_runs (cls : N -> bool) (s : jsstring) : list jsstring :=
  split_runs_from cls [] false s.

(** [c] put in front of the first piece. *)
Definition cons_first (c : N) (pieces : list jsstring) : list jsstring :=
  match pieces with
  | p :: ps => (c :: p) :: ps
  | [] => [[c]]
  end.

(** [s.split(sep)] for a separator of one code unit. *)
Fixpoint split_on (sep : N) (s : jsstring) : list jsstring :=
  match s with
  | [] => [[]]
  | c :: r =>
      if c =? sep then [] :: split_on sep r
      else cons_first c (split_on sep r)
  end.

(** [s.split(/\r?\n/)] *)
Fixpoint split_lines (s : jsstring) : list jsstring :=
  match s with
  | [] => [[]]
  | c :: r =>
      if c =? LF then [] :: split_lines r
      else if c =? CR then
        match r with
        | d :: r' =>
            if d =? LF then [] :: split_lines r'
            else cons_first c (split_lines r)
        | [] => cons_first c (split_lines r)
        end
      else cons_first c (split_lines r)
  end.

(** [parts.join(sep)] *)
Fixpoint join (sep : jsstring) (parts : list jsstring) : jsstring :=
  match parts with
  | [] => []
  | [p] => p
  | p :: rest => p ++ sep ++ join sep rest
  end.

(** [s.startsWith("#")] and the like, for one code unit. *)
Definition startsWith1 (c : N) (s : jsstring) : bool :=
  match s with
  | d :: _ => d =? c
  | [] => false
  end.

Definition is_empty (s : jsstring) : bool :=
  match s with [] => true | _ => false end.

(** [s.replace(/^-|-$/g, "")]: one hyphen is removed at the start, and one
    at the end of what follows. *)
Fixpoint remove_last_hyphen (s : jsstring) : jsstring :=
  match s with
  | [] => []
  | c :: r =>
      match r with
      | [] => if is_hyphen c then [] else [c]
      | _ :: _ => c :: remove_last_hyphen r
      end
  end.

Definition strip_edge_hyphens (s : jsstring) : jsstring :=
  match s with
  | c :: r => if is_hyphen c then remove_last_hyphen r else remove_last_hyphen s
  | [] => []
  end.

(** ** parseCsv *)

Definition parseCsv (content : jsstring) : list (list jsstring) :=
  List.map (fun line => List.map trim (split_on COMMA line))
    (List.filter (fun line => negb (is_empty line) && negb (startsWith1 HASH line))
       (List.map trim (split_lines content))).

(** ** sanitizeFlavorText *)

Definition sanitizeFlavorText (rawText : jsstring) : jsstring :=
  trim (replace_runs is_whitespace [SPACE]
          (replace_each is_form_feed [SPACE] rawText)).

(** ** JavaScript values and exceptions *)

(** What [JSON.parse] yields, and [undefined], which property access adds.
    A number is kept as the text [String] gives for it: the program only
    ever prints numbers or tests them for zero. *)
Inductive JSVal : Type :=
  | VUndefined
  | VNull
  | VBool (b : bool)
  | VNum (repr : jsstring)
  | VStr (s : jsstring)
  | VArr (items : list JSVal)
  | VObj (fields : list (jsstring * JSVal)).

Inductive JSError : Type :=
  | TypeError
  | URIError
  | Failure (message : jsstring).

Inductive Result (A : Type) : Type :=
  | Ok (a : A)
  | Throw (e : JSError).
Arguments Ok {A} a.
Arguments Throw {A} e.

Definition bind {A B} (r : Result A) (k : A -> Result B) : Result B :=
  match r with
  | Ok a => k a
  | Throw e => Throw e
  end.

Declare Scope js_scope.
Delimit Scope js_scope with js.
Notation "x <- r ;; k" := (bind r (fun x => k))
  (at level 100, r at next level, right associativity) : js_scope.
Local Open Scope js_scope.

Fixpoint foldM {A B} (f : A -> B -> Result A) (l : list B) (a : A)
  : Result A :=
  match l with
  | [] => Ok a
  | b :: rest => a' <- f a b ;; foldM f rest a'
  end.

Definition nullish (v : JSVal) : bool :=
  match v with
  | VUndefined | VNull => true
  | _ => false
  end.

(** [a ?? b] *)
Definition coalesce (a b : JSVal) : JSVal := if nullish a then b else a.

(** The value of a key in a parsed object: the last one written wins. *)
Fixpoint lookup_field (k : jsstring) (fields : list (jsstring * JSVal))
  : option JSVal :=
  match fields with
  | [] => None
  | (k', v) :: rest =>
      match lookup_field k rest with
      | Some w => Some w
      | None => if bool_decide (k' = k) then Some v else None
      end
  end.

(** [v.k] for a value that is neither [null] nor [undefined], and a key [k]
    that no prototype defines (every key the program reads is such a key:
    id, name, english, french, sprites, other, official-artwork,
    front_default, flavor_text_entries, language, flavor_text). *)
Definition own_prop (v : JSVal) (k : jsstring) : JSVal :=
  match v with
  | VObj fields => default VUndefined (lookup_field k fields)
  | _ => VUndefined
  end.

(** [v.k] *)
Definition getProp (v : JSVal) (k : jsstring) : Result JSVal :=
  if nullish v then Throw TypeError else Ok (own_prop v k).

(** [v?.k] *)
Definition optProp (v : JSVal) (k : jsstring) : JSVal :=
  if nullish v then VUndefined else own_prop v k.

(** [!!v] *)
Definition truthy (v : JSVal) : bool :=
  match v with
  | VUndefined | VNull => false
  | VBool b => b
  | VNum repr =>
      negb (bool_decide (repr = js "0")) && negb (bool_decide (repr = js "NaN"))
  | VStr s => negb (is_empty s)
  | VArr _ | VObj _ => true
  end.

(** [v === "..."] *)
Definition strict_eq_string (v : JSVal) (s : jsstring) : bool :=
  match v with
  | VStr t => bool_decide (t = s)
  | _ => false
  end.

(** [String(v)].  An array joins its items with commas, [null] and
    [undefined] items giving nothing; a parsed object prints as
    [[object Object]] unless a key of its own hides [toString], in which
    case the conversion finds nothing to call. *)
Fixpoint ToString (v : JSVal) : Result jsstring :=
  match v with
  | VUndefined => Ok (js "undefined")
  | VNull => Ok (js "null")
  | VBool b => Ok (if b then js "true" else js "false")
  | VNum repr => Ok repr
  | VStr s => Ok s
  | VArr items =>
      let item x := if nullish x then Ok [] else ToString x in
      (fix join_items (l : list JSVal) : Result jsstring :=
         match l with
         | [] => Ok []
         | x :: rest =>
             match rest with
             | [] => item x
             | _ :: _ =>
                 s <- item x ;; t <- join_items rest ;; Ok (s ++ COMMA :: t)
             end
         end) items
  | VObj fields =>
      match lookup_field (js "toString") fields with
      | Some _ => Throw TypeError
      | None => Ok (js "[object Object]")
      end
  end.

(** [v.toString()] *)
Definition toString_method (v : JSVal) : Result jsstring :=
  if nullish v then Throw TypeError else ToString v.

(** The record [main] pushes for a row. *)
Record TeamRecord : Type := {
  rec_name : jsstring;
  rec_pokemon : jsstring;
  rec_image : JSVal;
  rec_description : jsstring
}.

(** ** The host: Node's runtime and the outside world

    What the script calls and does not define.  [respond n url] is how the
    [n]-th request of the run, sent to [url], settles: [fetchJson] resolves
    with the parsed body, or rejects (network error, a status that is
    neither 2xx nor a followed redirect, a body that is not JSON).
    [rejects_first n] tells, of the two requests [n] and [n + 1] that
    [Promise.all] waits for, whether the first is the first to reject when
    both do. *)
Class Host : Type := {
  nfd : jsstring -> jsstring;
  toLowerCase : jsstring -> jsstring;
  toUpperCase : jsstring -> jsstring;
  encodeURIComponent : jsstring -> Result jsstring;
  respond : nat -> jsstring -> Result JSVal;
  rejects_first : nat -> bool;
  readFile : jsstring -> Result jsstring;
  writeFile : jsstring -> jsstring -> Result unit;
  path_resolve : jsstring -> jsstring;
  path_dirname : jsstring -> jsstring;
  path_extname : jsstring -> jsstring;
  path_basename : jsstring -> jsstring -> jsstring;
  path_join : jsstring -> jsstring -> jsstring;
  JSON_stringify : list TeamRecord -> jsstring
}.

Abbreviation AliasMap := (gmap jsstring jsstring).

(** What the run does that can be observed: requests sent, lines written
    to the console, files and standard output.  A console line is kept as
    its template and the values put in it. *)
Inductive Event : Type :=
  | Request (url : jsstring)
  | ErrorUsage
  | ErrorNoData
  | WarnIncompleteRow (row : list jsstring)
  | WarnNoArtwork (pokemon : jsstring)
  | ErrorFetchFailed (pokemon : jsstring) (error : JSError)
  | ErrorAliasTable (error : JSError)
  | ErrorUncaught (error : JSError)
  | LogDataWritten (file : jsstring)
  | LogSidecarWritten (file : jsstring)
  | FileWritten (file : jsstring) (content : jsstring)
  | StdoutWritten (content : jsstring).

(** A promise of the alias map: pending on the request it sent, or
    fulfilled.  The promise [getPokemonAliasMap] keeps is the one [catch]
    returns, which never rejects. *)
Inductive Promise : Type :=
  | Pending (request : nat)
  | Fulfilled (map : AliasMap).

(** The state of the process: the promises created so far, the module
    variable [aliasMapPromise] (a reference to one of them, or undefined)
    and everything observed so far, in order. *)
Record State : Type := {
  promises : list Promise;
  aliasMapPromise : option nat;
  trace : list Event
}.

Definition initial : State :=
  {| promises := []; aliasMapPromise := None; trace := [] |}.

Definition emit (e : Event) (st : State) : State :=
  {| promises := promises st;
     aliasMapPromise := aliasMapPromise st;
     trace := trace st ++ [e] |}.

Definition is_request (e : Event) : bool :=
  match e with Request _ => true | _ => false end.

(** The number of requests sent so far. *)
Definition request_count (st : State) : nat :=
  length (List.filter is_request (trace st)).

Definition ALIAS_DATA_URL : jsstring :=
  js "https://raw.githubusercontent.com/fanzeyi/pokemon.json/master/pokedex.json".

Section Generator.

Context `{host : Host}.

(** ** normalizeName, slugifyName, capitalizeName *)

(** The chain of string methods of [normalizeName], after [toString]. *)
Definition normalizeString (s : jsstring) : jsstring :=
  strip_edge_hyphens
    (replace_runs is_hyphen [HYPHEN]
       (replace_runs not_lower_alnum [HYPHEN]
          (toLowerCase
             (replace_each is_combining_mark [] (nfd s))))).

Definition normalizeName (value : JSVal) : Result jsstring :=
  s <- toString_method value ;; Ok (normalizeString s).

Definition slugifyName (value : JSVal) : Result jsstring :=
  normalizeName value.

Definition capitalizeWord (word : jsstring) : jsstring :=
  toUpperCase (firstn 1 word) ++ toLowerCase (skipn 1 word).

Definition capitalizeName (name : jsstring) : jsstring :=
  join [SPACE] (List.map capitalizeWord (split_runs is_whitespace name)).

(** ** extractFlavorText *)

(** [entries.find(pred)]; only an array has [find]. *)
Fixpoint find_entry (pred : JSVal -> Result bool) (entries : list JSVal)
  : Result JSVal :=
  match entries with
  | [] => Ok VUndefined
  | entry :: rest =>
      b <- pred entry ;;
      if (b : bool) then Ok entry else find_entry pred rest
  end.

(** [(entry) => entry.language?.name === lang] *)
Definition has_language (lang : jsstring) (entry : JSVal) : Result bool :=
  language <- getProp entry (js "language") ;;
  Ok (strict_eq_string (optProp language (js "name")) lang).

Definition extractFlavorText (speciesData : JSVal) : Result jsstring :=
  match coalesce (optProp speciesData (js "flavor_text_entries")) (VArr []) with
  | VArr entries =>
      frenchEntry <- find_entry (has_language (js "fr")) entries ;;
      englishEntry <- find_entry (has_language (js "en")) entries ;;
      let fallback := default VUndefined (head entries) in
      let text :=
        coalesce (optProp frenchEntry (js "flavor_text"))
          (coalesce (optProp englishEntry (js "flavor_text"))
             (coalesce (optProp fallback (js "flavor_text")) (VStr []))) in
      match text with
      | VStr rawText => Ok (sanitizeFlavorText rawText)
      | _ => Throw TypeError
      end
  | _ => Throw TypeError
  end.

(** The image [main] selects from the primary record. *)
Definition selectImage (pokemonData : JSVal) : JSVal :=
  let sprites := optProp pokemonData (js "sprites") in
  coalesce
    (optProp (optProp (optProp sprites (js "other")) (js "official-artwork"))
       (js "front_default"))
    (coalesce (optProp sprites (js "front_default")) VNull).

(** ** The alias map *)

(** What [buildPokemonAliasMap] does for one variant of one entry. *)
Definition add_variant (id : jsstring) (map : AliasMap) (variant : JSVal)
  : Result AliasMap :=
  if truthy variant then
    key <- normalizeName variant ;; Ok (<[key := id]> map)
  else Ok map.

(** The callback [buildPokemonAliasMap] gives to [forEach]. *)
Definition add_entry (map : AliasMap) (entry : JSVal) : Result AliasMap :=
  idv <- getProp entry (js "id") ;;
  id <- ToString idv ;;
  let name := own_prop entry (js "name") in
  let english := coalesce (optProp name (js "english")) (VStr []) in
  let french := coalesce (optProp name (js "french")) (VStr []) in
  slug <- slugifyName english ;;
  foldM (add_variant id) [VStr id; english; french; VStr slug] map.

(** [buildPokemonAliasMap], from the point where [fetchJson] has settled. *)
Definition buildPokemonAliasMap (response : Result JSVal) : Result AliasMap :=
  data <- response ;;
  match data with
  | VArr entries => foldM add_entry entries ∅
  | _ => Throw TypeError
  end.

(** [fetchJson url] sends a request and returns at once; the request is
    known by its number, and settles as [respond] says. *)
Definition fetchJson (url : jsstring) (st : State) : nat * State :=
  (request_count st, emit (Request url) st).

(** The part of [getPokemonAliasMap] that runs at the call: the promise
    kept in [aliasMapPromise] is returned, after it has been created, with
    its request sent, when there is none. *)
Definition getPokemonAliasMap (st : State) : nat * State :=
  match aliasMapPromise st with
  | Some p => (p, st)
  | None =>
      let '(n, st1) := fetchJson ALIAS_DATA_URL st in
      let p := length (promises st1) in
      (p, {| promises := promises st1 ++ [Pending n];
             aliasMapPromise := Some p;
             trace := trace st1 |})
  end.

(** The request of promise [p] settles with [response]:
    [buildPokemonAliasMap] goes on, and [catch] turns a failure into a
    console line and an empty map.  A promise settles once. *)
Definition settle (p : nat) (response : Result JSVal) (st : State) : State :=
  match promises st !! p with
  | Some (Pending _) =>
      match buildPokemonAliasMap response with
      | Ok map =>
          {| promises := <[p := Fulfilled map]> (promises st);
             aliasMapPromise := aliasMapPromise st;
             trace := trace st |}
      | Throw error =>
          {| promises := <[p := Fulfilled ∅]> (promises st);
             aliasMapPromise := aliasMapPromise st;
             trace := trace st ++ [ErrorAliasTable error] |}
      end
  | _ => st
  end.

(** [await p] when nothing else runs: a pending promise settles as the
    host answers its request. *)
Definition await (p : nat) (st : State) : AliasMap * State :=
  match promises st !! p with
  | Some (Fulfilled map) => (map, st)
  | Some (Pending n) =>
      let st' := settle p (respond n ALIAS_DATA_URL) st in
      match promises st' !! p with
      | Some (Fulfilled map) => (map, st')
      | _ => (∅, st')
      end
  | None => (∅, st)
  end.

(** What [resolvePokemonIdentifier] returns once it has the map. *)
Definition resolve_in (aliasMap : AliasMap) (rawName : jsstring)
  : Result jsstring :=
  normalized <- normalizeName (VStr rawName) ;;
  match aliasMap !! normalized with
  | Some id => Ok id
  | None =>
      slug <- slugifyName (VStr rawName) ;;
      Ok (if is_empty slug then rawName else slug)
  end.

Definition resolvePokemonIdentifier (rawName : jsstring) (st : State)
  : Result jsstring * State :=
  let '(p, st1) := getPokemonAliasMap st in
  let '(aliasMap, st2) := await p st1 in
  (resolve_in aliasMap rawName, st2).

(** ** main *)

(** Code that threads the state and may throw. *)
Definition Comp (A : Type) : Type := State -> Result A * State.

Definition ret {A} (a : A) : Comp A := fun st => (Ok a, st).

Definition lift {A} (r : Result A) : Comp A := fun st => (r, st).

Definition and_then {A B} (c : Comp A) (k : A -> Comp B) : Comp B :=
  fun st =>
    match c st with
    | (Ok a, st') => k a st'
    | (Throw e, st') => (Throw e, st')
    end.

Notation "x <~ c ;; k" := (and_then c (fun x => k))
  (at level 100, c at next level, right associativity) : js_scope.

Definition console (e : Event) : Comp unit := fun st => (Ok tt, emit e st).

Definition POKEMON_URL : jsstring := js "https://pokeapi.co/api/v2/pokemon/".
Definition SPECIES_URL : jsstring :=
  js "https://pokeapi.co/api/v2/pokemon-species/".

(** [await Promise.all([a, b])] for the requests [a] and [b = a + 1]. *)
Definition promise_all (a : nat * jsstring) (b : nat * jsstring)
  : Result (JSVal * JSVal) :=
  match respond (fst a) (snd a), respond (fst b) (snd b) with
  | Ok x, Ok y => Ok (x, y)
  | Throw e, Ok _ => Throw e
  | Ok _, Throw e => Throw e
  | Throw e1, Throw e2 => Throw (if rejects_first (fst a) then e1 else e2)
  end.

(** The end of the [try] of [main], once both records are there. *)
Definition assemble_record (person pokemon trimmedPokemon : jsstring)
  (pokemonData speciesData : JSVal) : Comp TeamRecord :=
  let image := selectImage pokemonData in
  _ <~ (if truthy image then ret tt else console (WarnNoArtwork pokemon)) ;;
  description <~ lift (extractFlavorText speciesData) ;;
  ret {| rec_name := trim person;
         rec_pokemon := capitalizeName trimmedPokemon;
         rec_image := image;
         rec_description := description |}.

(** [fetchJson] as a computation: the request is sent, its number kept. *)
Definition send (url : jsstring) : Comp nat :=
  fun st => let '(n, st') := fetchJson url st in (Ok n, st').

(** The body of the [try] of [main]. *)
Definition fetch_row (person pokemon trimmedPokemon : jsstring)
  : Comp TeamRecord :=
  identifier <~ resolvePokemonIdentifier trimmedPokemon ;;
  c1 <~ lift (encodeURIComponent identifier) ;;
  n1 <~ send (POKEMON_URL ++ c1) ;;
  c2 <~ lift (encodeURIComponent identifier) ;;
  n2 <~ send (SPECIES_URL ++ c2) ;;
  both <~ lift (promise_all (n1, POKEMON_URL ++ c1) (n2, SPECIES_URL ++ c2)) ;;
  assemble_record person pokemon trimmedPokemon (fst both) (snd both).

(** [!field] for a field of a row, which a short row does not have. *)
Definition missing (field : option jsstring) : bool :=
  match field with
  | Some (_ :: _) => false
  | _ => true
  end.

(** One turn of the loop of [main]. *)
Definition process_row (acc : list TeamRecord * State) (row : list jsstring)
  : list TeamRecord * State :=
  let '(datasets, st) := acc in
  let person := row !! 0%nat in
  let pokemon := row !! 1%nat in
  if missing person || missing pokemon then
    (datasets, emit (WarnIncompleteRow row) st)
  else
    let person := default [] person in
    let pokemon := default [] pokemon in
    let trimmedPokemon := trim pokemon in
    match fetch_row person pokemon trimmedPokemon st with
    | (Ok record, st') => (datasets ++ [record], st')
    | (Throw error, st') => (datasets, emit (ErrorFetchFailed pokemon error) st')
    end.

Definition process_rows (rows : list (list jsstring)) (st : State)
  : list TeamRecord * State :=
  fold_left process_row rows ([], st).

Definition buildSidecarPath (outputFile : jsstring) : jsstring :=
  let directory := path_dirname outputFile in
  let baseName := path_basename outputFile (path_extname outputFile) in
  path_join directory (baseName ++ js ".js").

(** How [main] ends: [process.exit], its end, or a rejection. *)
Inductive Outcome : Type :=
  | Exit (code : N)
  | Completed
  | Rejected (error : JSError).

Definition write_outputs (outputPath : option jsstring)
  (datasets : list TeamRecord) (st : State) : Outcome * State :=
  let jsonOutput := JSON_stringify datasets in
  if missing outputPath then (Completed, emit (StdoutWritten jsonOutput) st)
  else
    let resolvedOutput := path_resolve (default [] outputPath) in
    match writeFile resolvedOutput jsonOutput with
    | Throw error => (Rejected error, st)
    | Ok _ =>
        let st1 :=
          emit (LogDataWritten resolvedOutput)
            (emit (FileWritten resolvedOutput jsonOutput) st) in
        let sidecarPath := buildSidecarPath resolvedOutput in
        let jsPayload :=
          js "window.__TEAM_DATA__ = " ++ jsonOutput ++ js ";" ++ [LF] in
        match writeFile sidecarPath jsPayload with
        | Throw error => (Rejected error, st1)
        | Ok _ =>
            (Completed,
             emit (LogSidecarWritten sidecarPath)
               (emit (FileWritten sidecarPath jsPayload) st1))
        end
    end.

Definition main (argv : list jsstring) (st : State) : Outcome * State :=
  let inputPath := argv !! 0%nat in
  let outputPath := argv !! 1%nat in
  if missing inputPath then (Exit 1, emit ErrorUsage st)
  else
    let resolvedInput := path_resolve (default [] inputPath) in
    match readFile resolvedInput with
    | Throw error => (Rejected error, st)
    | Ok csvContent =>
        let rows := parseCsv csvContent in
        if (length rows =? 0)%nat then (Exit 1, emit ErrorNoData st)
        else
          let '(datasets, st') := process_rows rows st in
          write_outputs outputPath datasets st'
    end.

(** The process: [main().catch(...)] from the initial state, to its exit
    code and what was observed. *)
Definition run (argv : list jsstring) : N * list Event :=
  match main argv initial with
  | (Exit code, st) => (code, trace st)
  | (Completed, st) => (0, trace st)
  | (Rejected error, st) => (1, trace (emit (ErrorUncaught error) st))
  end.

End Generator.

(** ** A host for examples

    Fixed files and answers; the string functions are the ASCII case
    mappings and no decomposition, which is what Node does on ASCII text.
    Paths are left as they are, and the dataset is printed as a
    placeholder, except the empty one. *)
Definition ascii_host (files : jsstring -> Result jsstring)
  (net : nat -> jsstring -> Result JSVal) : Host :=
  {| nfd := fun s => s;
     toLowerCase := List.map lower_unit;
     toUpperCase := List.map upper_unit;
     encodeURIComponent := Ok;
     respond := net;
     rejects_first := fun _ => true;
     readFile := files;
     writeFile := fun _ _ => Ok tt;
     path_resolve := fun p => p;
     path_dirname := fun _ => js ".";
     path_extname := fun _ => [];
     path_basename := fun p _ => p;
     path_join := fun d f => d ++ js "/" ++ f;
     JSON_stringify :=
       fun datasets => match datasets with [] => js "[]" | _ => js "[...]" end |}.

Definition no_file (path : jsstring) : Result jsstring :=
  Throw (Failure (js "ENOENT")).
Definition no_network (n : nat) (url : jsstring) : Result JSVal :=
  Throw (Failure (js "ENOTFOUND")).

(** What ECMAScript says of the Unicode functions on ASCII text. *)
Definition ascii_text (s : jsstring) : bool := forallb is_ascii s.

Definition nfd_keeps_ascii `{Host} : Prop :=
  forall s, ascii_text s = true -> nfd s = s.
Definition toLowerCase_on_ascii `{Host} : Prop :=
  forall s, ascii_text s = true -> toLowerCase s = List.map lower_unit s.
Definition toUpperCase_on_ascii `{Host} : Prop :=
  forall s, ascii_text s = true -> toUpperCase s = List.map upper_unit s.

(** The shape of a slug: lower-case letters, digits and single hyphens;
    [after_hyphen] forbids a hyphen in front. *)
Fixpoint slug_shape (after_hyphen : bool) (s : jsstring) : bool :=
  match s with
  | [] => true
  | c :: r =>
      if is_hyphen c then negb after_hyphen && slug_shape true r
      else is_lower_alnum c && slug_shape false r
  end.

(** ** The vocabulary of the properties *)

(** A word of the name: not empty, no white space in it. *)
Definition is_word (w : jsstring) : bool :=
  negb (is_empty w) && forallb (fun c => negb (is_whitespace c)) w.

(** What separates two words: white space, at least one code unit. *)
Definition is_gap (g : jsstring) : bool :=
  negb (is_empty g) && forallb is_whitespace g.

(** The name made of the word [w] and then, in turn, a gap and a word. *)
Definition spell (w : jsstring) (more : list (jsstring * jsstring)) : jsstring :=
  w ++ flat_map (fun gw => fst gw ++ snd gw) more.

(** The state [st'] comes after [st]: it has seen all that [st] has. *)
Definition extends (st st' : State) : Prop :=
  exists more, trace st' = trace st ++ more.

(** A computation that only adds to the trace. *)
Definition growing {A} (c : Comp A) : Prop :=
  forall st, extends st (snd (c st)).

(** *** A small world for examples *)

Definition example_entry (id english french : string) : JSVal :=
  VObj [(js "id", VNum (js id));
        (js "name", VObj [(js "english", VStr (js english));
                          (js "french", VStr (js french))])].

Definition example_pokedex : JSVal :=
  VArr [example_entry "25" "Pikachu" "Pikachu";
        example_entry "121" "Starmie" "Staross";
        example_entry "122" "Mr. Mime" "M. Mime"].

Definition example_flavor (lang text : jsstring) : JSVal :=
  VObj [(js "flavor_text", VStr text);
        (js "language", VObj [(js "name", VStr lang)])].

(** The primary and the species record of Pikachu. *)
Definition example_pikachu : JSVal :=
  VObj [(js "sprites",
         VObj [(js "front_default", VStr (js "sprite-25.png"));
               (js "other",
                VObj [(js "official-artwork",
                       VObj [(js "front_default", VStr (js "artwork-25.png"))])])])].

Definition example_pikachu_species : JSVal :=
  VObj [(js "flavor_text_entries",
         VArr [example_flavor (js "en") (js "It stores electricity.");
               example_flavor (js "fr")
                 (js "Il  stocke" ++ [FF] ++ js "de" ++ [LF] ++ js " l'electricite. ")])].

(** A primary record with no image, and its species record. *)
Definition example_mime : JSVal := VObj [(js "sprites", VNull)].
Definition example_mime_species : JSVal :=
  VObj [(js "flavor_text_entries", VArr [example_flavor (js "de") (js "Pantomime")])].

(** The network: the alias data, Pikachu under 25 and Mr. Mime under 122;
    every other request is refused. *)
Definition example_net (n : nat) (url : jsstring) : Result JSVal :=
  if bool_decide (url = ALIAS_DATA_URL) then Ok example_pokedex
  else if bool_decide (url = POKEMON_URL ++ js "25") then Ok example_pikachu
  else if bool_decide (url = SPECIES_URL ++ js "25") then Ok example_pikachu_species
  else if bool_decide (url = POKEMON_URL ++ js "122") then Ok example_mime
  else if bool_decide (url = SPECIES_URL ++ js "122") then Ok example_mime_species
  else Throw (Failure (js "Request failed with status 404")).

Definition example_csv : jsstring :=
  js "# team" ++ [LF] ++ js "Misty,Staross" ++ [CR; LF] ++ js "Ash, pikachu ,red"
  ++ [LF] ++ [LF] ++ js "Jessie,mr mime" ++ [LF] ++ js ",Onix" ++ [LF].

Definition example_files (path : jsstring) : Result jsstring :=
  if bool_decide (path = js "team.csv") then Ok example_csv
  else if bool_decide (path = js "blank.csv") then Ok (js "Ash" ++ [LF] ++ js ",Onix")
  else if bool_decide (path = js "empty.csv") then Ok (js "# nobody" ++ [LF])
  else no_file path.

Definition example_host : Host := ascii_host example_files example_net.

(** A row the loop can use: it has a person and a species. *)
Definition usable (row : list jsstring) : bool :=
  negb (missing (row !! 0%nat) || missing (row !! 1%nat)).

(** A line the parser keeps. *)
Definition kept (line : jsstring) : bool :=
  negb (is_empty line) && negb (startsWith1 HASH line).

(** The field of a record at the end of a path of keys; there is none,
    which [undefined] stands for, when a key is missing or leads through
    something that is not an object. *)
Fixpoint field_at (path : list jsstring) (v : JSVal) : JSVal :=
  match path with
  | [] => v
  | k :: rest =>
      match v with
      | VObj fields =>
          match lookup_field k fields with
          | Some w => field_at rest w
          | None => VUndefined
          end
      | _ => VUndefined
      end
  end.

(** A field is there when it is neither [null] nor [undefined]. *)
Definition present (v : JSVal) : bool := negb (nullish v).

(** The words of a text: its maximal runs of code units that are not
    white space; [cur] holds the word being read, reversed. *)
Fixpoint words_from (cur : jsstring) (s : jsstring) : list jsstring :=
  match s with
  | [] => if is_empty cur then [] else [rev cur]
  | c :: r =>
      if is_whitespace c then
        if is_empty cur then words_from [] r else rev cur :: words_from [] r
      else words_from (c :: cur) r
  end.

Definition words (s : jsstring) : list jsstring := words_from [] s.

(** The entries of a species record, none when it has no such field. *)
Definition flavor_entries (speciesData : JSVal) : JSVal :=
  coalesce (field_at [js "flavor_text_entries"] speciesData) (VArr []).

(** The first entry in the language [lang], and the text of an entry. *)
Definition first_in (lang : jsstring) (entries : list JSVal) : option JSVal :=
  List.find
    (fun entry => strict_eq_string (field_at [js "language"; js "name"] entry) lang)
    entries.

Definition text_of (entry : option JSVal) : JSVal :=
  match entry with
  | Some e => field_at [js "flavor_text"] e
  | None => VUndefined
  end.

(** The first of the candidates that is there, the empty string when none
    is. *)
Definition first_present (candidates : list JSVal) : JSVal :=
  default (VStr []) (List.find present candidates).

(** The text the specification selects: French, else English, else the
    first entry's, else empty. *)
Definition chosen_text (entries : list JSVal) : JSVal :=
  first_present [text_of (first_in (js "fr") entries);
                 text_of (first_in (js "en") entries);
                 text_of (head entries)].

(** A record of the reference dataset, as the specification has it: an
    id, which is a number, and the English and the French name. *)
Record ReferenceRecord : Type := {
  ref_id : jsstring;
  ref_english : jsstring;
  ref_french : jsstring
}.

(** The record as [JSON.parse] gives it. *)
Definition reference_entry (r : ReferenceRecord) : JSVal :=
  VObj [(js "id", VNum (ref_id r));
        (js "name", VObj [(js "english", VStr (ref_english r));
                          (js "french", VStr (ref_french r))])].

Definition reference_data (records : list ReferenceRecord) : JSVal :=
  VArr (List.map reference_entry records).

Definition non_empty (s : jsstring) : bool := negb (is_empty s).

(** The map once [keys] have all been set to [id]. *)
Definition insert_keys (id : jsstring) (keys : list jsstring) (map : AliasMap)
  : AliasMap :=
  fold_left (fun m key => <[key := id]> m) keys map.

(** [aliasMapPromise] holds a promise fulfilled with [map]. *)
Definition memoised (st : State) (m : AliasMap) : Prop :=
  exists p, aliasMapPromise st = Some p /\ promises st !! p = Some (Fulfilled m).

(** A computation that leaves the promise as it is. *)
Definition keeps_memo {A} (c : Comp A) : Prop :=
  forall st m, memoised st m -> memoised (snd (c st)) m.

(** *** Calls of the resolver, interleaved

    JavaScript runs a piece of code to its end before anything else runs.
    [getPokemonAliasMap] has no [await]: a call tests [aliasMapPromise] and,
    when it is not set, calls [buildPokemonAliasMap], which runs up to its
    own [await], that is, sends the request, and sets the variable, all in
    one piece.  What can happen between two such pieces is a response
    coming in, or a row sending its own requests. *)
Inductive Action : Type :=
  | CallResolver
  | Settle (p : nat) (response : Result JSVal)
  | FetchPokemon (component : jsstring)
  | FetchSpecies (component : jsstring).

(** The requests for the reference dataset among those sent. *)
Definition is_alias_request (e : Event) : bool :=
  match e with
  | Request url => bool_decide (url = ALIAS_DATA_URL)
  | _ => false
  end.

Definition alias_requests (st : State) : nat :=
  length (List.filter is_alias_request (trace st)).

(** Either nothing was asked yet, or there is one promise, with its one
    request. *)
Definition at_most_one (st : State) : Prop :=
  (aliasMapPromise st = None /\ promises st = [] /\ alias_requests st = 0%nat)
  \/ (aliasMapPromise st = Some 0%nat /\ length (promises st) = 1%nat
      /\ alias_requests st = 1%nat).

(** In the run of [main], where the rows follow each other: nothing was
    asked yet, or the promise is fulfilled and one request was sent. *)
Definition asked_once (st : State) : Prop :=
  (aliasMapPromise st = None /\ alias_requests st = 0%nat)
  \/ ((exists m, memoised st m) /\ alias_requests st = 1%nat).

(** A computation that sends no further request for the dataset. *)
Definition keeps_once {A} (c : Comp A) : Prop :=
  forall st, asked_once st -> asked_once (snd (c st)).

(** [f] on the first, and on the last, of the pieces. *)
Definition map_first (f : jsstring -> jsstring) (l : list jsstring)
  : list jsstring :=
  match l with
  | p :: ps => f p :: ps
  | [] => []
  end.

Fixpoint map_last (f : jsstring -> jsstring) (l : list jsstring)
  : list jsstring :=
  match l with
  | [] => []
  | p :: ps =>
      match ps with
      | [] => [f p]
      | _ :: _ => p :: map_last f ps
      end
  end.

Definition no_line_break (s : jsstring) : bool :=
  forallb (fun c => negb (c =? LF)) s.

Section Vocabulary.

Context `{host : Host}.

(** What the resolver falls back on. *)
Definition slug_or_raw (rawName : jsstring) : jsstring :=
  if is_empty (normalizeString rawName) then rawName
  else normalizeString rawName.

(** The keys a record of the reference dataset is known by: its id, its
    English name, its French name and the slug of its English name, each
    normalised, those that are empty left out. *)
Definition record_keys (r : ReferenceRecord) : list jsstring :=
  List.map normalizeString
    (List.filter non_empty
       [ref_id r; ref_english r; ref_french r; normalizeString (ref_english r)]).

(** The id a key is mapped to: that of the last record known by the key. *)
Fixpoint mapped_id (key : jsstring) (records : list ReferenceRecord)
  : option jsstring :=
  match records with
  | [] => None
  | r :: rest =>
      match mapped_id key rest with
      | Some id => Some id
      | None => if bool_decide (key ∈ record_keys r) then Some (ref_id r) else None
      end
  end.

(** One piece of code runs; a call gives back the promise it returns. *)
Definition step (a : Action) (st : State) : option nat * State :=
  match a with
  | CallResolver => let '(p, st') := getPokemonAliasMap st in (Some p, st')
  | Settle p response => (None, settle p response st)
  | FetchPokemon c => (None, snd (fetchJson (POKEMON_URL ++ c) st))
  | FetchSpecies c => (None, snd (fetchJson (SPECIES_URL ++ c) st))
  end.

(** The pieces run in the order given; the promises returned to the
    callers are collected. *)
Fixpoint interleave (actions : list Action) (st : State) : list nat * State :=
  match actions with
  | [] => ([], st)
  | a :: rest =>
      let '(returned, st1) := step a st in
      let '(others, st2) := interleave rest st1 in
      (match returned with Some p => p :: others | None => others end, st2)
  end.

End Vocabulary.

(** ** More vocabulary: lines and fields *)

(** A line without the carriage return that ends it, if one does. *)
Fixpoint drop_last_cr (s : jsstring) : jsstring :=
  match s with
  | [] => []
  | c :: r =>
      match r with
      | [] => if c =? CR then [] else [c]
      | _ :: _ => c :: drop_last_cr r
      end
  end.

(** How many times the code unit [c] occurs in [s]. *)
Definition count_unit (c : N) (s : jsstring) : nat :=
  length (List.filter (N.eqb c) s).

Definition QUOTE : N := 34.

(** The maximal runs of code units outside the class [cls]; [cur] holds
    the run being read, reversed. *)
Fixpoint runs_from (cls : N -> bool) (cur : jsstring) (s : jsstring)
  : list jsstring :=
  match s with
  | [] => if is_empty cur then [] else [rev cur]
  | c :: r =>
      if cls c then
        if is_empty cur then runs_from cls [] r else rev cur :: runs_from cls [] r
      else runs_from cls (c :: cur) r
  end.

(** The runs of lower-case letters and digits of a text. *)
Definition alnum_runs (s : jsstring) : list jsstring :=
  runs_from not_lower_alnum [] s.

Section MoreVocabulary.

Context `{host : Host}.

(** What a binding of an alias map comes from: the key is a normalised
    text, the id that of a record of the data, as a string. *)
Definition from_data (entries : list JSVal) (key id : jsstring) : Prop :=
  (exists text, key = normalizeString text)
  /\ exists entry idv,
      In entry entries /\ getProp entry (js "id") = Ok idv /\ ToString idv = Ok id.

End MoreVocabulary.

(** The search for the language [lang] comes to an end: it finds an entry
    or the end of the entries before it meets [null]. *)
Fixpoint searchable (lang : jsstring) (entries : list JSVal) : bool :=
  match entries with
  | [] => true
  | entry :: rest =>
      negb (nullish entry)
      && (strict_eq_string (field_at [js "language"; js "name"] entry) lang
          || searchable lang rest)
  end.

(** A species record with these entries. *)
Definition species_with (entries : list JSVal) : JSVal :=
  VObj [(js "flavor_text_entries", VArr entries)].

(** *** What a run asks for and what it writes *)




(** A computation that adds only events [Q] to the trace. *)
Definition adds (Q : Event -> Prop) {A} (c : Comp A) : Prop :=
  forall st, exists more,
    trace (snd (c st)) = trace st ++ more /\ Forall Q more.




(** *** The words of a title *)

(** A word with its first character in upper case and the others in lower
    case, on ASCII text. *)
Definition title_word (w : jsstring) : jsstring :=
  List.map upper_unit (firstn 1 w) ++ List.map lower_unit (skipn 1 w).

(** What [split(/\s+/)] returns: pieces without white space, none of them
    empty but, at most, the last one, and the first one if [first] is set. *)
Fixpoint pieces_shape (first : bool) (pieces : list jsstring) : bool :=
  match pieces with
  | [] => false
  | w :: rest =>
      forallb (fun c => negb (is_whitespace c)) w
      && match rest with
         | [] => true
         | _ :: _ => (first || negb (is_empty w)) && pieces_shape false rest
         end
  end.

Section RowVocabulary.

Context `{host : Host}.


End RowVocabulary.


(** ** fetchJson: the exchange with the server

    In [main], a call of [fetchJson] is a request that settles as the host
    says ([respond]).  What follows is [fetchJson] itself: the request it
    sends, what it does with the response, and the redirects it follows.

    [https.get] and the parsing are the [Server].  A reply is what
    [https.get] reports for one request: an [error] event, or a response
    with its status code, its [location] header when it has one, and the
    chunks of its body, received up to the [end] event. *)
Inductive Reply : Type :=
  | ErrorEvent (error : JSError)
  | Response (statusCode : N) (location : option jsstring)
      (chunks : list (list Byte.byte)).

(** [https_get hop url] is the reply to the request for [url] that a call
    of [fetchJson] sends after [hop] redirects; [utf8] is
    [buffer.toString("utf8")]. *)
Class Server : Type := {
  https_get : nat -> jsstring -> Reply;
  utf8 : list Byte.byte -> jsstring;
  JSON_parse : jsstring -> Result JSVal
}.

(** The text of a status code in a template literal. *)
Definition decimal (n : N) : jsstring :=
  js (NilZero.string_of_uint (N.to_uint n)).

Section Exchange.

Context `{server : Server}.

(** [new Error(`Request failed with status ${res.statusCode}`)] *)
Definition request_failed (statusCode : N) : JSError :=
  Failure (js "Request failed with status " ++ decimal statusCode).

(** The promise [fetchJson url] returns, after at most [fuel] requests:
    settled, with the parsed body or with an error, or still pending.
    A redirect is followed by a call of [fetchJson] for the target, whose
    outcome is the outcome of the call. *)
Fixpoint fetchJson_http (fuel hop : nat) (url : jsstring)
  : option (Result JSVal) :=
  match fuel with
  | O => None
  | S fuel' =>
      match https_get hop url with
      | ErrorEvent error => Some (Throw error)
      | Response statusCode location chunks =>
          if (300 <=? statusCode) && (statusCode <? 400)
             && negb (missing location) then
            fetchJson_http fuel' (S hop) (default [] location)
          else if (statusCode <? 200) || (300 <=? statusCode) then
            Some (Throw (request_failed statusCode))
          else Some (JSON_parse (utf8 (concat chunks)))
      end
  end.

(** The requests for [url] and then for [targets], each answered by a
    redirect to the next. *)
Fixpoint redirected (hop : nat) (url : jsstring) (targets : list jsstring)
  : Prop :=
  match targets with
  | [] => True
  | target :: rest =>
      (exists statusCode chunks,
          https_get hop url = Response statusCode (Some target) chunks
          /\ 300 <= statusCode < 400)
      /\ target <> []
      /\ redirected (S hop) target rest
  end.

(** How a reply that is not a redirect to follow settles the promise: an
    error event rejects it; a status from 200 to 299 gives the parsed
    body, or the error of the parser; any other status rejects with the
    status, that of a redirect with no target too. *)
Inductive settles_with : Reply -> Result JSVal -> Prop :=
  | settles_error error : settles_with (ErrorEvent error) (Throw error)
  | settles_body statusCode location chunks :
      200 <= statusCode < 300 ->
      settles_with (Response statusCode location chunks)
        (JSON_parse (utf8 (concat chunks)))
  | settles_status statusCode location chunks :
      statusCode < 200 \/ 400 <= statusCode
      \/ (300 <= statusCode /\ missing location = true) ->
      settles_with (Response statusCode location chunks)
        (Throw (request_failed statusCode)).

(** Every request for a URL of the set is answered by a redirect into the
    set. *)
Definition redirect_trap (trap : jsstring -> Prop) : Prop :=
  forall hop url, trap url ->
    exists statusCode target chunks,
      https_get hop url = Response statusCode (Some target) chunks
      /\ 300 <= statusCode < 400 /\ target <> [] /\ trap target.

End Exchange.

(** A server: [/a] has moved to [/b], whose body is the empty array, in
    two chunks; [/loop] redirects to itself, [/moved] redirects nowhere;
    nothing else is there. *)
Definition example_server : Server :=
  {| https_get := fun _ url =>
       if bool_decide (url = js "https://pokeapi.co/a") then
         Response 301 (Some (js "https://pokeapi.co/b")) []
       else if bool_decide (url = js "https://pokeapi.co/b") then
         Response 200 None [[Byte.x5b]; [Byte.x5d]]
       else if bool_decide (url = js "https://pokeapi.co/loop") then
         Response 302 (Some (js "https://pokeapi.co/loop")) []
       else if bool_decide (url = js "https://pokeapi.co/moved") then
         Response 301 None []
       else Response 404 None [];
     utf8 := List.map (fun b => N_of_ascii (ascii_of_byte b));
     JSON_parse := fun text =>
       if bool_decide (text = js "[]") then Ok (VArr [])
       else Throw (Failure (js "Unexpected token")) |}.

(** * script.js: the page

    A shallow embedding of [src/script.js]: [loadTeamMembers] and the
    [main] that builds one card for each member.  The names are those of
    the source, in a module of their own. *)

Module Page.

(** An element as the script builds it: its tag, the properties the script
    has set, in the order it set them, and the children appended. *)
Inductive Element : Type :=
  | Elem (tagName : jsstring) (properties : list (jsstring * jsstring))
      (childNodes : list Element).

(** [document.createElement(tag)] *)
Definition createElement (tagName : jsstring) : Element := Elem tagName [] [].

(** [element.property = value], for a value that is a string. *)
Definition set (property value : jsstring) (element : Element) : Element :=
  match element with
  | Elem tagName properties childNodes =>
      Elem tagName (properties ++ [(property, value)]) childNodes
  end.

(** [parent.appendChild(child)] *)
Definition appendChild (parent child : Element) : Element :=
  match parent with
  | Elem tagName properties childNodes =>
      Elem tagName properties (childNodes ++ [child])
  end.

(** The string a property such as [src] gets when a value is assigned to
    it, which is also what a template literal makes of the value. *)
Definition to_string (v : JSVal) : Result jsstring := ToString v.

(** The string [textContent] gets: [null] and [undefined] give the empty
    text. *)
Definition to_text (v : JSVal) : Result jsstring :=
  if nullish v then Ok [] else ToString v.

(** What [fetch] gives: a rejection, or a response with [ok], [status] and
    what [json()] makes of its body. *)
Inductive FetchReply : Type :=
  | FetchRejected (error : JSError)
  | FetchResponse (ok : bool) (status : N) (json : Result JSVal).

(** The browser: [window.location.protocol], [window.__TEAM_DATA__]
    ([undefined] when no script has set it), [fetch] with its [no-store]
    option, and the children of the element [document.getElementById]
    finds under the id [cards], if there is one. *)
Class Browser : Type := {
  protocol : jsstring;
  team_data : JSVal;
  fetch : jsstring -> FetchReply;
  cardsContainer : option (list Element)
}.

(** What the page does that can be observed, the cards apart. *)
Inductive PageEvent : Type :=
  | Fetch (url : jsstring)
  | ErrorNoEmbeddedData
  | ErrorLoading (error : JSError).


Section Script.

Context `{browser : Browser}.

(** The body of the [try] of [loadTeamMembers]. *)
Definition fetch_members : Result (list JSVal) :=
  match fetch (js "data.json") with
  | FetchRejected error => Throw error
  | FetchResponse ok status json =>
      if negb ok then
        Throw (Failure (js "Impossible de charger data.json (statut "
                        ++ decimal status ++ js ")"))
      else
        data <- json ;;
        match data with
        | VArr members => Ok members
        | _ =>
            Throw (Failure (js "Le format de data.json est invalide : un tableau est attendu."))
        end
  end.

Definition loadTeamMembers : list JSVal * list PageEvent :=
  if bool_decide (protocol = js "file:") then
    match team_data with
    | VArr members => (members, [])
    | _ => ([], [ErrorNoEmbeddedData])
    end
  else
    match fetch_members with
    | Ok members => (members, [Fetch (js "data.json")])
    | Throw error => ([], [Fetch (js "data.json"); ErrorLoading error])
    end.

(** The callback of [forEach], up to the card it appends. *)
Definition render_card (member : JSVal) : Result Element :=
  let card := set (js "className") (js "card") (createElement (js "article")) in
  src <- (v <- getProp member (js "image") ;; to_string v) ;;
  let image := set (js "src") src (createElement (js "img")) in
  pokemon <- (v <- getProp member (js "pokemon") ;; to_string v) ;;
  name <- (v <- getProp member (js "name") ;; to_string v) ;;
  let image := set (js "alt") (pokemon ++ js " de " ++ name) image in
  let image := set (js "loading") (js "lazy") image in
  let content :=
    set (js "className") (js "card-content") (createElement (js "div")) in
  titleText <- (v <- getProp member (js "name") ;; to_text v) ;;
  let title := set (js "textContent") titleText (createElement (js "h2")) in
  badgeText <- (v <- getProp member (js "pokemon") ;; to_text v) ;;
  let badge :=
    set (js "textContent") badgeText
      (set (js "className") (js "badge") (createElement (js "span"))) in
  descriptionText <- (v <- getProp member (js "description") ;; to_text v) ;;
  let description :=
    set (js "textContent") descriptionText
      (set (js "className") (js "description") (createElement (js "p"))) in
  let content :=
    appendChild (appendChild (appendChild content title) badge) description in
  Ok (appendChild (appendChild card image) content).

(** [teamMembers.forEach(...)] on the children of the container: an
    exception ends the loop, and leaves the cards appended so far. *)
Fixpoint forEach (members : list JSVal) (children : list Element)
  : Result unit * list Element :=
  match members with
  | [] => (Ok tt, children)
  | member :: rest =>
      match render_card member with
      | Ok card => forEach rest (children ++ [card])
      | Throw error => (Throw error, children)
      end
  end.

(** [main()]: how its promise settles, the children of the container at
    the end, and what was observed. *)
Definition main : Result unit * option (list Element) * list PageEvent :=
  match cardsContainer with
  | None => (Ok tt, None, [])
  | Some children =>
      let '(teamMembers, events) := loadTeamMembers in
      let '(result, children') := forEach teamMembers children in
      (result, Some children', events)
  end.

End Script.

End Page.

(** ** The vocabulary of the page *)

(** A record of the dataset, as the page gets it once the JSON text is
    parsed. *)
Definition record_value (record : TeamRecord) : JSVal :=
  VObj [(js "name", VStr (rec_name record));
        (js "pokemon", VStr (rec_pokemon record));
        (js "image", rec_image record);
        (js "description", VStr (rec_description record))].

(** The card of a person: an [article] with the image and, in a [div],
    the name, the species and the description. *)
Definition card (name pokemon src description : jsstring) : Page.Element :=
  Page.Elem (js "article") [(js "className", js "card")]
    [Page.Elem (js "img")
       [(js "src", src); (js "alt", pokemon ++ js " de " ++ name);
        (js "loading", js "lazy")] [];
     Page.Elem (js "div") [(js "className", js "card-content")]
       [Page.Elem (js "h2") [(js "textContent", name)] [];
        Page.Elem (js "span")
          [(js "className", js "badge"); (js "textContent", pokemon)] [];
        Page.Elem (js "p")
          [(js "className", js "description"); (js "textContent", description)]
          []]].

(** The address of the image of a record: the artwork, or the text [null]
    when the record has none. *)
Definition image_source (record : TeamRecord) : jsstring :=
  match rec_image record with
  | VStr url => url
  | _ => js "null"
  end.

Definition card_of_record (record : TeamRecord) : Page.Element :=
  card (rec_name record) (rec_pokemon record) (image_source record)
    (rec_description record).

(** An element with the shape of a card: the tags, the classes and the
    properties set, whatever their texts. *)
Definition is_card (element : Page.Element) : Prop :=
  exists src alt name pokemon description,
    element
    = Page.Elem (js "article") [(js "className", js "card")]
        [Page.Elem (js "img")
           [(js "src", src); (js "alt", alt); (js "loading", js "lazy")] [];
         Page.Elem (js "div") [(js "className", js "card-content")]
           [Page.Elem (js "h2") [(js "textContent", name)] [];
            Page.Elem (js "span")
              [(js "className", js "badge"); (js "textContent", pokemon)] [];
            Page.Elem (js "p")
              [(js "className", js "description");
               (js "textContent", description)] []]].

(** A page served over HTTP, whose [data.json] holds Ash with his artwork
    and Misty without one; a list is there already. *)
Definition example_records : list TeamRecord :=
  [{| rec_name := js "Ash"; rec_pokemon := js "Pikachu";
      rec_image := VStr (js "https://img/25.png");
      rec_description := js "Souris" |};
   {| rec_name := js "Misty"; rec_pokemon := js "Staross";
      rec_image := VNull; rec_description := [] |}].

Definition example_browser : Page.Browser :=
  {| Page.protocol := js "https:";
     Page.team_data := VArr [VNull];
     Page.fetch := fun url =>
       if bool_decide (url = js "data.json") then
         Page.FetchResponse true 200
           (Ok (VArr (List.map record_value example_records)))
       else Page.FetchResponse false 404 (Throw (Failure (js "Unexpected token")));
     Page.cardsContainer := Some [Page.Elem (js "h1") [] []] |}.

(** The same page opened from a file, where [data.js] has put a dataset
    with a [null] in it. *)
Definition example_file_browser : Page.Browser :=
  {| Page.protocol := js "file:";
     Page.team_data :=
       VArr [record_value {| rec_name := js "Ash"; rec_pokemon := js "Pikachu";
                             rec_image := VNull; rec_description := [] |};
             VNull;
             VObj []];
     Page.fetch := fun url => Page.FetchRejected TypeError;
     Page.cardsContainer := Some [] |}.

(** * Properties *)

(** ** Strings *)

Lemma is_hyphen_eq c : is_hyphen c = true -> c = HYPHEN.
Proof. unfold is_hyphen. apply N.eqb_eq. Qed.

Lemma hyphen_not_alnum c : is_hyphen c = true -> not_lower_alnum c = true.
Proof. intros ->%is_hyphen_eq. reflexivity. Qed.

Lemma alnum_not_hyphen c : is_lower_alnum c = true -> is_hyphen c = false.
Proof.
  unfold is_lower_alnum, is_hyphen, HYPHEN. intros H.
  apply N.eqb_neq. intros ->. discriminate H.
Qed.

Lemma alnum_not_class c : is_lower_alnum c = true -> not_lower_alnum c = false.
Proof. unfold not_lower_alnum. by intros ->. Qed.

Lemma slug_shape_weaken b s : slug_shape b s = true -> slug_shape false s = true.
Proof.
  destruct s as [|c r]; simpl; [done|].
  destruct (is_hyphen c); [|done].
  intros [_ ?]%andb_prop. done.
Qed.

Lemma replace_runs_slug_shape b s :
  slug_shape b (replace_runs_from not_lower_alnum [HYPHEN] b s) = true.
Proof.
  revert b. induction s as [|c r IH]; intros b; simpl; [done|].
  destruct (not_lower_alnum c) eqn:Hn.
  - destruct b; simpl; apply IH.
  - assert (is_lower_alnum c = true) as Hc.
    { unfold not_lower_alnum in Hn. by destruct (is_lower_alnum c). }
    simpl. rewrite (alnum_not_hyphen _ Hc), Hc. apply IH.
Qed.

Lemma replace_runs_alnum_fixes b s :
  slug_shape b s = true -> replace_runs_from not_lower_alnum [HYPHEN] b s = s.
Proof.
  revert b. induction s as [|c r IH]; intros b; simpl; [done|].
  destruct (is_hyphen c) eqn:Hh.
  - intros [Hb Hr]%andb_prop. rewrite (hyphen_not_alnum _ Hh).
    destruct b; [discriminate Hb|]. simpl.
    rewrite (IH _ Hr), (is_hyphen_eq _ Hh). done.
  - intros [Hc Hr]%andb_prop. rewrite (alnum_not_class _ Hc).
    by rewrite (IH _ Hr).
Qed.

Lemma replace_runs_hyphen_fixes b s :
  slug_shape b s = true -> replace_runs_from is_hyphen [HYPHEN] b s = s.
Proof.
  revert b. induction s as [|c r IH]; intros b; simpl; [done|].
  destruct (is_hyphen c) eqn:Hh.
  - intros [Hb Hr]%andb_prop.
    destruct b; [discriminate Hb|]. simpl.
    rewrite (IH _ Hr), (is_hyphen_eq _ Hh). done.
  - intros [Hc Hr]%andb_prop. by rewrite (IH _ Hr).
Qed.

Lemma remove_last_hyphen_shape b s :
  slug_shape b s = true ->
  slug_shape b (remove_last_hyphen s) = true
  /\ remove_last_hyphen (remove_last_hyphen s) = remove_last_hyphen s.
Proof.
  revert b. induction s as [|c r IH]; intros b; [done|].
  destruct r as [|d r'].
  - simpl. destruct (is_hyphen c) eqn:Hh; simpl; [done|].
    rewrite Hh. done.
  - change (remove_last_hyphen (c :: d :: r'))
      with (c :: remove_last_hyphen (d :: r')).
    intros Hs.
    assert (exists b', slug_shape b' (d :: r') = true
                       /\ (is_hyphen c = true -> b' = true)
                       /\ forall t, slug_shape b' t = true ->
                                    slug_shape b (c :: t) = true)
      as (b' & Hr & Hb' & Hback).
    { simpl in Hs. destruct (is_hyphen c) eqn:Hh.
      - apply andb_prop in Hs as [Hb Hr]. exists true. split; [done|].
        split; [done|]. intros t Ht. simpl. by rewrite Hh, Hb, Ht.
      - apply andb_prop in Hs as [Hc Hr]. exists false. split; [done|].
        split; [done|]. intros t Ht. simpl. by rewrite Hh, Hc, Ht. }
    destruct (IH _ Hr) as [Hshape Hidem]. split; [by apply Hback|].
    destruct (remove_last_hyphen (d :: r')) as [|e t] eqn:Hrem.
    + (* the rest was a single hyphen: then c is not one *)
      simpl. destruct (is_hyphen c) eqn:Hh; [|done].
      exfalso. specialize (Hb' eq_refl). subst b'.
      destruct r' as [|e r'']; simpl in Hrem.
      * destruct (is_hyphen d) eqn:Hd; [|done]. simpl in Hr.
        rewrite Hd in Hr. discriminate Hr.
      * discriminate Hrem.
    + change (remove_last_hyphen (c :: e :: t))
        with (c :: remove_last_hyphen (e :: t)).
      by rewrite Hidem.
Qed.

Lemma strip_edge_hyphens_shape s :
  slug_shape false s = true ->
  slug_shape true (strip_edge_hyphens s) = true
  /\ strip_edge_hyphens (strip_edge_hyphens s) = strip_edge_hyphens s.
Proof.
  destruct s as [|c r]; [done|]. intros Hs.
  assert (forall u, slug_shape true u = true ->
                    remove_last_hyphen u = u -> strip_edge_hyphens u = u)
    as Hfix.
  { intros [|e t]; [done|]. intros Hu Hrem. unfold strip_edge_hyphens.
    simpl in Hu. destruct (is_hyphen e); [discriminate Hu|]. done. }
  assert (strip_edge_hyphens (c :: r)
          = if is_hyphen c then remove_last_hyphen r
            else remove_last_hyphen (c :: r)) as -> by reflexivity.
  destruct (is_hyphen c) eqn:Hh.
  - simpl in Hs. rewrite Hh in Hs. simpl in Hs.
    destruct (remove_last_hyphen_shape _ _ Hs) as [H1 H2].
    split; [done|]. by apply Hfix.
  - assert (slug_shape true (c :: r) = true) as Hs'.
    { simpl in *. by rewrite Hh in *. }
    destruct (remove_last_hyphen_shape _ _ Hs') as [H1 H2].
    split; [done|]. by apply Hfix.
Qed.

Lemma slug_shape_ascii b s :
  slug_shape b s = true ->
  ascii_text s = true
  /\ List.map lower_unit s = s
  /\ replace_each is_combining_mark [] s = s.
Proof.
  revert b. induction s as [|c r IH]; intros b Hs; [done|].
  simpl in Hs.
  assert (is_ascii c = true /\ lower_unit c = c /\ is_combining_mark c = false
          /\ exists b', slug_shape b' r = true) as (Ha & Hl & Hm & b' & Hr).
  { destruct (is_hyphen c) eqn:Hh.
    - apply is_hyphen_eq in Hh as ->. apply andb_prop in Hs as [_ Hr].
      repeat split; eauto.
    - apply andb_prop in Hs as [Hc Hr].
      assert (97 <= c <= 122 \/ 48 <= c <= 57) as Hrange.
      { unfold is_lower_alnum in Hc.
        apply orb_prop in Hc as [Hc|Hc]; apply andb_prop in Hc as [H1 H2];
          apply N.leb_le in H1, H2; lia. }
      unfold is_ascii, lower_unit, is_combining_mark.
      repeat split; eauto.
      + apply N.ltb_lt. lia.
      + destruct ((65 <=? c) && (c <=? 90)) eqn:Hu; [|done].
        apply andb_prop in Hu as [H1 H2]. apply N.leb_le in H1, H2. lia.
      + apply andb_false_iff. left. apply N.leb_gt. lia. }
  destruct (IH _ Hr) as (IHa & IHl & IHm).
  unfold ascii_text in *. simpl. rewrite Ha, IHa, Hl, IHl, Hm, IHm. done.
Qed.

Lemma ascii_host_nfd files net : @nfd_keeps_ascii (ascii_host files net).
Proof. intros s _. reflexivity. Qed.

Lemma ascii_host_lower files net : @toLowerCase_on_ascii (ascii_host files net).
Proof. intros s _. reflexivity. Qed.

Lemma ascii_host_upper files net : @toUpperCase_on_ascii (ascii_host files net).
Proof. intros s _. reflexivity. Qed.

(** ** normalizeName *)

Section Normalisation.

Context `{host : Host}.

(** Whatever the host does to the text, what [normalizeName] returns has
    the shape of a slug. *)
Lemma normalizeString_shape s : slug_shape true (normalizeString s) = true.
Proof.
  unfold normalizeString, replace_runs.
  set (t := toLowerCase _).
  pose proof (replace_runs_slug_shape false t) as Hshape.
  rewrite (replace_runs_hyphen_fixes _ _ Hshape).
  by apply strip_edge_hyphens_shape.
Qed.

Lemma normalizeString_strip s :
  strip_edge_hyphens (normalizeString s) = normalizeString s.
Proof.
  unfold normalizeString, replace_runs.
  set (t := toLowerCase _).
  pose proof (replace_runs_slug_shape false t) as Hshape.
  rewrite (replace_runs_hyphen_fixes _ _ Hshape).
  by apply strip_edge_hyphens_shape.
Qed.

Hypothesis nfd_ascii : nfd_keeps_ascii.
Hypothesis lower_ascii : toLowerCase_on_ascii.

Lemma normalizeString_idempotent s :
  normalizeString (normalizeString s) = normalizeString s.
Proof.
  pose proof (normalizeString_shape s) as Hshape.
  pose proof (normalizeString_strip s) as Hstrip.
  set (t := normalizeString s) in *.
  destruct (slug_shape_ascii _ _ Hshape) as (Ha & Hl & Hm).
  unfold normalizeString, replace_runs.
  rewrite (nfd_ascii _ Ha), Hm, (lower_ascii _ Ha), Hl.
  apply slug_shape_weaken in Hshape.
  rewrite (replace_runs_alnum_fixes _ _ Hshape).
  rewrite (replace_runs_hyphen_fixes _ _ Hshape).
  exact Hstrip.
Qed.

Lemma normalizeName_string s : normalizeName (VStr s) = Ok (normalizeString s).
Proof. reflexivity. Qed.

Lemma normalizeName_inv value key :
  normalizeName value = Ok key ->
  exists s, toString_method value = Ok s /\ key = normalizeString s.
Proof.
  unfold normalizeName. destruct (toString_method value) as [s|e]; simpl.
  - intros [= <-]. eauto.
  - discriminate.
Qed.

(** C9: name normalisation is idempotent, so that normalising the slug of
    a name gives the key that normalising the name itself gives. *)
Theorem normalizeName_idempotent :
  (forall s, normalizeString (normalizeString s) = normalizeString s)
  /\ (forall s,
        (n <- normalizeName (VStr s) ;; normalizeName (VStr n))
        = normalizeName (VStr s))
  /\ (forall english slug,
        slugifyName english = Ok slug ->
        normalizeName (VStr slug) = normalizeName english).
Proof.
  split; [exact normalizeString_idempotent|]. split.
  - intros s. rewrite normalizeName_string. simpl.
    by rewrite normalizeName_string, normalizeString_idempotent.
  - intros english slug Hslug. unfold slugifyName in Hslug. rewrite Hslug.
    apply normalizeName_inv in Hslug as (s & _ & ->).
    by rewrite normalizeName_string, normalizeString_idempotent.
Qed.

End Normalisation.

Lemma normalizeName_idempotent_witness :
  normalizeName (host := ascii_host no_file no_network) (VStr (js "Mr. Mime"))
  = Ok (js "mr-mime")
  /\ normalizeName (host := ascii_host no_file no_network) (VStr (js "mr-mime"))
     = Ok (js "mr-mime").
Proof.
  split; [reflexivity|].
  pose proof (normalizeName_idempotent (host := ascii_host no_file no_network)
                (ascii_host_nfd _ _) (ascii_host_lower _ _)) as (_ & H & _).
  exact (H (js "Mr. Mime")).
Defined.

(** ** The record of a row *)

Section Records.

Context `{host : Host}.

Lemma and_then_ok {A B} (c : Comp A) (k : A -> Comp B) st b st2 :
  and_then c k st = (Ok b, st2) ->
  exists a st1, c st = (Ok a, st1) /\ k a st1 = (Ok b, st2).
Proof.
  unfold and_then. destruct (c st) as [[a|e] st1]; [eauto|done].
Qed.

(** What the end of the [try] comes to. *)
Lemma assemble_record_eq person pokemon trimmedPokemon pokemonData speciesData st :
  assemble_record person pokemon trimmedPokemon pokemonData speciesData st
  = (match extractFlavorText speciesData with
     | Ok description =>
         Ok {| rec_name := trim person;
               rec_pokemon := capitalizeName trimmedPokemon;
               rec_image := selectImage pokemonData;
               rec_description := description |}
     | Throw error => Throw error
     end,
     if truthy (selectImage pokemonData) then st
     else emit (WarnNoArtwork pokemon) st).
Proof.
  unfold assemble_record, and_then, console, ret, lift.
  destruct (truthy (selectImage pokemonData));
    by destruct (extractFlavorText speciesData).
Qed.

Lemma fetch_row_record person pokemon trimmedPokemon st record st' :
  fetch_row person pokemon trimmedPokemon st = (Ok record, st') ->
  rec_name record = trim person
  /\ rec_pokemon record = capitalizeName trimmedPokemon.
Proof.
  unfold fetch_row. intros H.
  do 6 (apply and_then_ok in H as (? & ? & _ & H)).
  rewrite assemble_record_eq in H.
  destruct (extractFlavorText _); [|done]. by injection H as <- _.
Qed.

(** A turn of the loop leaves the dataset as it is or appends the record
    of the row to it. *)
Lemma process_row_record datasets st row :
  fst (process_row (datasets, st) row) = datasets
  \/ exists record person pokemon,
      row !! 0%nat = Some person /\ row !! 1%nat = Some pokemon
      /\ fst (process_row (datasets, st) row) = datasets ++ [record]
      /\ rec_name record = trim person
      /\ rec_pokemon record = capitalizeName (trim pokemon).
Proof.
  unfold process_row.
  destruct (row !! 0%nat) as [person|]; [|left; reflexivity].
  destruct (row !! 1%nat) as [pokemon|];
    [|left; rewrite orb_true_r; reflexivity].
  destruct (missing (Some person) || missing (Some pokemon));
    [left; reflexivity|].
  cbn [from_option]. unfold id.
  destruct (fetch_row person pokemon (trim pokemon) st)
    as [[record|error] st'] eqn:Hfetch; [|left; reflexivity].
  right. exists record, person, pokemon.
  apply fetch_row_record in Hfetch as [Hname Hpokemon]. done.
Qed.

End Records.

(** ** capitalizeName *)

Lemma split_runs_word cls cur b w s :
  forallb (fun c => negb (cls c)) w = true -> w <> [] ->
  split_runs_from cls cur b (w ++ s) = split_runs_from cls (rev w ++ cur) false s.
Proof.
  revert cur b. induction w as [|c w IH]; intros cur b Hw Hne; [done|].
  simpl in Hw. apply andb_prop in Hw as [Hc Hw]. apply negb_true_iff in Hc.
  simpl. rewrite Hc. destruct w as [|d w'].
  - done.
  - rewrite IH by done. by rewrite <- app_assoc.
Qed.

Lemma split_runs_separator cls cur b sep s :
  forallb cls sep = true -> sep <> [] ->
  split_runs_from cls cur b (sep ++ s)
  = if b then split_runs_from cls [] true s
    else rev cur :: split_runs_from cls [] true s.
Proof.
  revert cur b. induction sep as [|c sep IH]; intros cur b Hsep Hne; [done|].
  simpl in Hsep. apply andb_prop in Hsep as [Hc Hsep].
  simpl. rewrite Hc. destruct sep as [|d sep'].
  - done.
  - rewrite (IH [] true) by done. done.
Qed.

Lemma forallb_rev (P : N -> bool) l : forallb P (rev l) = forallb P l.
Proof.
  induction l as [|c r IH]; [done|]. simpl.
  rewrite forallb_app, IH. simpl. rewrite andb_true_r. apply andb_comm.
Qed.

Lemma split_runs_pieces (P : N -> bool) cls cur b s :
  forallb P cur = true -> forallb P s = true ->
  Forall (fun piece => forallb P piece = true) (split_runs_from cls cur b s).
Proof.
  revert cur b. induction s as [|c r IH]; intros cur b Hcur Hs; simpl.
  - constructor; [|constructor]. rewrite forallb_rev. done.
  - simpl in Hs. apply andb_prop in Hs as [Hc Hr].
    destruct (cls c).
    + destruct b; [by apply IH|].
      constructor; [by rewrite forallb_rev|by apply IH].
    + apply IH; [|done]. simpl. by rewrite Hc, Hcur.
Qed.

Lemma is_word_inv w :
  is_word w = true ->
  forallb (fun c => negb (is_whitespace c)) w = true /\ w <> [].
Proof. destruct w; [done|]. unfold is_word. simpl. intros H. done. Qed.

Lemma is_gap_inv g :
  is_gap g = true -> forallb is_whitespace g = true /\ g <> [].
Proof. destruct g; [done|]. unfold is_gap. simpl. intros H. done. Qed.

Lemma split_runs_spell b w more :
  is_word w = true ->
  forallb (fun gw => is_gap (fst gw) && is_word (snd gw)) more = true ->
  split_runs_from is_whitespace [] b (spell w more) = w :: List.map snd more.
Proof.
  revert b w. induction more as [|[g w'] more IH]; intros b w Hw Hmore.
  - unfold spell. simpl. destruct (is_word_inv _ Hw) as [H1 H2].
    rewrite split_runs_word by done. simpl.
    by rewrite app_nil_r, rev_involutive.
  - simpl in Hmore. apply andb_prop in Hmore as [Hgw Hmore].
    apply andb_prop in Hgw as [Hg Hw'].
    destruct (is_word_inv _ Hw) as [H1 H2].
    destruct (is_gap_inv _ Hg) as [H3 H4].
    unfold spell. simpl. rewrite split_runs_word by done.
    rewrite <- app_assoc. rewrite split_runs_separator by done.
    rewrite app_nil_r, rev_involutive. f_equal.
    apply (IH true w' Hw' Hmore).
Qed.

Section Capitalize.

Context `{host : Host}.

Lemma capitalizeName_spell w more :
  is_word w = true ->
  forallb (fun gw => is_gap (fst gw) && is_word (snd gw)) more = true ->
  capitalizeName (spell w more)
  = join [SPACE] (List.map capitalizeWord (w :: List.map snd more)).
Proof.
  intros Hw Hmore. unfold capitalizeName, split_runs.
  by rewrite split_runs_spell.
Qed.

Hypothesis lower_ascii : toLowerCase_on_ascii.
Hypothesis upper_ascii : toUpperCase_on_ascii.

Lemma capitalizeWord_ascii w :
  ascii_text w = true ->
  capitalizeWord w
  = List.map upper_unit (firstn 1 w) ++ List.map lower_unit (skipn 1 w).
Proof.
  intros Hw. unfold capitalizeWord.
  rewrite upper_ascii, lower_ascii; [done| |]; destruct w as [|c r]; try done.
  - simpl in *. by apply andb_prop in Hw as [_ ?].
  - simpl in *. apply andb_prop in Hw as [-> _]. done.
Qed.

Lemma capitalizeName_ascii s :
  ascii_text s = true ->
  capitalizeName s
  = join [SPACE]
      (List.map
         (fun w => List.map upper_unit (firstn 1 w) ++ List.map lower_unit (skipn 1 w))
         (split_runs is_whitespace s)).
Proof.
  intros Hs. unfold capitalizeName. f_equal.
  apply map_ext_Forall.
  apply (Forall_impl (fun piece => forallb is_ascii piece = true)).
  - by apply split_runs_pieces.
  - intros w Hw. by apply capitalizeWord_ascii.
Qed.

(** C6: the species name of a record is the name of the row, title-cased
    word by word: the words, which white space separates, have their first
    character in upper case and the others in lower case; so "mr mime"
    gives "Mr Mime" and "PIKACHU" gives "Pikachu". *)
Theorem capitalizeName_title_case :
  (forall datasets st row,
      fst (process_row (datasets, st) row) = datasets
      \/ exists record person pokemon,
          row !! 0%nat = Some person /\ row !! 1%nat = Some pokemon
          /\ fst (process_row (datasets, st) row) = datasets ++ [record]
          /\ rec_name record = trim person
          /\ rec_pokemon record = capitalizeName (trim pokemon))
  /\ (forall w more,
      is_word w = true ->
      forallb (fun gw => is_gap (fst gw) && is_word (snd gw)) more = true ->
      capitalizeName (spell w more)
      = join [SPACE]
          (List.map (fun word => toUpperCase (firstn 1 word)
                                 ++ toLowerCase (skipn 1 word))
             (w :: List.map snd more)))
  /\ capitalizeName (js "mr mime") = js "Mr Mime"
  /\ capitalizeName (js "PIKACHU") = js "Pikachu".
Proof.
  split; [exact process_row_record|].
  split; [exact capitalizeName_spell|].
  split; rewrite capitalizeName_ascii; reflexivity.
Qed.

End Capitalize.

Lemma capitalizeName_title_case_witness :
  capitalizeName (host := ascii_host no_file no_network) (js "mr mime")
  = js "Mr Mime"
  /\ capitalizeName (host := ascii_host no_file no_network)
       (spell (js "mR") [(js "  ", js "mIME")])
     = js "Mr Mime".
Proof.
  pose proof (capitalizeName_title_case (host := ascii_host no_file no_network)
                (ascii_host_lower _ _) (ascii_host_upper _ _))
    as (_ & H & Hmr & _).
  split; [exact Hmr|].
  exact (H (js "mR") [(js "  ", js "mIME")] eq_refl eq_refl).
Defined.

(** ** The loop of main *)

Section Assembling.

Context `{host : Host}.

(** The records already there do not matter to a turn of the loop, which
    only appends to them. *)
Lemma process_row_acc datasets st row :
  process_row (datasets, st) row
  = (datasets ++ fst (process_row ([], st) row), snd (process_row ([], st) row)).
Proof.
  unfold process_row.
  destruct (missing (row !! 0%nat) || missing (row !! 1%nat)); simpl.
  - by rewrite app_nil_r.
  - destruct (fetch_row _ _ _ st) as [[record|error] st']; simpl;
      by rewrite ?app_nil_r.
Qed.

Lemma fold_process_row_acc rows datasets st :
  fold_left process_row rows (datasets, st)
  = (datasets ++ fst (process_rows rows st), snd (process_rows rows st)).
Proof.
  unfold process_rows.
  revert datasets st. induction rows as [|row rows IH]; intros datasets st.
  - simpl. by rewrite app_nil_r.
  - change (fold_left process_row (row :: rows) (datasets, st))
      with (fold_left process_row rows (process_row (datasets, st) row)).
    change (fold_left process_row (row :: rows) ([], st))
      with (fold_left process_row rows (process_row ([], st) row)).
    rewrite (process_row_acc datasets).
    destruct (process_row ([], st) row) as [own st1].
    cbn [fst snd]. rewrite IH, (IH own). cbn [fst snd].
    by rewrite app_assoc.
Qed.

Lemma process_rows_cons row rows st :
  process_rows (row :: rows) st
  = (fst (process_row ([], st) row)
     ++ fst (process_rows rows (snd (process_row ([], st) row))),
     snd (process_rows rows (snd (process_row ([], st) row)))).
Proof.
  unfold process_rows at 1.
  change (fold_left process_row (row :: rows) ([], st))
    with (fold_left process_row rows (process_row ([], st) row)).
  destruct (process_row ([], st) row) as [own st1].
  by rewrite fold_process_row_acc.
Qed.

Lemma process_rows_app rows1 rows2 st :
  process_rows (rows1 ++ rows2) st
  = (fst (process_rows rows1 st)
     ++ fst (process_rows rows2 (snd (process_rows rows1 st))),
     snd (process_rows rows2 (snd (process_rows rows1 st)))).
Proof.
  unfold process_rows at 1. rewrite fold_left_app.
  fold (process_rows rows1 st).
  destruct (process_rows rows1 st) as [d1 st1]. simpl.
  by rewrite fold_process_row_acc.
Qed.

End Assembling.

(** ** What is observed is never taken back *)

Lemma extends_refl st : extends st st.
Proof. exists []. by rewrite app_nil_r. Qed.

Lemma extends_trans st1 st2 st3 :
  extends st1 st2 -> extends st2 st3 -> extends st1 st3.
Proof.
  intros [m1 H1] [m2 H2]. exists (m1 ++ m2). by rewrite H2, H1, app_assoc.
Qed.

Lemma extends_emit e st : extends st (emit e st).
Proof. by exists [e]. Qed.

Lemma extends_elem e st st' : extends st st' -> In e (trace st) -> In e (trace st').
Proof. intros [more ->] He. apply in_or_app. by left. Qed.

Lemma emit_elem e st : In e (trace (emit e st)).
Proof. simpl. apply in_or_app. right. by left. Qed.

Create HintDb trace.
#[local] Hint Resolve extends_refl extends_emit : trace.

Section Traces.

Context `{host : Host}.

Lemma getPokemonAliasMap_extends st :
  extends st (snd (getPokemonAliasMap st)).
Proof.
  unfold getPokemonAliasMap. destruct (aliasMapPromise st); simpl.
  - apply extends_refl.
  - by exists [Request ALIAS_DATA_URL].
Qed.

Lemma settle_extends p response st : extends st (settle p response st).
Proof.
  unfold settle. destruct (promises st !! p) as [[n|m]|]; auto with trace.
  destruct (buildPokemonAliasMap response).
  - exists []. simpl. by rewrite app_nil_r.
  - by eexists [_].
Qed.

Lemma await_extends p st : extends st (snd (await p st)).
Proof.
  unfold await. destruct (promises st !! p) as [[n|m]|]; simpl; auto with trace.
  destruct (promises (settle p _ st) !! p) as [[n'|m']|]; simpl;
    apply settle_extends.
Qed.

Lemma resolvePokemonIdentifier_extends rawName st :
  extends st (snd (resolvePokemonIdentifier rawName st)).
Proof.
  unfold resolvePokemonIdentifier.
  pose proof (getPokemonAliasMap_extends st) as H1.
  destruct (getPokemonAliasMap st) as [p st1].
  pose proof (await_extends p st1) as H2.
  destruct (await p st1) as [aliasMap st2]. simpl in *.
  by eapply extends_trans.
Qed.

Lemma growing_and_then {A B} (c : Comp A) (k : A -> Comp B) :
  growing c -> (forall a, growing (k a)) -> growing (and_then c k).
Proof.
  intros Hc Hk st. unfold and_then. specialize (Hc st).
  destruct (c st) as [[a|e] st']; simpl in *; [|done].
  eapply extends_trans; [exact Hc|apply Hk].
Qed.

Lemma growing_lift {A} (r : Result A) : growing (lift r).
Proof. intros st. apply extends_refl. Qed.

Lemma growing_ret {A} (a : A) : growing (ret a).
Proof. intros st. apply extends_refl. Qed.

Lemma growing_console e : growing (console e).
Proof. intros st. apply extends_emit. Qed.

Lemma growing_send url : growing (send url).
Proof. intros st. apply extends_emit. Qed.

Lemma growing_assemble_record person pokemon trimmedPokemon pokemonData speciesData :
  growing (assemble_record person pokemon trimmedPokemon pokemonData speciesData).
Proof.
  unfold assemble_record. apply growing_and_then.
  - destruct (truthy _); [apply growing_ret|apply growing_console].
  - intros _. apply growing_and_then; [apply growing_lift|].
    intros d. apply growing_ret.
Qed.

Lemma growing_fetch_row person pokemon trimmedPokemon :
  growing (fetch_row person pokemon trimmedPokemon).
Proof.
  unfold fetch_row.
  apply growing_and_then; [intros st; apply resolvePokemonIdentifier_extends|].
  intros identifier. apply growing_and_then; [apply growing_lift|].
  intros c1. apply growing_and_then; [apply growing_send|].
  intros n1. apply growing_and_then; [apply growing_lift|].
  intros c2. apply growing_and_then; [apply growing_send|].
  intros n2. apply growing_and_then; [apply growing_lift|].
  intros both. apply growing_assemble_record.
Qed.

Lemma process_row_extends datasets st row :
  extends st (snd (process_row (datasets, st) row)).
Proof.
  unfold process_row.
  destruct (missing (row !! 0%nat) || missing (row !! 1%nat)); simpl.
  - apply extends_emit.
  - pose proof (growing_fetch_row (default [] (row !! 0%nat))
                  (default [] (row !! 1%nat))
                  (trim (default [] (row !! 1%nat))) st) as H.
    destruct (fetch_row _ _ _ st) as [[record|error] st']; simpl in *; [done|].
    eapply extends_trans; [exact H|apply extends_emit].
Qed.

Lemma process_rows_extends rows st :
  extends st (snd (process_rows rows st)).
Proof.
  revert st. induction rows as [|row rows IH]; intros st.
  - apply extends_refl.
  - rewrite process_rows_cons. cbn [snd].
    eapply extends_trans; [apply (process_row_extends [])|apply IH].
Qed.

End Traces.

(** ** The dataset *)

Section Dataset.

Context `{host : Host}.

(** What a row that has both fields adds to the dataset. *)
Lemma process_row_complete st row person pokemon :
  row !! 0%nat = Some person -> row !! 1%nat = Some pokemon ->
  missing (Some person) || missing (Some pokemon) = false ->
  process_row ([], st) row
  = match fetch_row person pokemon (trim pokemon) st with
    | (Ok record, st') => ([record], st')
    | (Throw error, st') => ([], emit (ErrorFetchFailed pokemon error) st')
    end.
Proof.
  intros Hperson Hpokemon Hboth. unfold process_row.
  rewrite Hperson, Hpokemon, Hboth. simpl.
  by destruct (fetch_row person pokemon (trim pokemon) st) as [[record|error] st'].
Qed.

(** The dataset of the loop is what [main] prints. *)
Lemma run_prints_dataset argv inputPath content :
  argv !! 0%nat = Some inputPath -> missing (Some inputPath) = false ->
  argv !! 1%nat = None ->
  readFile (path_resolve inputPath) = Ok content ->
  parseCsv content <> [] ->
  run argv
  = (0, trace (snd (process_rows (parseCsv content) initial))
        ++ [StdoutWritten
              (JSON_stringify (fst (process_rows (parseCsv content) initial)))]).
Proof.
  intros Hin Hpath Hout Hfile Hrows. unfold run, main.
  rewrite Hin, Hpath, Hout. cbn [from_option]. unfold id. rewrite Hfile.
  destruct (parseCsv content) as [|row rows] eqn:Hparse; [done|].
  cbn [length Nat.eqb].
  destruct (process_rows (row :: rows) initial) as [datasets st'].
  unfold write_outputs. by cbn [missing fst snd].
Qed.

(** C3: the dataset holds one record for each row that went through, in
    the order of the rows: around any row, it is what the rows before gave,
    then what the row gives, then what the rows after give, these being
    processed from the state the row left.  A row whose resolving or
    fetching throws gives nothing, no placeholder either, and the error is
    on the console, then and at the end; a row that goes through gives its
    one record.  This dataset is the one [main] prints. *)
Theorem dataset_one_record_per_processed_row before row after st :
  let st0 := snd (process_rows before st) in
  let own := fst (process_row ([], st0) row) in
  let st1 := snd (process_row ([], st0) row) in
  let final := snd (process_rows after st1) in
  process_rows (before ++ row :: after) st
  = (fst (process_rows before st) ++ own ++ fst (process_rows after st1), final)
  /\ (forall person pokemon,
        row !! 0%nat = Some person -> row !! 1%nat = Some pokemon ->
        missing (Some person) || missing (Some pokemon) = false ->
        match fetch_row person pokemon (trim pokemon) st0 with
        | (Ok record, _) => own = [record]
        | (Throw error, _) =>
            own = []
            /\ In (ErrorFetchFailed pokemon error) (trace st1)
            /\ In (ErrorFetchFailed pokemon error) (trace final)
        end)
  /\ (missing (row !! 0%nat) || missing (row !! 1%nat) = true -> own = [])
  /\ (length own <= 1)%nat
  /\ (forall argv inputPath content,
        argv !! 0%nat = Some inputPath -> missing (Some inputPath) = false ->
        argv !! 1%nat = None ->
        readFile (path_resolve inputPath) = Ok content ->
        parseCsv content <> [] ->
        run argv
        = (0, trace (snd (process_rows (parseCsv content) initial))
              ++ [StdoutWritten
                    (JSON_stringify
                       (fst (process_rows (parseCsv content) initial)))])).
Proof.
  intros st0 own st1 final. split; [|split; [|split; [|split]]];
    [| | | |exact run_prints_dataset].
  - rewrite process_rows_app, process_rows_cons. done.
  - intros person pokemon Hperson Hpokemon Hboth.
    pose proof (process_row_complete st0 row person pokemon
                  Hperson Hpokemon Hboth) as Hrow.
    subst own final st1.
    destruct (fetch_row person pokemon (trim pokemon) st0)
      as [[record|error] st'].
    + by rewrite Hrow.
    + rewrite Hrow. cbn [fst snd]. split; [done|].
      split; [apply emit_elem|].
      eapply extends_elem; [apply process_rows_extends|apply emit_elem].
  - intros Hmissing. subst own. unfold process_row. by rewrite Hmissing.
  - subst own. unfold process_row.
    destruct (missing (row !! 0%nat) || missing (row !! 1%nat)); [simpl; lia|].
    destruct (fetch_row _ _ _ st0) as [[record|error] st']; simpl; lia.
Qed.

End Dataset.

(** The end-to-end failure of the specification, on the example: the row
    of Misty, whose requests are refused, leaves no entry; the others follow
    each other in the order of the file. *)
Example dataset_of_example :
  fst (process_rows (host := example_host) (parseCsv example_csv) initial)
  = [ {| rec_name := js "Ash"; rec_pokemon := js "Pikachu";
         rec_image := VStr (js "artwork-25.png");
         rec_description := js "Il stocke de l'electricite." |};
      {| rec_name := js "Jessie"; rec_pokemon := js "Mr Mime";
         rec_image := VNull;
         rec_description := js "Pantomime" |} ].
Proof. vm_compute. reflexivity. Qed.

(** ** No data *)

Lemma parseCsv_no_rows content :
  parseCsv content = []
  <-> forallb (fun line => negb (kept (trim line))) (split_lines content) = true.
Proof.
  unfold parseCsv. fold kept.
  induction (split_lines content) as [|line lines IH]; [done|].
  simpl. destruct (kept (trim line)); simpl; [|exact IH].
  split; discriminate.
Qed.

Section NoData.

Context `{host : Host}.

(** C1, as the code has it: when the parser yields no row at all, that is,
    when every line is blank or a comment, the program prints its error and
    exits with code 1, having sent no request and written no dataset. *)
Theorem no_parsed_row_is_fatal argv inputPath content :
  argv !! 0%nat = Some inputPath ->
  missing (Some inputPath) = false ->
  readFile (path_resolve inputPath) = Ok content ->
  forallb (fun line => negb (kept (trim line))) (split_lines content) = true ->
  parseCsv content = [] /\ run argv = (1, [ErrorNoData]).
Proof.
  intros Hargv Hpath Hfile Hlines.
  apply parseCsv_no_rows in Hlines. split; [done|].
  unfold run, main. rewrite Hargv, Hpath. simpl. rewrite Hfile, Hlines. done.
Qed.

End NoData.

Lemma no_parsed_row_is_fatal_witness :
  parseCsv (js "# nobody" ++ [LF]) = []
  /\ run (host := example_host) [js "empty.csv"] = (1, [ErrorNoData]).
Proof.
  apply (no_parsed_row_is_fatal (host := example_host)
           [js "empty.csv"] (js "empty.csv")); reflexivity.
Defined.

(** C1 as stated fails: a file whose rows all lack a field has no usable
    row, yet the program warns about each row, prints the empty dataset
    and ends with code 0. *)
Lemma no_usable_row_is_not_fatal :
  List.filter usable (parseCsv (js "Ash" ++ [LF] ++ js ",Onix")) = []
  /\ run (host := example_host) [js "blank.csv"]
     = (0, [WarnIncompleteRow [js "Ash"];
            WarnIncompleteRow [[]; js "Onix"];
            StdoutWritten (js "[]")]).
Proof. split; vm_compute; reflexivity. Qed.

(** ** Image and description *)

Lemma field_at_undefined path : field_at path VUndefined = VUndefined.
Proof. by destruct path. Qed.

Lemma field_at_optProp k rest v :
  field_at (k :: rest) v = field_at rest (optProp v k).
Proof.
  destruct v; simpl; try by rewrite field_at_undefined.
  unfold optProp, own_prop. simpl.
  destruct (lookup_field k fields); simpl; [done|].
  by rewrite field_at_undefined.
Qed.

Section Image.

Context `{host : Host}.

Lemma selectImage_fields pokemonData :
  selectImage pokemonData
  = coalesce
      (field_at [js "sprites"; js "other"; js "official-artwork"; js "front_default"]
         pokemonData)
      (coalesce (field_at [js "sprites"; js "front_default"] pokemonData) VNull).
Proof. unfold selectImage. by rewrite !field_at_optProp. Qed.

(** C4: the image is the official artwork when the primary record has it,
    else the basic sprite when it has that, else null; and selecting no
    image only puts a warning on the console: the record is made all the
    same, as with an image, whenever the description can be read. *)
Theorem image_selection_order :
  (forall pokemonData,
      let artwork :=
        field_at [js "sprites"; js "other"; js "official-artwork"; js "front_default"]
          pokemonData in
      let sprite := field_at [js "sprites"; js "front_default"] pokemonData in
      selectImage pokemonData
      = if present artwork then artwork
        else if present sprite then sprite else VNull)
  /\ (forall person pokemon trimmedPokemon pokemonData speciesData st,
        assemble_record person pokemon trimmedPokemon pokemonData speciesData st
        = (match extractFlavorText speciesData with
           | Ok description =>
               Ok {| rec_name := trim person;
                     rec_pokemon := capitalizeName trimmedPokemon;
                     rec_image := selectImage pokemonData;
                     rec_description := description |}
           | Throw error => Throw error
           end,
           if truthy (selectImage pokemonData) then st
           else emit (WarnNoArtwork pokemon) st))
  /\ (forall person pokemon trimmedPokemon pokemonData speciesData description st,
        selectImage pokemonData = VNull ->
        extractFlavorText speciesData = Ok description ->
        assemble_record person pokemon trimmedPokemon pokemonData speciesData st
        = (Ok {| rec_name := trim person;
                 rec_pokemon := capitalizeName trimmedPokemon;
                 rec_image := VNull;
                 rec_description := description |},
           emit (WarnNoArtwork pokemon) st)).
Proof.
  split; [|split].
  - intros pokemonData artwork sprite. rewrite selectImage_fields.
    fold artwork sprite. unfold coalesce, present.
    destruct (nullish artwork); simpl; [|done]. by destruct (nullish sprite).
  - exact assemble_record_eq.
  - intros person pokemon trimmedPokemon pokemonData speciesData description st
      Himage Htext.
    by rewrite assemble_record_eq, Himage, Htext.
Qed.

End Image.

(** On the example, Mr. Mime has no image: the row is warned about and
    kept. *)
Example no_artwork_is_not_fatal :
  fst (process_row (host := example_host) ([], initial) [js "Jessie"; js "mr mime"])
  = [ {| rec_name := js "Jessie"; rec_pokemon := js "Mr Mime";
         rec_image := VNull; rec_description := js "Pantomime" |} ]
  /\ trace (snd (process_row (host := example_host) ([], initial)
                   [js "Jessie"; js "mr mime"]))
     = [Request ALIAS_DATA_URL;
        Request (POKEMON_URL ++ js "122");
        Request (SPECIES_URL ++ js "122");
        WarnNoArtwork (js "mr mime")].
Proof. split; vm_compute; reflexivity. Qed.

Lemma trimEnd_app a b :
  trimEnd (a ++ b) = match trimEnd b with [] => trimEnd a | t => a ++ t end.
Proof.
  induction a as [|c a IH]; simpl.
  - by destruct (trimEnd b).
  - rewrite IH. destruct (trimEnd b) as [|d t]; [done|].
    by destruct (a ++ d :: t) eqn:Happ; [destruct a|].
Qed.

Lemma trimEnd_no_whitespace a :
  forallb (fun c => negb (is_whitespace c)) a = true -> trimEnd a = a.
Proof.
  induction a as [|c a IH]; [done|]. simpl.
  intros [Hc Ha]%andb_prop. rewrite (IH Ha).
  apply negb_true_iff in Hc. rewrite Hc. by destruct a.
Qed.

Lemma trimStart_after_run s :
  trimStart (replace_runs_from is_whitespace [SPACE] true s)
  = replace_runs_from is_whitespace [SPACE] true s.
Proof.
  induction s as [|c r IH]; [done|]. simpl.
  destruct (is_whitespace c) eqn:Hc; [exact IH|].
  unfold trimStart. simpl. by rewrite Hc.
Qed.

Lemma trimStart_replace_runs s :
  trimStart (replace_runs is_whitespace [SPACE] s)
  = replace_runs_from is_whitespace [SPACE] true s.
Proof.
  destruct s as [|c r]; [done|]. unfold replace_runs. simpl.
  destruct (is_whitespace c) eqn:Hc.
  - apply trimStart_after_run.
  - unfold trimStart. simpl. by rewrite Hc.
Qed.

Lemma replace_form_feeds b s :
  replace_runs_from is_whitespace [SPACE] b (replace_each is_form_feed [SPACE] s)
  = replace_runs_from is_whitespace [SPACE] b s.
Proof.
  revert b. induction s as [|c r IH]; intros b; [done|]. simpl.
  destruct (is_form_feed c) eqn:Hff.
  - apply N.eqb_eq in Hff as ->. simpl. by rewrite IH.
  - simpl. by rewrite !IH.
Qed.

Lemma words_from_not_empty cur s : Forall (fun w => w <> []) (words_from cur s).
Proof.
  revert cur. induction s as [|c r IH]; intros cur; simpl.
  - destruct cur as [|d cur]; simpl; [constructor|].
    constructor; [|constructor]. intros H%(f_equal (@length N)).
    rewrite length_app in H. simpl in H. lia.
  - destruct (is_whitespace c); [|apply IH].
    destruct cur as [|d cur]; simpl; [apply IH|].
    constructor; [|apply IH]. intros H%(f_equal (@length N)).
    rewrite length_app in H. simpl in H. lia.
Qed.

Lemma join_words_empty ws :
  Forall (fun w : jsstring => w <> []) ws -> join [SPACE] ws = [] -> ws = [].
Proof.
  destruct 1 as [|w ws Hw _]; [done|].
  destruct w as [|c w]; [done|]. by destruct ws.
Qed.

Lemma join_cons (p : jsstring) ps :
  ps <> [] -> join [SPACE] (p :: ps) = p ++ SPACE :: join [SPACE] ps.
Proof. by destruct ps. Qed.

(** Collapsing the runs and trimming the end leaves the words, a space
    between two of them. *)
Lemma trimEnd_replace_runs s :
  (forall cur,
      cur <> [] -> forallb (fun c => negb (is_whitespace c)) cur = true ->
      trimEnd (rev cur ++ replace_runs_from is_whitespace [SPACE] false s)
      = join [SPACE] (words_from cur s))
  /\ trimEnd (replace_runs_from is_whitespace [SPACE] true s)
     = join [SPACE] (words_from [] s).
Proof.
  assert (forall cur : jsstring, cur <> [] -> is_empty cur = false) as Hfull
    by (by intros [|d cur]).
  induction s as [|c r [IHword IHgap]].
  - split; [|done]. intros cur Hne Hcur.
    cbn [replace_runs_from words_from]. rewrite app_nil_r, (Hfull _ Hne).
    cbn [join]. apply trimEnd_no_whitespace. by rewrite forallb_rev.
  - assert (forall cur,
               forallb (fun c => negb (is_whitespace c)) cur = true ->
               is_whitespace c = false ->
               trimEnd (rev cur ++ c :: replace_runs_from is_whitespace [SPACE] false r)
               = join [SPACE] (words_from (c :: cur) r)) as Hletter.
    { intros cur Hcur Hc.
      replace (rev cur ++ c :: replace_runs_from is_whitespace [SPACE] false r)
        with (rev (c :: cur) ++ replace_runs_from is_whitespace [SPACE] false r)
        by (simpl; by rewrite <- app_assoc).
      apply IHword; [done|]. simpl. by rewrite Hc, Hcur. }
    split.
    + intros cur Hne Hcur. cbn [replace_runs_from words_from].
      destruct (is_whitespace c) eqn:Hc; [|by apply Hletter].
      rewrite (Hfull _ Hne), trimEnd_app.
      change ([SPACE] ++ replace_runs_from is_whitespace [SPACE] true r)
        with (SPACE :: replace_runs_from is_whitespace [SPACE] true r).
      cbn [trimEnd]. rewrite IHgap.
      pose proof (words_from_not_empty [] r) as Hwords.
      destruct (join [SPACE] (words_from [] r)) as [|e t] eqn:Hjoin.
      * apply join_words_empty in Hjoin; [|done]. rewrite Hjoin.
        cbn [join]. change (is_whitespace SPACE) with true. cbn iota.
        apply trimEnd_no_whitespace. by rewrite forallb_rev.
      * rewrite join_cons; [by rewrite Hjoin|].
        intros Hnil. by rewrite Hnil in Hjoin.
    + cbn [replace_runs_from words_from].
      destruct (is_whitespace c) eqn:Hc; [exact IHgap|].
      change (is_empty []) with true. cbn iota.
      by apply (Hletter []).
Qed.

(** What [sanitizeFlavorText] returns: the words of the text, one space
    between two of them. *)
Lemma sanitizeFlavorText_words rawText :
  sanitizeFlavorText rawText = join [SPACE] (words rawText).
Proof.
  unfold sanitizeFlavorText, trim. rewrite trimStart_replace_runs.
  rewrite replace_form_feeds. apply trimEnd_replace_runs.
Qed.

(** A word has no white space in it, so that nothing is left to trim
    around the words joined, and no form feed among them. *)
Lemma words_from_no_whitespace cur s :
  forallb (fun c => negb (is_whitespace c)) cur = true ->
  Forall (fun w => forallb (fun c => negb (is_whitespace c)) w = true)
    (words_from cur s).
Proof.
  revert cur. induction s as [|c r IH]; intros cur Hcur; simpl.
  - destruct (is_empty cur); constructor; [|constructor].
    by rewrite forallb_rev.
  - destruct (is_whitespace c) eqn:Hc.
    + destruct (is_empty cur); [by apply IH|].
      constructor; [by rewrite forallb_rev|by apply IH].
    + apply IH. simpl. by rewrite Hc, Hcur.
Qed.

Lemma trimStart_word (w rest : jsstring) :
  w <> [] -> forallb (fun c => negb (is_whitespace c)) w = true ->
  trimStart (w ++ rest) = w ++ rest.
Proof.
  destruct w as [|c w]; [done|]. simpl. intros _ [Hc _]%andb_prop.
  apply negb_true_iff in Hc. unfold trimStart. simpl. by rewrite Hc.
Qed.

Lemma trim_join_words ws :
  Forall (fun w : jsstring => w <> []) ws ->
  Forall (fun w => forallb (fun c => negb (is_whitespace c)) w = true) ws ->
  trim (join [SPACE] ws) = join [SPACE] ws.
Proof.
  intros Hne Hws. unfold trim.
  assert (trimStart (join [SPACE] ws) = join [SPACE] ws) as ->.
  { destruct Hne as [|w ws' Hw Hne]; [done|]. inversion_clear Hws.
    destruct ws' as [|w' ws'']; simpl.
    - rewrite <- (app_nil_r w). by apply trimStart_word.
    - by apply trimStart_word. }
  induction Hne as [|w ws' Hw Hne IH]; [done|]. inversion_clear Hws as [|? ? Hw' Hws'].
  destruct ws' as [|w' ws''].
  - simpl. by apply trimEnd_no_whitespace.
  - rewrite join_cons by done. rewrite trimEnd_app.
    change (trimEnd (SPACE :: join [SPACE] (w' :: ws'')))
      with (match trimEnd (join [SPACE] (w' :: ws'')) with
            | [] => []
            | t => SPACE :: t
            end).
    rewrite (IH Hws').
    destruct (join [SPACE] (w' :: ws'')) as [|e t] eqn:Hjoin; [|done].
    by apply join_words_empty in Hjoin.
Qed.

Lemma trim_sanitizeFlavorText rawText :
  trim (sanitizeFlavorText rawText) = sanitizeFlavorText rawText.
Proof.
  rewrite sanitizeFlavorText_words.
  apply trim_join_words; [apply words_from_not_empty|].
  by apply words_from_no_whitespace.
Qed.

Lemma sanitizeFlavorText_no_form_feed rawText :
  ~ In FF (sanitizeFlavorText rawText).
Proof.
  rewrite sanitizeFlavorText_words.
  pose proof (words_from_no_whitespace [] rawText eq_refl) as Hws.
  fold (words rawText) in Hws.
  induction Hws as [|w ws Hw Hws IH]; [by intros []|].
  assert (~ In FF w) as Hin.
  { intros Hin. rewrite forallb_forall in Hw. by specialize (Hw _ Hin). }
  destruct ws as [|w' ws']; [done|].
  rewrite join_cons by done. intros [?|[?|?]]%in_app_or; done.
Qed.

Section FlavorText.

Context `{host : Host}.

Lemma optProp_own v k : nullish v = false -> optProp v k = own_prop v k.
Proof. unfold optProp. by intros ->. Qed.

Lemma has_language_field lang entry b :
  has_language lang entry = Ok b ->
  b = strict_eq_string (field_at [js "language"; js "name"] entry) lang.
Proof.
  unfold has_language, getProp. rewrite !field_at_optProp.
  destruct (nullish entry) eqn:Hentry; simpl; [done|].
  rewrite (optProp_own entry) by done. by intros [= <-].
Qed.

Lemma has_language_total lang entry :
  nullish entry = false ->
  has_language lang entry
  = Ok (strict_eq_string (field_at [js "language"; js "name"] entry) lang).
Proof.
  intros Hentry. unfold has_language, getProp. rewrite !field_at_optProp.
  rewrite (optProp_own entry) by done. by rewrite Hentry.
Qed.

Lemma first_in_cons lang entry rest :
  first_in lang (entry :: rest)
  = if strict_eq_string (field_at [js "language"; js "name"] entry) lang
    then Some entry else first_in lang rest.
Proof. reflexivity. Qed.

Lemma find_entry_first lang entries found :
  find_entry (has_language lang) entries = Ok found ->
  found = default VUndefined (first_in lang entries).
Proof.
  induction entries as [|entry rest IH].
  - by intros [= <-].
  - rewrite first_in_cons. cbn [find_entry].
    destruct (has_language lang entry) as [b|e] eqn:Hb; cbn [bind]; [|done].
    apply has_language_field in Hb. rewrite <- Hb.
    destruct b; [by intros [= <-]|exact IH].
Qed.

Lemma find_entry_total lang entries :
  forallb (fun entry => negb (nullish entry)) entries = true ->
  find_entry (has_language lang) entries
  = Ok (default VUndefined (first_in lang entries)).
Proof.
  induction entries as [|entry rest IH]; [done|].
  rewrite first_in_cons. cbn [find_entry forallb].
  intros [Hentry Hrest]%andb_prop. apply negb_true_iff in Hentry.
  rewrite (has_language_total _ _ Hentry). cbn [bind].
  destruct (strict_eq_string _ lang); [done|by apply IH].
Qed.

Lemma optProp_text entry :
  optProp (default VUndefined entry) (js "flavor_text") = text_of entry.
Proof.
  destruct entry as [e|]; [|done]. unfold text_of.
  by rewrite field_at_optProp.
Qed.

Lemma coalesce_first_present a b c :
  coalesce a (coalesce b (coalesce c (VStr []))) = first_present [a; b; c].
Proof.
  unfold coalesce, first_present, present. simpl.
  by destruct (nullish a), (nullish b), (nullish c).
Qed.

(** What [extractFlavorText] selects, when it returns. *)
Lemma extractFlavorText_selects speciesData description :
  extractFlavorText speciesData = Ok description ->
  exists entries rawText,
    flavor_entries speciesData = VArr entries
    /\ chosen_text entries = VStr rawText
    /\ description = sanitizeFlavorText rawText.
Proof.
  unfold extractFlavorText, flavor_entries. rewrite field_at_optProp. simpl.
  destruct (coalesce _ _) as [| | | | |entries|]; try done.
  destruct (find_entry (has_language (js "fr")) entries) as [fr|] eqn:Hfr;
    simpl; [|done].
  destruct (find_entry (has_language (js "en")) entries) as [en|] eqn:Hen;
    simpl; [|done].
  apply find_entry_first in Hfr as ->. apply find_entry_first in Hen as ->.
  rewrite !optProp_text, coalesce_first_present. fold (chosen_text entries).
  destruct (chosen_text entries) as [| | | |rawText| |] eqn:Htext; try done.
  intros [= <-]. eauto.
Qed.

(** And it returns, when the entries are an array without [null] and the
    text selected is a string. *)
Lemma extractFlavorText_returns speciesData entries rawText :
  flavor_entries speciesData = VArr entries ->
  forallb (fun entry => negb (nullish entry)) entries = true ->
  chosen_text entries = VStr rawText ->
  extractFlavorText speciesData = Ok (sanitizeFlavorText rawText).
Proof.
  unfold extractFlavorText, flavor_entries. rewrite field_at_optProp. simpl.
  intros -> Hentries Htext.
  rewrite !find_entry_total by done. simpl.
  rewrite !optProp_text, coalesce_first_present. fold (chosen_text entries).
  by rewrite Htext.
Qed.

(** C5: the description is the text of the French entry when there is
    one, else of the English entry, else of the first entry, else the empty
    string; and it is sanitised: no form feed is left, and the words of the
    text stand with one space between two of them and no white space
    around. *)
Theorem description_selection_and_sanitising :
  (forall speciesData description,
      extractFlavorText speciesData = Ok description ->
      exists entries rawText,
        flavor_entries speciesData = VArr entries
        /\ chosen_text entries = VStr rawText
        /\ description = sanitizeFlavorText rawText)
  /\ (forall speciesData entries rawText,
        flavor_entries speciesData = VArr entries ->
        forallb (fun entry => negb (nullish entry)) entries = true ->
        chosen_text entries = VStr rawText ->
        extractFlavorText speciesData = Ok (sanitizeFlavorText rawText))
  /\ (forall rawText,
        sanitizeFlavorText rawText = join [SPACE] (words rawText)
        /\ trim (sanitizeFlavorText rawText) = sanitizeFlavorText rawText
        /\ ~ In FF (sanitizeFlavorText rawText)).
Proof.
  split; [exact extractFlavorText_selects|].
  split; [exact extractFlavorText_returns|].
  intros rawText. split; [apply sanitizeFlavorText_words|].
  split; [apply trim_sanitizeFlavorText|apply sanitizeFlavorText_no_form_feed].
Qed.

End FlavorText.

(** On the example, the French text is selected though it comes second,
    and cleaned. *)
Example description_of_example :
  extractFlavorText example_pikachu_species
  = Ok (js "Il stocke de l'electricite.").
Proof. vm_compute. reflexivity. Qed.

(** ** The alias map and the resolver *)

Lemma insert_keys_lookup (id : jsstring) (ks : list jsstring) (m : AliasMap)
  (key : jsstring) :
  insert_keys id ks m !! key
  = if bool_decide (key ∈ ks) then Some id else m !! key.
Proof.
  unfold insert_keys. revert m.
  induction ks as [|k ks IH]; intros m; simpl; [done|].
  rewrite IH. destruct (decide (k = key)) as [->|Hne].
  - rewrite lookup_insert_eq. rewrite (bool_decide_eq_true_2 (key ∈ key :: ks));
      [|by left]. by case_bool_decide.
  - rewrite lookup_insert_ne by done.
    case_bool_decide as Hin.
    + rewrite bool_decide_eq_true_2; [done|by right].
    + rewrite bool_decide_eq_false_2; [done|].
      intros [?|?]%elem_of_cons; [by subst|done].
Qed.

Section Resolver.

Context `{host : Host}.

Lemma add_variant_string id map s :
  add_variant id map (VStr s)
  = Ok (if non_empty s then <[normalizeString s := id]> map else map).
Proof. unfold add_variant, non_empty. simpl. by destruct (is_empty s). Qed.

Lemma add_entry_reference map r :
  add_entry map (reference_entry r)
  = Ok (insert_keys (ref_id r) (record_keys r) map).
Proof.
  destruct r as [id english french]. unfold add_entry, record_keys.
  cbn [ref_id ref_english ref_french].
  change (getProp (reference_entry _) (js "id")) with (Ok (VNum id)).
  cbn [bind ToString].
  change (own_prop (reference_entry _) (js "name"))
    with (VObj [(js "english", VStr english); (js "french", VStr french)]).
  change (optProp (VObj [(js "english", VStr english); (js "french", VStr french)])
            (js "english")) with (VStr english).
  change (optProp (VObj [(js "english", VStr english); (js "french", VStr french)])
            (js "french")) with (VStr french).
  cbn [coalesce nullish]. unfold slugifyName. rewrite normalizeName_string.
  cbn [bind foldM]. rewrite !add_variant_string. cbn [bind].
  rewrite !add_variant_string. cbn [bind].
  rewrite !add_variant_string. cbn [bind].
  rewrite !add_variant_string. cbn [List.filter].
  unfold insert_keys.
  by destruct (non_empty id), (non_empty english), (non_empty french),
    (non_empty (normalizeString english)).
Qed.

Lemma foldM_add_entry_reference records map :
  foldM add_entry (List.map reference_entry records) map
  = Ok (fold_left (fun m r => insert_keys (ref_id r) (record_keys r) m) records map).
Proof.
  revert map. induction records as [|r rest IH]; intros map; [done|].
  cbn [List.map foldM]. rewrite add_entry_reference. cbn [bind]. apply IH.
Qed.

Lemma fold_insert_keys_lookup (records : list ReferenceRecord) (m : AliasMap)
  (key : jsstring) :
  fold_left (fun m r => insert_keys (ref_id r) (record_keys r) m) records m
    !! key
  = match mapped_id key records with
    | Some id => Some id
    | None => m !! key
    end.
Proof.
  revert m. induction records as [|r rest IH]; intros m; [done|].
  cbn [fold_left mapped_id]. rewrite IH.
  destruct (mapped_id key rest); [done|].
  rewrite insert_keys_lookup. by case_bool_decide.
Qed.

Lemma resolve_in_cases (aliasMap : AliasMap) (rawName : jsstring) :
  resolve_in aliasMap rawName
  = Ok match aliasMap !! normalizeString rawName with
       | Some id => id
       | None =>
           if is_empty (normalizeString rawName) then rawName
           else normalizeString rawName
       end.
Proof.
  unfold resolve_in, slugifyName. rewrite normalizeName_string. cbn [bind].
  by destruct (aliasMap !! normalizeString rawName).
Qed.

(** The first call of the resolver creates the promise, sends the request
    and waits for the map. *)
Lemma resolvePokemonIdentifier_first rawName st :
  aliasMapPromise st = None ->
  resolvePokemonIdentifier rawName st
  = match buildPokemonAliasMap (respond (request_count st) ALIAS_DATA_URL) with
    | Ok map =>
        (resolve_in map rawName,
         {| promises := promises st ++ [Fulfilled map];
            aliasMapPromise := Some (length (promises st));
            trace := trace st ++ [Request ALIAS_DATA_URL] |})
    | Throw error =>
        (resolve_in ∅ rawName,
         {| promises := promises st ++ [Fulfilled ∅];
            aliasMapPromise := Some (length (promises st));
            trace := trace st ++ [Request ALIAS_DATA_URL; ErrorAliasTable error] |})
    end.
Proof.
  intros Hnone. unfold resolvePokemonIdentifier, getPokemonAliasMap.
  rewrite Hnone. cbn [fetchJson emit promises trace aliasMapPromise].
  unfold await, settle. cbn [promises trace aliasMapPromise].
  rewrite !list_lookup_middle by done.
  destruct (buildPokemonAliasMap _) as [map|error];
    cbn [promises trace aliasMapPromise].
  - rewrite insert_app_r_alt, Nat.sub_diag by done. cbn [insert list_insert].
    by rewrite list_lookup_middle.
  - rewrite insert_app_r_alt, Nat.sub_diag by done. cbn [insert list_insert].
    rewrite list_lookup_middle by done. by rewrite <- app_assoc.
Qed.

(** Later calls find the promise fulfilled and change nothing. *)
Lemma resolvePokemonIdentifier_again rawName st p map :
  aliasMapPromise st = Some p -> promises st !! p = Some (Fulfilled map) ->
  resolvePokemonIdentifier rawName st = (resolve_in map rawName, st).
Proof.
  intros Hp Hmap. unfold resolvePokemonIdentifier, getPokemonAliasMap, await.
  by rewrite Hp, Hmap.
Qed.

(** C2: the resolver returns the id the alias map has for the normalised
    name, and otherwise the slug of the name, or the name itself when the
    slug is empty.  The map built from the reference dataset has, for every
    key (the normalised id, English name, French name and slug of the
    English name of a record), the id of the last record known by it; it is
    this map the resolver looks into, from its first call on. *)
Theorem resolve_mapped_id_or_slug :
  (forall (aliasMap : AliasMap) (rawName : jsstring),
      resolve_in aliasMap rawName
      = Ok match aliasMap !! normalizeString rawName with
           | Some id => id
           | None =>
               if is_empty (normalizeString rawName) then rawName
               else normalizeString rawName
           end)
  /\ (forall records : list ReferenceRecord,
        exists aliasMap : AliasMap,
          buildPokemonAliasMap (Ok (reference_data records)) = Ok aliasMap
          /\ forall key : jsstring, aliasMap !! key = mapped_id key records)
  /\ (forall rawName st aliasMap,
        aliasMapPromise st = None ->
        buildPokemonAliasMap (respond (request_count st) ALIAS_DATA_URL)
        = Ok aliasMap ->
        let '(identifier, st') := resolvePokemonIdentifier rawName st in
        identifier = resolve_in aliasMap rawName
        /\ forall rawName',
            resolvePokemonIdentifier rawName' st'
            = (resolve_in aliasMap rawName', st')).
Proof.
  split; [exact resolve_in_cases|]. split.
  - intros records. eexists. split.
    + unfold buildPokemonAliasMap, reference_data. cbn [bind].
      apply foldM_add_entry_reference.
    + intros key. rewrite fold_insert_keys_lookup.
      rewrite lookup_empty. by destruct (mapped_id key records).
  - intros rawName st aliasMap Hnone Hmap.
    rewrite resolvePokemonIdentifier_first, Hmap by done.
    split; [done|]. intros rawName'.
    eapply resolvePokemonIdentifier_again; cbn [aliasMapPromise promises].
    + done.
    + by apply list_lookup_middle.
Qed.

End Resolver.

(** ** The memoised promise *)

Section Memo.

Context `{host : Host}.

Lemma keeps_memo_and_then {A B} (c : Comp A) (k : A -> Comp B) :
  keeps_memo c -> (forall a, keeps_memo (k a)) -> keeps_memo (and_then c k).
Proof.
  intros Hc Hk st m Hm. unfold and_then. specialize (Hc st m Hm).
  destruct (c st) as [[a|e] st']; simpl in *; [|done]. by apply Hk.
Qed.

Lemma keeps_memo_lift {A} (r : Result A) : keeps_memo (lift r).
Proof. by intros st m Hm. Qed.

Lemma keeps_memo_ret {A} (a : A) : keeps_memo (ret a).
Proof. by intros st m Hm. Qed.

Lemma keeps_memo_console e : keeps_memo (console e).
Proof. by intros st m Hm. Qed.

Lemma keeps_memo_send url : keeps_memo (send url).
Proof. by intros st m Hm. Qed.

Lemma keeps_memo_resolve rawName : keeps_memo (resolvePokemonIdentifier rawName).
Proof.
  intros st m Hm. destruct Hm as (p & Hp & Hmap).
  rewrite (resolvePokemonIdentifier_again rawName st p m Hp Hmap).
  by exists p.
Qed.

Lemma keeps_memo_fetch_row person pokemon trimmedPokemon :
  keeps_memo (fetch_row person pokemon trimmedPokemon).
Proof.
  unfold fetch_row.
  apply keeps_memo_and_then; [apply keeps_memo_resolve|].
  intros identifier. apply keeps_memo_and_then; [apply keeps_memo_lift|].
  intros c1. apply keeps_memo_and_then; [apply keeps_memo_send|].
  intros n1. apply keeps_memo_and_then; [apply keeps_memo_lift|].
  intros c2. apply keeps_memo_and_then; [apply keeps_memo_send|].
  intros n2. apply keeps_memo_and_then; [apply keeps_memo_lift|].
  intros both. unfold assemble_record. apply keeps_memo_and_then.
  - destruct (truthy _); [apply keeps_memo_ret|apply keeps_memo_console].
  - intros _. apply keeps_memo_and_then; [apply keeps_memo_lift|].
    intros d. apply keeps_memo_ret.
Qed.

Lemma memoised_process_row datasets st row m :
  memoised st m -> memoised (snd (process_row (datasets, st) row)) m.
Proof.
  intros Hm. unfold process_row.
  destruct (missing (row !! 0%nat) || missing (row !! 1%nat)); [done|].
  pose proof (keeps_memo_fetch_row (default [] (row !! 0%nat))
                (default [] (row !! 1%nat))
                (trim (default [] (row !! 1%nat))) st m Hm) as H.
  by destruct (fetch_row _ _ _ st) as [[record|error] st'].
Qed.

Lemma memoised_process_rows rows st m :
  memoised st m -> memoised (snd (process_rows rows st)) m.
Proof.
  revert st. induction rows as [|row rows IH]; intros st Hm; [done|].
  rewrite process_rows_cons. cbn [snd]. apply IH.
  by apply memoised_process_row.
Qed.

Lemma resolve_in_empty rawName : resolve_in ∅ rawName = Ok (slug_or_raw rawName).
Proof. rewrite resolve_in_cases. by rewrite lookup_empty. Qed.

(** C7: when the reference dataset cannot be fetched, the failure goes to
    the console and the promise is fulfilled with an empty map: the call
    returns the slug of the name (the name, when the slug is empty), so does
    every later call, without a new request, and the rows go on being
    processed with that map. *)
Theorem alias_fetch_failure_degrades st rawName error :
  aliasMapPromise st = None ->
  respond (request_count st) ALIAS_DATA_URL = Throw error ->
  let '(identifier, st') := resolvePokemonIdentifier rawName st in
  identifier = Ok (slug_or_raw rawName)
  /\ trace st' = trace st ++ [Request ALIAS_DATA_URL; ErrorAliasTable error]
  /\ memoised st' ∅
  /\ (forall st2 rawName',
        memoised st2 ∅ ->
        resolvePokemonIdentifier rawName' st2 = (Ok (slug_or_raw rawName'), st2))
  /\ (forall rows, memoised (snd (process_rows rows st')) ∅).
Proof.
  intros Hnone Hfetch.
  rewrite resolvePokemonIdentifier_first by done. rewrite Hfetch. cbn [bind buildPokemonAliasMap].
  assert (memoised
            {| promises := promises st ++ [Fulfilled ∅];
               aliasMapPromise := Some (length (promises st));
               trace := trace st ++ [Request ALIAS_DATA_URL; ErrorAliasTable error] |}
            ∅) as Hmemo.
  { eexists. split; [done|]. by apply list_lookup_middle. }
  split; [apply resolve_in_empty|]. split; [done|]. split; [done|]. split.
  - intros st2 rawName' (p & Hp & Hmap).
    rewrite (resolvePokemonIdentifier_again rawName' st2 p ∅ Hp Hmap).
    by rewrite resolve_in_empty.
  - intros rows. by apply memoised_process_rows.
Qed.

End Memo.

Lemma alias_fetch_failure_degrades_witness :
  fst (resolvePokemonIdentifier (host := ascii_host example_files no_network)
         (js "Mr. Mime") initial)
  = Ok (js "mr-mime")
  /\ trace (snd (resolvePokemonIdentifier
                   (host := ascii_host example_files no_network)
                   (js "Mr. Mime") initial))
     = [Request ALIAS_DATA_URL; ErrorAliasTable (Failure (js "ENOTFOUND"))].
Proof.
  pose proof (alias_fetch_failure_degrades
                (host := ascii_host example_files no_network)
                initial (js "Mr. Mime") (Failure (js "ENOTFOUND"))
                eq_refl eq_refl) as H.
  destruct (resolvePokemonIdentifier (js "Mr. Mime") initial) as [identifier st'].
  destruct H as (Hid & Htrace & _).
  split; [exact Hid|exact Htrace].
Defined.

(** ** Calls of the resolver, interleaved *)

Lemma pokemon_url_not_alias c : POKEMON_URL ++ c <> ALIAS_DATA_URL.
Proof. intros H. apply (f_equal (fun s => nth 8 s 0)) in H. discriminate H. Qed.

Lemma species_url_not_alias c : SPECIES_URL ++ c <> ALIAS_DATA_URL.
Proof. intros H. apply (f_equal (fun s => nth 8 s 0)) in H. discriminate H. Qed.

Lemma alias_requests_emit e st :
  alias_requests (emit e st)
  = (alias_requests st + if is_alias_request e then 1 else 0)%nat.
Proof.
  unfold alias_requests. simpl. rewrite List.filter_app, length_app. simpl.
  by destruct (is_alias_request e).
Qed.

Section Once.

Context `{host : Host}.

Lemma step_at_most_one a st :
  at_most_one st ->
  at_most_one (snd (step a st))
  /\ (forall p, fst (step a st) = Some p ->
                p = 0%nat /\ aliasMapPromise (snd (step a st)) = Some 0%nat).
Proof.
  intros Hst. destruct a as [|p response|c|c]; cbn [step fst snd fetchJson].
  - unfold getPokemonAliasMap.
    destruct Hst as [(Hnone & Hnil & Hreq)|(Hsome & Hlen & Hreq)].
    + rewrite Hnone. simpl. rewrite Hnil. split.
      * right. split; [done|]. split; [done|].
        change (alias_requests (emit (Request ALIAS_DATA_URL) st) = 1%nat).
        rewrite alias_requests_emit, Hreq. cbn [is_alias_request].
        by rewrite bool_decide_eq_true_2.
      * by intros p [= <-].
    + rewrite Hsome. simpl. split; [by right|]. by intros p [= <-].
  - split; [|done]. unfold settle.
    destruct (promises st !! p) as [[n|m]|]; [|done|done].
    destruct (buildPokemonAliasMap response) as [m|error].
    + destruct Hst as [(Hnone & Hnil & Hreq)|(Hsome & Hlen & Hreq)].
      * left. simpl. rewrite Hnil. done.
      * right. simpl. by rewrite length_insert.
    + assert (alias_requests
                {| promises := <[p := Fulfilled ∅]> (promises st);
                   aliasMapPromise := aliasMapPromise st;
                   trace := trace st ++ [ErrorAliasTable error] |}
              = alias_requests st) as Hsame.
      { unfold alias_requests. simpl. rewrite List.filter_app, length_app. simpl. lia. }
      destruct Hst as [(Hnone & Hnil & Hreq)|(Hsome & Hlen & Hreq)].
      * left. rewrite Hsame. simpl. rewrite Hnil. done.
      * right. rewrite Hsame. simpl. by rewrite length_insert.
  - split; [|done].
    assert (alias_requests (emit (Request (POKEMON_URL ++ c)) st)
            = alias_requests st) as Hsame.
    { rewrite alias_requests_emit. cbn [is_alias_request].
      rewrite bool_decide_eq_false_2; [lia|apply pokemon_url_not_alias]. }
    destruct Hst as [(Hnone & Hnil & Hreq)|(Hsome & Hlen & Hreq)];
      [left|right]; by rewrite Hsame.
  - split; [|done].
    assert (alias_requests (emit (Request (SPECIES_URL ++ c)) st)
            = alias_requests st) as Hsame.
    { rewrite alias_requests_emit. cbn [is_alias_request].
      rewrite bool_decide_eq_false_2; [lia|apply species_url_not_alias]. }
    destruct Hst as [(Hnone & Hnil & Hreq)|(Hsome & Hlen & Hreq)];
      [left|right]; by rewrite Hsame.
Qed.

(** The variable, once set, stays set. *)
Lemma aliasMapPromise_stays actions st p :
  aliasMapPromise st = Some p ->
  aliasMapPromise (snd (interleave actions st)) = Some p.
Proof.
  revert st. induction actions as [|a rest IH]; intros st Hset; [done|].
  cbn [interleave].
  assert (aliasMapPromise (snd (step a st)) = Some p) as Hstep.
  { destruct a as [|q response|c|c]; simpl; try done.
    - unfold getPokemonAliasMap. by rewrite Hset.
    - unfold settle. destruct (promises st !! q) as [[n|m]|]; try done.
      by destruct (buildPokemonAliasMap response). }
  destruct (step a st) as [returned st1]. cbn [snd] in Hstep.
  specialize (IH st1 Hstep).
  by destruct (interleave rest st1) as [others st2].
Qed.

Lemma interleave_at_most_one actions st :
  at_most_one st ->
  at_most_one (snd (interleave actions st))
  /\ Forall (fun p => p = 0%nat) (fst (interleave actions st))
  /\ (fst (interleave actions st) <> [] ->
      aliasMapPromise (snd (interleave actions st)) = Some 0%nat).
Proof.
  revert st. induction actions as [|a rest IH]; intros st Hst; [by simpl|].
  destruct (step_at_most_one a st Hst) as [Hst1 Hret].
  cbn [interleave]. destruct (step a st) as [returned st1]. cbn [fst snd] in *.
  destruct (IH st1 Hst1) as (Hst2 & Hall & Hcalled).
  pose proof (aliasMapPromise_stays rest st1 0%nat) as Hstays.
  destruct (interleave rest st1) as [others st2]. cbn [fst snd] in *.
  split; [done|]. destruct returned as [p|]; [|done].
  destruct (Hret p eq_refl) as [-> Hset]. split; [by constructor|].
  intros _. by apply Hstays.
Qed.

Lemma asked_once_emit e st :
  is_alias_request e = false -> asked_once st -> asked_once (emit e st).
Proof.
  intros He Hst. unfold asked_once. rewrite alias_requests_emit, He, Nat.add_0_r.
  destruct Hst as [[Hnone Hreq]|[[m Hm] Hreq]]; [by left|right].
  split; [by exists m|done].
Qed.

Lemma keeps_once_and_then {A B} (c : Comp A) (k : A -> Comp B) :
  keeps_once c -> (forall a, keeps_once (k a)) -> keeps_once (and_then c k).
Proof.
  intros Hc Hk st Hst. unfold and_then. specialize (Hc st Hst).
  destruct (c st) as [[a|e] st']; simpl in *; [|done]. by apply Hk.
Qed.

Lemma keeps_once_lift {A} (r : Result A) : keeps_once (lift r).
Proof. by intros st Hst. Qed.

Lemma keeps_once_ret {A} (a : A) : keeps_once (ret a).
Proof. by intros st Hst. Qed.

Lemma keeps_once_resolve rawName : keeps_once (resolvePokemonIdentifier rawName).
Proof.
  intros st [[Hnone Hreq]|[[m (p & Hp & Hm)] Hreq]].
  - rewrite resolvePokemonIdentifier_first by done.
    destruct (buildPokemonAliasMap _) as [m|error]; cbn [snd]; right.
    + split.
      * exists m. eexists. split; [done|]. by apply list_lookup_middle.
      * unfold alias_requests in *. cbn [trace].
        rewrite List.filter_app, length_app, Hreq. done.
    + split.
      * exists ∅. eexists. split; [done|]. by apply list_lookup_middle.
      * unfold alias_requests in *. cbn [trace].
        rewrite List.filter_app, length_app, Hreq. done.
  - rewrite (resolvePokemonIdentifier_again rawName st p m Hp Hm). cbn [snd].
    right. split; [|done]. exists m. by exists p.
Qed.

Lemma keeps_once_fetch_row person pokemon trimmedPokemon :
  keeps_once (fetch_row person pokemon trimmedPokemon).
Proof.
  unfold fetch_row.
  apply keeps_once_and_then; [apply keeps_once_resolve|].
  intros identifier. apply keeps_once_and_then; [apply keeps_once_lift|].
  intros c1. apply keeps_once_and_then.
  { intros st Hst. apply asked_once_emit; [|done]. cbn [is_alias_request].
    apply bool_decide_eq_false_2, pokemon_url_not_alias. }
  intros n1. apply keeps_once_and_then; [apply keeps_once_lift|].
  intros c2. apply keeps_once_and_then.
  { intros st Hst. apply asked_once_emit; [|done]. cbn [is_alias_request].
    apply bool_decide_eq_false_2, species_url_not_alias. }
  intros n2. apply keeps_once_and_then; [apply keeps_once_lift|].
  intros both. unfold assemble_record. apply keeps_once_and_then.
  - destruct (truthy _); [apply keeps_once_ret|].
    intros st Hst. by apply asked_once_emit.
  - intros _. apply keeps_once_and_then; [apply keeps_once_lift|].
    intros d. apply keeps_once_ret.
Qed.

Lemma asked_once_process_rows rows st :
  asked_once st -> asked_once (snd (process_rows rows st)).
Proof.
  revert st. induction rows as [|row rows IH]; intros st Hst; [done|].
  rewrite process_rows_cons. cbn [snd]. apply IH.
  unfold process_row.
  destruct (missing (row !! 0%nat) || missing (row !! 1%nat)).
  - by apply asked_once_emit.
  - pose proof (keeps_once_fetch_row (default [] (row !! 0%nat))
                  (default [] (row !! 1%nat))
                  (trim (default [] (row !! 1%nat))) st Hst) as H.
    destruct (fetch_row _ _ _ st) as [[record|error] st']; cbn [snd] in *;
      [done|]. by apply asked_once_emit.
Qed.

(** C8: whatever the calls of the resolver and however they are
    interleaved with the responses coming in and the requests of the rows,
    the reference dataset is asked for once at most: every call returns the
    same promise, the first one made, be it still pending, and once a call
    was made exactly one request for the dataset has been sent.  So it is
    in the run of [main], whatever the rows. *)
Theorem alias_dataset_fetched_once :
  (forall actions,
      let '(returned, st) := interleave actions initial in
      (alias_requests st <= 1)%nat
      /\ (length (promises st) <= 1)%nat
      /\ Forall (fun p => p = 0%nat) returned
      /\ (returned <> [] -> alias_requests st = 1%nat))
  /\ (forall rows,
        (alias_requests (snd (process_rows rows initial)) <= 1)%nat).
Proof.
  split.
  - intros actions.
    assert (at_most_one initial) as Hinit by (by left).
    destruct (interleave_at_most_one actions initial Hinit)
      as (Hst & Hall & Hcalled).
    destruct (interleave actions initial) as [returned st]. cbn [fst snd] in *.
    split; [|split; [|split]].
    + destruct Hst as [(_ & _ & ->)|(_ & _ & ->)]; lia.
    + destruct Hst as [(_ & -> & _)|(_ & -> & _)]; simpl; lia.
    + done.
    + intros Hne. specialize (Hcalled Hne).
      destruct Hst as [(Hnone & _)|(_ & _ & ->)]; [congruence|done].
  - intros rows.
    assert (asked_once initial) as Hinit by (by left).
    destruct (asked_once_process_rows rows initial Hinit) as [[_ ->]|[_ ->]]; lia.
Qed.

End Once.

(** ** The fields of a line *)

Lemma split_lines_single s : no_line_break s = true -> split_lines s = [s].
Proof.
  induction s as [|c r IH]; [done|]. simpl.
  intros [Hc Hr]%andb_prop. apply negb_true_iff in Hc. rewrite Hc.
  rewrite (IH Hr). destruct (c =? CR); [|done].
  destruct r as [|d r']; [done|]. simpl in Hr.
  apply andb_prop in Hr as [Hd _]. apply negb_true_iff in Hd. by rewrite Hd.
Qed.

Lemma split_on_not_nil sep s : split_on sep s <> [].
Proof.
  destruct s as [|c r]; [done|]. simpl. destruct (c =? sep); [done|].
  by destruct (split_on sep r).
Qed.

Lemma split_on_single sep s p : split_on sep s = [p] -> s = p.
Proof.
  revert p. induction s as [|c r IH]; intros p; simpl.
  - by intros [= <-].
  - destruct (c =? sep).
    + intros [= _ H]. by apply split_on_not_nil in H.
    + destruct (split_on sep r) as [|q qs] eqn:Hsplit; simpl.
      * by apply split_on_not_nil in Hsplit.
      * intros [= <- ->]. by rewrite (IH q).
Qed.

Lemma trimEnd_cons_letter c r :
  is_whitespace c = false -> trimEnd (c :: r) = c :: trimEnd r.
Proof. intros Hc. simpl. rewrite Hc. by destruct (trimEnd r). Qed.

Lemma trimEnd_cons_space c r :
  is_whitespace c = true ->
  trimEnd (c :: r) = match trimEnd r with [] => [] | t => c :: t end.
Proof. intros Hc. simpl. by rewrite Hc. Qed.

Lemma trimEnd_nil_inv c r :
  trimEnd (c :: r) = [] -> is_whitespace c = true /\ trimEnd r = [].
Proof.
  simpl. destruct (trimEnd r); [|done]. by destruct (is_whitespace c).
Qed.

Lemma split_on_blank sep r :
  is_whitespace sep = false -> trimEnd r = [] -> split_on sep r = [r].
Proof.
  intros Hsep. induction r as [|c r IH]; [done|].
  intros [Hc Hr]%trimEnd_nil_inv. simpl.
  destruct (c =? sep) eqn:Heq.
  - apply N.eqb_eq in Heq as ->. congruence.
  - by rewrite (IH Hr).
Qed.

Lemma split_on_trimStart sep s :
  is_whitespace sep = false ->
  split_on sep (trimStart s) = map_first trimStart (split_on sep s).
Proof.
  intros Hsep. induction s as [|c r IH]; [done|].
  unfold trimStart in *. simpl. destruct (is_whitespace c) eqn:Hc.
  - destruct (c =? sep) eqn:Heq.
    { apply N.eqb_eq in Heq as ->. congruence. }
    rewrite IH. destruct (split_on sep r) as [|p ps] eqn:Hsplit.
    + by apply split_on_not_nil in Hsplit.
    + simpl. by rewrite Hc.
  - simpl. destruct (c =? sep); [done|].
    destruct (split_on sep r) as [|p ps]; simpl; by rewrite Hc.
Qed.

Lemma map_last_cons f p ps :
  ps <> [] -> map_last f (p :: ps) = p :: map_last f ps.
Proof. by destruct ps. Qed.

Lemma split_on_cons_other sep c s :
  (c =? sep) = false -> split_on sep (c :: s) = cons_first c (split_on sep s).
Proof. intros H. simpl. by rewrite H. Qed.

Lemma split_on_cons_sep sep c s :
  (c =? sep) = true -> split_on sep (c :: s) = [] :: split_on sep s.
Proof. intros H. simpl. by rewrite H. Qed.

Lemma split_on_trimEnd sep s :
  is_whitespace sep = false ->
  split_on sep (trimEnd s) = map_last trimEnd (split_on sep s).
Proof.
  intros Hsep. induction s as [|c r IH]; [done|].
  destruct (is_whitespace c) eqn:Hc.
  - assert ((c =? sep) = false) as Heq.
    { apply N.eqb_neq. intros ->. congruence. }
    rewrite (trimEnd_cons_space _ _ Hc), (split_on_cons_other _ _ r Heq).
    destruct (trimEnd r) as [|e t] eqn:Hr.
    + rewrite (split_on_blank sep r Hsep Hr). cbn [cons_first map_last].
      by rewrite (trimEnd_cons_space _ _ Hc), Hr.
    + rewrite (split_on_cons_other _ _ (e :: t) Heq), IH.
      destruct (split_on sep r) as [|p ps] eqn:Hsplit.
      { by apply split_on_not_nil in Hsplit. }
      destruct ps as [|q qs].
      * apply split_on_single in Hsplit as <-. cbn [map_last cons_first].
        by rewrite (trimEnd_cons_space _ _ Hc), Hr.
      * done.
  - rewrite (trimEnd_cons_letter _ _ Hc).
    destruct (c =? sep) eqn:Heq.
    + rewrite !(split_on_cons_sep _ _ _ Heq), IH.
      rewrite map_last_cons; [done|apply split_on_not_nil].
    + rewrite !(split_on_cons_other _ _ _ Heq), IH.
      destruct (split_on sep r) as [|p ps] eqn:Hsplit.
      { by apply split_on_not_nil in Hsplit. }
      destruct ps as [|q qs]; cbn [map_last cons_first]; [|done].
      by rewrite (trimEnd_cons_letter _ _ Hc).
Qed.

Lemma trimStart_idempotent s : trimStart (trimStart s) = trimStart s.
Proof.
  unfold trimStart. induction s as [|c r IH]; [done|]. simpl.
  destruct (is_whitespace c) eqn:Hc; [done|]. simpl. by rewrite Hc.
Qed.

Lemma trimEnd_idempotent s : trimEnd (trimEnd s) = trimEnd s.
Proof.
  induction s as [|c r IH]; [done|].
  destruct (is_whitespace c) eqn:Hc.
  - rewrite (trimEnd_cons_space _ _ Hc).
    destruct (trimEnd r) as [|e t] eqn:Hr; [done|].
    by rewrite (trimEnd_cons_space _ _ Hc), IH.
  - by rewrite !(trimEnd_cons_letter _ _ Hc), IH.
Qed.

Lemma trimStart_trimEnd s : trimStart (trimEnd s) = trimEnd (trimStart s).
Proof.
  induction s as [|c r IH]; [done|].
  destruct (is_whitespace c) eqn:Hc.
  - rewrite (trimEnd_cons_space _ _ Hc).
    assert (trimStart (c :: r) = trimStart r) as ->
      by (unfold trimStart; simpl; by rewrite Hc).
    rewrite <- IH. destruct (trimEnd r) as [|e t]; [done|].
    unfold trimStart. simpl. by rewrite Hc.
  - rewrite (trimEnd_cons_letter _ _ Hc).
    assert (forall t, trimStart (c :: t) = c :: t) as Hkeep
      by (intros t; unfold trimStart; simpl; by rewrite Hc).
    by rewrite !Hkeep, (trimEnd_cons_letter _ _ Hc).
Qed.

Lemma trim_trimStart s : trim (trimStart s) = trim s.
Proof. unfold trim. by rewrite trimStart_idempotent. Qed.

Lemma trim_trimEnd s : trim (trimEnd s) = trim s.
Proof. unfold trim. by rewrite trimStart_trimEnd, trimEnd_idempotent. Qed.

Lemma map_trim_first l : List.map trim (map_first trimStart l) = List.map trim l.
Proof. destruct l as [|p ps]; [done|]. simpl. by rewrite trim_trimStart. Qed.

Lemma map_trim_last l : List.map trim (map_last trimEnd l) = List.map trim l.
Proof.
  induction l as [|p ps IH]; [done|]. destruct ps as [|q qs].
  - simpl. by rewrite trim_trimEnd.
  - rewrite map_last_cons by done. cbn [List.map] in *. by rewrite IH.
Qed.

(** The fields of a trimmed line are those of the line, once trimmed. *)
Lemma fields_of_trimmed_line line :
  List.map trim (split_on COMMA (trim line))
  = List.map trim (split_on COMMA line).
Proof.
  unfold trim. rewrite split_on_trimEnd by done. rewrite map_trim_last.
  rewrite split_on_trimStart by done. apply map_trim_first.
Qed.

(** A line alone: the parser gives its fields, all of them, trimmed. *)
Lemma parseCsv_line line :
  no_line_break line = true -> kept (trim line) = true ->
  parseCsv line = [List.map trim (split_on COMMA line)].
Proof.
  intros Hline Hkept. unfold parseCsv. rewrite split_lines_single by done.
  cbn [List.map List.filter]. fold (kept (trim line)). rewrite Hkept.
  cbn [List.map]. by rewrite fields_of_trimmed_line.
Qed.

Section ExtraFields.

Context `{host : Host}.

(** C10, as the code has it: the parser gives all the fields of a line,
    trimmed; when the first two are not empty the loop uses these two only,
    and the others change nothing, neither the record nor what is sent or
    printed; when one of the first two is empty the row is skipped with the
    warning for incomplete rows, which prints the row as it was parsed, the
    other fields with it. *)
Theorem extra_fields_are_ignored :
  (forall line,
      no_line_break line = true -> kept (trim line) = true ->
      parseCsv line = [List.map trim (split_on COMMA line)])
  /\ (forall person pokemon others acc,
        usable [person; pokemon] = true ->
        process_row acc (person :: pokemon :: others)
        = process_row acc [person; pokemon])
  /\ (forall person pokemon others datasets st,
        usable [person; pokemon] = false ->
        process_row (datasets, st) (person :: pokemon :: others)
        = (datasets, emit (WarnIncompleteRow (person :: pokemon :: others)) st)).
Proof.
  split; [exact parseCsv_line|]. split.
  - intros person pokemon others [datasets st] Husable.
    unfold usable in Husable. apply negb_true_iff in Husable.
    unfold process_row. cbn [lookup list_lookup] in *. by rewrite Husable.
  - intros person pokemon others datasets st Husable.
    unfold usable in Husable. apply negb_false_iff in Husable.
    unfold process_row. cbn [lookup list_lookup] in *. by rewrite Husable.
Qed.

End ExtraFields.

(** C10 as stated fails on a line with more than two fields of which the
    first is empty: the loop does print a warning, and the third field is
    in it. *)
Lemma extra_field_in_warning :
  parseCsv (js ",Onix,extra") = [[ []; js "Onix"; js "extra" ]]
  /\ trace (snd (process_row (host := example_host) ([], initial)
                   [ []; js "Onix"; js "extra" ]))
     = [WarnIncompleteRow [ []; js "Onix"; js "extra" ]]
  /\ trace (snd (process_row (host := example_host) ([], initial)
                   [ []; js "Onix" ]))
     = [WarnIncompleteRow [ []; js "Onix" ]].
Proof. repeat split; vm_compute; reflexivity. Qed.

(** On the example, a third field changes nothing for a row that has its
    first two. *)
Example third_field_ignored :
  parseCsv (js "Ash, pikachu ,red") = [[js "Ash"; js "pikachu"; js "red"]]
  /\ process_row (host := example_host) ([], initial)
       [js "Ash"; js "pikachu"; js "red"]
     = process_row (host := example_host) ([], initial) [js "Ash"; js "pikachu"].
Proof. split; vm_compute; reflexivity. Qed.

(** The resolver on the example: by French name, by id, by a spelling that
    normalises to a known key; an unknown name gives its slug, and a name
    without letters or digits is returned as it is. *)
Example resolver_on_example :
  List.map
    (fun rawName =>
       fst (resolvePokemonIdentifier (host := example_host) rawName initial))
    [js "Staross"; js "25"; js " MR  MIME!"; js "Onix the 2nd"; js "???"]
  = [Ok (js "121"); Ok (js "25"); Ok (js "122"); Ok (js "onix-the-2nd");
     Ok (js "???")].
Proof. vm_compute. reflexivity. Qed.

(** Three calls on the example, two of them before the response: one
    promise, one request. *)
Example three_calls_one_request :
  let '(returned, st) :=
    interleave (host := example_host)
      [CallResolver; FetchPokemon (js "25"); CallResolver;
       Settle 0 (Ok example_pokedex); CallResolver]
      initial in
  returned = [0; 0; 0]%nat
  /\ List.filter is_request (trace st)
     = [Request ALIAS_DATA_URL; Request (POKEMON_URL ++ js "25")].
Proof. vm_compute. split; reflexivity. Qed.

(** * Further properties *)

(** ** parseCsv, line by line *)

Lemma split_lines_not_nil s : split_lines s <> [].
Proof.
  destruct s as [|c r]; [done|]. simpl.
  destruct (c =? LF); [done|].
  assert (cons_first c (split_lines r) <> []) as Hcons
    by (by destruct (split_lines r)).
  destruct (c =? CR); [|done].
  destruct r as [|d r']; [done|]. by destruct (d =? LF).
Qed.

Lemma cons_first_app c (l m : list jsstring) :
  l <> [] -> cons_first c (l ++ m) = cons_first c l ++ m.
Proof. by destruct l. Qed.

Lemma cons_first_map_last f c (l : list jsstring) :
  l <> [] -> (forall p, l = [p] -> f (c :: p) = c :: f p) ->
  cons_first c (map_last f l) = map_last f (cons_first c l).
Proof.
  destruct l as [|p ps]; [done|]. intros _ Hone.
  destruct ps as [|q qs]; simpl; [|done]. by rewrite Hone.
Qed.

Lemma map_last_not_nil f (l : list jsstring) : l <> [] -> map_last f l <> [].
Proof. destruct l as [|p [|q qs]]; done. Qed.

(** One step of [split_lines], by cases on how the text starts. *)
Lemma split_lines_cons c r :
  split_lines (c :: r)
  = if c =? LF then [] :: split_lines r
    else if (c =? CR) && startsWith1 LF r then [] :: split_lines (tl r)
    else cons_first c (split_lines r).
Proof.
  simpl. destruct (c =? LF); [done|]. destruct (c =? CR); [|done].
  destruct r as [|d r']; [done|]. simpl. by destruct (d =? LF).
Qed.

(** A carriage return and a line feed between two texts separate their
    lines. *)
Lemma split_lines_crlf a b :
  split_lines (a ++ CR :: LF :: b) = split_lines a ++ split_lines b.
Proof.
  remember (length a) as n eqn:Hn. revert a Hn.
  induction n as [n IH] using lt_wf_ind. intros a Hn.
  destruct a as [|c r].
  - reflexivity.
  - change ((c :: r) ++ CR :: LF :: b) with (c :: (r ++ CR :: LF :: b)).
    assert (split_lines (r ++ CR :: LF :: b) = split_lines r ++ split_lines b)
      as Hr by (apply (IH (length r)); [simpl in Hn; lia|done]).
    pose proof (split_lines_not_nil r) as Hne.
    destruct (c =? LF) eqn:Hlf.
    { by rewrite !split_lines_cons, Hlf, Hr. }
    destruct (c =? CR) eqn:Hc.
    + apply N.eqb_eq in Hc as ->. destruct r as [|d r'].
      * reflexivity.
      * destruct (d =? LF) eqn:Hd.
        -- apply N.eqb_eq in Hd as ->.
           change (split_lines (CR :: (LF :: r') ++ CR :: LF :: b))
             with ([] :: split_lines (r' ++ CR :: LF :: b)).
           change (split_lines (CR :: LF :: r')) with ([] :: split_lines r').
           rewrite (IH (length r')); [done|simpl in Hn; lia|done].
        -- assert (forall t, split_lines (CR :: d :: t)
                             = cons_first CR (split_lines (d :: t))) as Hstep.
           { intros t. rewrite split_lines_cons. simpl. by rewrite Hd. }
           change (CR :: (d :: r') ++ CR :: LF :: b)
             with (CR :: d :: (r' ++ CR :: LF :: b)).
           rewrite !Hstep.
           change (d :: r' ++ CR :: LF :: b) with ((d :: r') ++ CR :: LF :: b).
           rewrite Hr. by apply cons_first_app.
    + assert (forall t, split_lines (c :: t) = cons_first c (split_lines t))
        as Hstep.
      { intros t. rewrite split_lines_cons, Hlf, Hc. done. }
      rewrite !Hstep, Hr. by apply cons_first_app.
Qed.

Lemma split_lines_one_line d r p :
  (d =? LF) = false -> split_lines (d :: r) = [p] -> p <> [].
Proof.
  intros Hd. rewrite split_lines_cons, Hd.
  destruct ((d =? CR) && startsWith1 LF r).
  - intros [= _ H]. by apply split_lines_not_nil in H.
  - destruct (split_lines r) as [|q qs]; by intros [= <-].
Qed.

(** A line feed alone does the same, but for the carriage return that may
    end the first text: it goes with the line feed. *)
Lemma split_lines_lf a b :
  split_lines (a ++ LF :: b)
  = map_last drop_last_cr (split_lines a) ++ split_lines b.
Proof.
  remember (length a) as n eqn:Hn. revert a Hn.
  induction n as [n IH] using lt_wf_ind. intros a Hn.
  destruct a as [|c r].
  - reflexivity.
  - change ((c :: r) ++ LF :: b) with (c :: (r ++ LF :: b)).
    assert (split_lines (r ++ LF :: b)
            = map_last drop_last_cr (split_lines r) ++ split_lines b)
      as Hr by (apply (IH (length r)); [simpl in Hn; lia|done]).
    pose proof (split_lines_not_nil r) as Hne.
    destruct (c =? LF) eqn:Hlf.
    { rewrite !split_lines_cons, Hlf, Hr.
      by rewrite (map_last_cons _ _ _ Hne). }
    destruct (c =? CR) eqn:Hc.
    + apply N.eqb_eq in Hc as ->. destruct r as [|d r'].
      * reflexivity.
      * destruct (d =? LF) eqn:Hd.
        -- apply N.eqb_eq in Hd as ->.
           change (split_lines (CR :: (LF :: r') ++ LF :: b))
             with ([] :: split_lines (r' ++ LF :: b)).
           change (split_lines (CR :: LF :: r')) with ([] :: split_lines r').
           rewrite (IH (length r')); [|simpl in Hn; lia|done].
           by rewrite (map_last_cons _ _ _ (split_lines_not_nil r')).
        -- assert (forall t, split_lines (CR :: d :: t)
                             = cons_first CR (split_lines (d :: t))) as Hstep.
           { intros t. rewrite split_lines_cons. simpl. by rewrite Hd. }
           change (CR :: (d :: r') ++ LF :: b) with (CR :: d :: (r' ++ LF :: b)).
           rewrite !Hstep.
           change (d :: r' ++ LF :: b) with ((d :: r') ++ LF :: b).
           rewrite Hr.
           rewrite cons_first_app by (by apply map_last_not_nil).
           f_equal. apply cons_first_map_last; [done|].
           intros p Hp. apply split_lines_one_line in Hp; [|done].
           by destruct p.
    + assert (forall t, split_lines (c :: t) = cons_first c (split_lines t))
        as Hstep.
      { intros t. rewrite split_lines_cons, Hlf, Hc. done. }
      rewrite !Hstep, Hr.
      rewrite cons_first_app by (by apply map_last_not_nil).
      f_equal. apply cons_first_map_last; [done|].
      intros p _. destruct p as [|e p']; simpl; by rewrite ?Hc.
Qed.

Lemma trimEnd_drop_last_cr l : trimEnd (drop_last_cr l) = trimEnd l.
Proof.
  induction l as [|c r IH]; [done|]. destruct r as [|d r'].
  - simpl. destruct (c =? CR) eqn:Hc; [|done].
    apply N.eqb_eq in Hc as ->. reflexivity.
  - change (drop_last_cr (c :: d :: r')) with (c :: drop_last_cr (d :: r')).
    change (trimEnd (c :: drop_last_cr (d :: r')))
      with (match trimEnd (drop_last_cr (d :: r')) with
            | [] => if is_whitespace c then [] else [c]
            | t => c :: t
            end).
    by rewrite IH.
Qed.

Lemma trim_drop_last_cr l : trim (drop_last_cr l) = trim l.
Proof.
  unfold trim. by rewrite <- !trimStart_trimEnd, trimEnd_drop_last_cr.
Qed.

Lemma map_trim_drop_last_cr (lines : list jsstring) :
  List.map trim (map_last drop_last_cr lines) = List.map trim lines.
Proof.
  induction lines as [|l ls IH]; [done|]. destruct ls as [|m ms].
  - simpl. by rewrite trim_drop_last_cr.
  - rewrite map_last_cons by done. cbn [List.map] in *. by rewrite IH.
Qed.

(** The rows of the lines already split. *)
Lemma parseCsv_of_lines content :
  parseCsv content
  = List.map (fun line => List.map trim (split_on COMMA line))
      (List.filter kept (List.map trim (split_lines content))).
Proof. reflexivity. Qed.

Lemma parseCsv_lf a b : parseCsv (a ++ LF :: b) = parseCsv a ++ parseCsv b.
Proof.
  rewrite !parseCsv_of_lines, split_lines_lf.
  by rewrite List.map_app, map_trim_drop_last_cr, List.filter_app, List.map_app.
Qed.

Lemma parseCsv_crlf a b : parseCsv (a ++ CR :: LF :: b) = parseCsv a ++ parseCsv b.
Proof.
  rewrite !parseCsv_of_lines, split_lines_crlf.
  by rewrite List.map_app, List.filter_app, List.map_app.
Qed.

Lemma parseCsv_dropped_line line :
  no_line_break line = true -> kept (trim line) = false -> parseCsv line = [].
Proof.
  intros Hline Hkept. rewrite parseCsv_of_lines, split_lines_single by done.
  cbn [List.map List.filter]. by rewrite Hkept.
Qed.

(** X1: the parser works line by line: the rows of two texts joined by a
    line break, a line feed with or without a carriage return before it, are
    the rows of the first and then the rows of the second; and a line that
    is blank or starts, after white space, with [#] gives no row, wherever it
    stands. *)
Theorem parseCsv_line_by_line :
  (forall a b, parseCsv (a ++ LF :: b) = parseCsv a ++ parseCsv b)
  /\ (forall a b, parseCsv (a ++ CR :: LF :: b) = parseCsv a ++ parseCsv b)
  /\ (forall a line b,
        no_line_break line = true -> kept (trim line) = false ->
        parseCsv (a ++ LF :: line ++ LF :: b) = parseCsv a ++ parseCsv b).
Proof.
  split; [exact parseCsv_lf|]. split; [exact parseCsv_crlf|].
  intros a line b Hline Hkept.
  by rewrite parseCsv_lf, parseCsv_lf, (parseCsv_dropped_line line).
Qed.

(** ** The fields of a row *)

Lemma split_on_pieces sep s : Forall (fun p => ~ In sep p) (split_on sep s).
Proof.
  induction s as [|c r IH]; simpl.
  - constructor; [by intros []|constructor].
  - destruct (c =? sep) eqn:Hc.
    + constructor; [by intros []|done].
    + destruct IH as [|p ps Hp Hps]; simpl.
      * constructor; [|constructor]. intros [->|[]].
        by rewrite N.eqb_refl in Hc.
      * constructor; [|done]. intros [->|Hin]; [|done].
        by rewrite N.eqb_refl in Hc.
Qed.

Lemma split_lines_pieces s : Forall (fun l => ~ In LF l) (split_lines s).
Proof.
  remember (length s) as n eqn:Hn. revert s Hn.
  induction n as [n IH] using lt_wf_ind. intros s Hn.
  destruct s as [|c r].
  - constructor; [by intros []|constructor].
  - assert (Forall (fun l => ~ In LF l) (split_lines r)) as Hr
      by (apply (IH (length r)); [simpl in Hn; lia|done]).
    rewrite split_lines_cons. destruct (c =? LF) eqn:Hc.
    { constructor; [by intros []|done]. }
    destruct ((c =? CR) && startsWith1 LF r).
    + constructor; [by intros []|].
      destruct r as [|d r']; [done|].
      apply (IH (length r')); [simpl in Hn; lia|done].
    + destruct Hr as [|p ps Hp Hps]; simpl.
      * constructor; [|constructor]. intros [->|[]].
        by rewrite N.eqb_refl in Hc.
      * constructor; [|done]. intros [->|Hin]; [|done].
        by rewrite N.eqb_refl in Hc.
Qed.

Lemma In_trimStart x s : In x (trimStart s) -> In x s.
Proof.
  unfold trimStart. induction s as [|c r IH]; [done|]. simpl.
  destruct (is_whitespace c); [|done]. intros H. right. by apply IH.
Qed.

Lemma In_trimEnd x s : In x (trimEnd s) -> In x s.
Proof.
  induction s as [|c r IH]; [done|]. simpl.
  destruct (trimEnd r) as [|e t].
  - destruct (is_whitespace c); [done|]. intros [->|[]]. by left.
  - intros [->|Hin]; [by left|]. right. by apply IH.
Qed.

Lemma In_trim x s : In x (trim s) -> In x s.
Proof. intros H. by apply In_trimStart, In_trimEnd. Qed.

Lemma trim_idempotent s : trim (trim s) = trim s.
Proof. unfold trim at 2. by rewrite trim_trimEnd, trim_trimStart. Qed.

Lemma length_split_on sep s : length (split_on sep s) = S (count_unit sep s).
Proof.
  unfold count_unit. induction s as [|c r IH]; [done|]. simpl.
  rewrite (N.eqb_sym sep c). destruct (c =? sep); simpl; [by rewrite IH|].
  rewrite <- IH. by destruct (split_on sep r).
Qed.

(** X2: whatever the text, a row of the parser has at least one field and
    is not one empty field alone, and its fields are trimmed and hold no
    comma and no line feed. *)
Theorem parseCsv_rows_are_clean content row :
  In row (parseCsv content) ->
  row <> [] /\ row <> [[]]
  /\ Forall (fun field => trim field = field
                          /\ ~ In COMMA field /\ ~ In LF field) row.
Proof.
  rewrite parseCsv_of_lines. intros Hrow.
  apply in_map_iff in Hrow as (line & <- & Hline).
  apply filter_In in Hline as [Hline Hkept].
  apply in_map_iff in Hline as (raw & <- & Hraw).
  pose proof (split_on_not_nil COMMA (trim raw)) as Hne.
  split; [|split].
  - by destruct (split_on COMMA (trim raw)).
  - destruct (split_on COMMA (trim raw)) as [|p ps] eqn:Hsplit; [done|].
    destruct ps as [|q qs]; [|done].
    apply split_on_single in Hsplit as <-. cbn [List.map].
    rewrite trim_idempotent. intros [= Hempty].
    unfold kept in Hkept. by rewrite Hempty in Hkept.
  - apply Forall_forall. intros field Hfield.
    apply list_elem_of_In, in_map_iff in Hfield as (piece & <- & Hpiece).
    split; [apply trim_idempotent|]. split.
    + intros Hin%In_trim.
      pose proof (split_on_pieces COMMA (trim raw)) as Hpieces.
      rewrite Forall_forall in Hpieces.
      by apply (Hpieces piece); [apply list_elem_of_In|].
    + intros Hin%In_trim.
      assert (In LF (trim raw)) as Hlf.
      { clear -Hpiece Hin. revert piece Hpiece Hin.
        induction (trim raw) as [|c r IH]; intros piece Hpiece Hin; simpl in *.
        - by destruct Hpiece as [<-|[]].
        - destruct (c =? COMMA).
          + destruct Hpiece as [<-|Hpiece]; [done|]. right. by eapply IH.
          + destruct (split_on COMMA r) as [|p ps]; simpl in Hpiece.
            * destruct Hpiece as [<-|[]]. destruct Hin as [->|[]]. by left.
            * destruct Hpiece as [<-|Hpiece].
              -- destruct Hin as [->|Hin]; [by left|]. right.
                 apply (IH p); [by left|done].
              -- right. apply (IH piece); [by right|done]. }
      apply In_trim in Hlf.
      pose proof (split_lines_pieces content) as Hlines.
      rewrite Forall_forall in Hlines.
      by apply (Hlines raw); [apply list_elem_of_In|].
Qed.

Lemma parseCsv_rows_are_clean_witness :
  [js "Ash"; js "pikachu"; js "red"] <> []
  /\ [js "Ash"; js "pikachu"; js "red"] <> [[]]
  /\ Forall (fun field => trim field = field
                          /\ ~ In COMMA field /\ ~ In LF field)
       [js "Ash"; js "pikachu"; js "red"].
Proof.
  apply (parseCsv_rows_are_clean example_csv).
  vm_compute. right. left. reflexivity.
Defined.

(** X3: there is no quoting: every comma of a line that is kept separates
    two fields, so that the row has one field more than the line has
    commas. *)
Theorem parseCsv_splits_at_every_comma line :
  no_line_break line = true -> kept (trim line) = true ->
  exists row,
    parseCsv line = [row] /\ length row = S (count_unit COMMA line).
Proof.
  intros Hline Hkept. eexists. split; [by apply parseCsv_line|].
  by rewrite length_map, length_split_on.
Qed.

Lemma parseCsv_splits_at_every_comma_witness :
  exists row,
    parseCsv (QUOTE :: js "Ketchum, Ash" ++ QUOTE :: js ",Pikachu") = [row]
    /\ length row = 3%nat.
Proof.
  apply (parseCsv_splits_at_every_comma
           (QUOTE :: js "Ketchum, Ash" ++ QUOTE :: js ",Pikachu"));
    reflexivity.
Defined.

(** ** The shape of a normalised name *)

Lemma slug_shape_units b s c :
  slug_shape b s = true -> In c s -> is_lower_alnum c = true \/ c = HYPHEN.
Proof.
  revert b. induction s as [|d r IH]; intros b Hs Hin; [done|].
  simpl in Hs. destruct (is_hyphen d) eqn:Hd.
  - apply andb_prop in Hs as [_ Hr]. destruct Hin as [<-|Hin].
    + right. by apply is_hyphen_eq.
    + by apply (IH true).
  - apply andb_prop in Hs as [Hal Hr]. destruct Hin as [<-|Hin].
    + by left.
    + by apply (IH false).
Qed.

Lemma slug_shape_no_double b l1 l2 :
  slug_shape b (l1 ++ HYPHEN :: HYPHEN :: l2) = false.
Proof.
  revert b. induction l1 as [|c l IH]; intros b; simpl.
  - by rewrite andb_false_r.
  - destruct (is_hyphen c); by rewrite IH, andb_false_r.
Qed.

Lemma remove_last_hyphen_fixed s :
  remove_last_hyphen s = s -> last s <> Some HYPHEN.
Proof.
  induction s as [|c r IH]; [done|]. destruct r as [|d r'].
  - simpl. destruct (is_hyphen c) eqn:Hc; [done|].
    intros _ [= ->]. done.
  - change (remove_last_hyphen (c :: d :: r'))
      with (c :: remove_last_hyphen (d :: r')).
    intros [= H]. by apply IH.
Qed.

Section Shape.

Context `{host : Host}.

(** X4: whatever the host does to the text, a normalised name is made of
    lower-case letters, digits and hyphens only, and no hyphen starts it,
    ends it or follows another. *)
Theorem normalizeString_is_a_slug s :
  (forall c, In c (normalizeString s) ->
             is_lower_alnum c = true \/ c = HYPHEN)
  /\ head (normalizeString s) <> Some HYPHEN
  /\ last (normalizeString s) <> Some HYPHEN
  /\ (forall l1 l2, normalizeString s <> l1 ++ HYPHEN :: HYPHEN :: l2).
Proof.
  pose proof (normalizeString_shape s) as Hshape.
  pose proof (normalizeString_strip s) as Hstrip.
  set (t := normalizeString s) in *.
  assert (head t <> Some HYPHEN) as Hhead.
  { destruct t as [|c r]; [done|]. simpl in *. intros [= ->]. done. }
  split; [|split; [done|split]].
  - intros c. by apply (slug_shape_units true).
  - apply remove_last_hyphen_fixed. rewrite <- Hstrip at 2.
    destruct t as [|c r]; [done|]. unfold strip_edge_hyphens.
    destruct (is_hyphen c) eqn:Hc; [|done].
    apply is_hyphen_eq in Hc as ->. done.
  - intros l1 l2 Heq. rewrite Heq in Hshape.
    by rewrite slug_shape_no_double in Hshape.
Qed.

End Shape.

(** ** Normalised ASCII names *)

Lemma remove_last_hyphen_app a b :
  b <> [] -> remove_last_hyphen (a ++ b) = a ++ remove_last_hyphen b.
Proof.
  intros Hb. induction a as [|c a IH]; [done|].
  change ((c :: a) ++ b) with (c :: (a ++ b)).
  destruct (a ++ b) as [|d t] eqn:Hab.
  - by destruct a, b.
  - change (remove_last_hyphen (c :: d :: t))
      with (c :: remove_last_hyphen (d :: t)).
    by rewrite IH.
Qed.

Lemma remove_last_hyphen_alnum a :
  forallb is_lower_alnum a = true -> remove_last_hyphen a = a.
Proof.
  induction a as [|c a IH]; [done|]. simpl.
  intros [Hc Ha]%andb_prop. destruct a as [|d a'].
  - by rewrite (alnum_not_hyphen _ Hc).
  - by rewrite (IH Ha).
Qed.

Lemma replace_runs_after_run_head cls rep s e t :
  replace_runs_from cls rep true s = e :: t -> cls e = false.
Proof.
  induction s as [|c r IH]; [done|]. simpl.
  destruct (cls c) eqn:Hc; [exact IH|]. by intros [= <- _].
Qed.

Lemma runs_from_not_empty cls cur s :
  Forall (fun w => w <> []) (runs_from cls cur s).
Proof.
  revert cur. induction s as [|c r IH]; intros cur; simpl.
  - destruct cur as [|d cur]; simpl; [constructor|].
    constructor; [|constructor]. intros H%(f_equal (@length N)).
    rewrite length_app in H. simpl in H. lia.
  - destruct (cls c); [|apply IH].
    destruct cur as [|d cur]; simpl; [apply IH|].
    constructor; [|apply IH]. intros H%(f_equal (@length N)).
    rewrite length_app in H. simpl in H. lia.
Qed.

Lemma join_runs_empty sep (ws : list jsstring) :
  Forall (fun w : jsstring => w <> []) ws -> join sep ws = [] -> ws = [].
Proof.
  destruct 1 as [|w ws Hw _]; [done|].
  destruct w as [|c w]; [done|]. by destruct ws.
Qed.

Lemma join_cons_sep sep (p : jsstring) ps :
  ps <> [] -> join sep (p :: ps) = p ++ sep ++ join sep ps.
Proof. by destruct ps. Qed.

Lemma forallb_negb_not_alnum cur :
  forallb (fun c => negb (not_lower_alnum c)) cur = forallb is_lower_alnum cur.
Proof.
  induction cur as [|c cur IH]; [done|]. simpl. rewrite IH.
  unfold not_lower_alnum. by rewrite negb_involutive.
Qed.

(** Replacing the runs and dropping the last hyphen leaves the runs of
    letters and digits, a hyphen between two of them. *)
Lemma remove_last_hyphen_replace_runs s :
  (forall cur,
      cur <> [] -> forallb is_lower_alnum cur = true ->
      remove_last_hyphen
        (rev cur ++ replace_runs_from not_lower_alnum [HYPHEN] false s)
      = join [HYPHEN] (runs_from not_lower_alnum cur s))
  /\ remove_last_hyphen (replace_runs_from not_lower_alnum [HYPHEN] true s)
     = join [HYPHEN] (runs_from not_lower_alnum [] s).
Proof.
  assert (forall cur : jsstring, cur <> [] -> is_empty cur = false) as Hfull
    by (by intros [|d cur]).
  induction s as [|c r [IHrun IHgap]].
  - split; [|done]. intros cur Hne Hcur.
    cbn [replace_runs_from runs_from]. rewrite app_nil_r, (Hfull _ Hne).
    cbn [join]. apply remove_last_hyphen_alnum. by rewrite forallb_rev.
  - assert (forall cur,
               forallb is_lower_alnum cur = true ->
               not_lower_alnum c = false ->
               remove_last_hyphen
                 (rev cur ++ c :: replace_runs_from not_lower_alnum [HYPHEN] false r)
               = join [HYPHEN] (runs_from not_lower_alnum (c :: cur) r))
      as Hletter.
    { intros cur Hcur Hc.
      replace (rev cur ++ c :: replace_runs_from not_lower_alnum [HYPHEN] false r)
        with (rev (c :: cur)
              ++ replace_runs_from not_lower_alnum [HYPHEN] false r)
        by (simpl; by rewrite <- app_assoc).
      apply IHrun; [done|]. simpl. rewrite Hcur, andb_true_r.
      unfold not_lower_alnum in Hc. by destruct (is_lower_alnum c). }
    split.
    + intros cur Hne Hcur. cbn [replace_runs_from runs_from].
      destruct (not_lower_alnum c) eqn:Hc; [|by apply Hletter].
      rewrite (Hfull _ Hne).
      change ([HYPHEN] ++ replace_runs_from not_lower_alnum [HYPHEN] true r)
        with (HYPHEN :: replace_runs_from not_lower_alnum [HYPHEN] true r).
      rewrite remove_last_hyphen_app by done.
      pose proof (runs_from_not_empty not_lower_alnum [] r) as Hruns.
      destruct (replace_runs_from not_lower_alnum [HYPHEN] true r)
        as [|e t] eqn:Hrest.
      * simpl in IHgap. symmetry in IHgap.
        apply join_runs_empty in IHgap; [|done]. rewrite IHgap.
        cbn. by rewrite app_nil_r.
      * assert (not_lower_alnum e = false) as He
          by (by eapply replace_runs_after_run_head).
        change (remove_last_hyphen (HYPHEN :: e :: t))
          with (HYPHEN :: remove_last_hyphen (e :: t)).
        rewrite IHgap. rewrite join_cons_sep; [done|].
        intros Hnil. rewrite Hnil in IHgap. simpl in IHgap.
        destruct t; simpl in IHgap; [|done].
        destruct (is_hyphen e) eqn:Hh; [|done].
        apply is_hyphen_eq in Hh as ->. done.
    + cbn [replace_runs_from runs_from].
      destruct (not_lower_alnum c) eqn:Hc; [exact IHgap|].
      change (is_empty []) with true. cbn iota.
      by apply (Hletter []).
Qed.

Lemma strip_edge_hyphens_replace_runs s :
  strip_edge_hyphens (replace_runs not_lower_alnum [HYPHEN] s)
  = remove_last_hyphen (replace_runs_from not_lower_alnum [HYPHEN] true s).
Proof.
  destruct s as [|c r]; [done|]. unfold replace_runs.
  cbn [replace_runs_from]. destruct (not_lower_alnum c) eqn:Hc.
  - reflexivity.
  - unfold strip_edge_hyphens.
    destruct (is_hyphen c) eqn:Hh; [|done].
    by rewrite (hyphen_not_alnum _ Hh) in Hc.
Qed.

Lemma ascii_no_combining_mark s :
  ascii_text s = true -> replace_each is_combining_mark [] s = s.
Proof.
  unfold ascii_text. induction s as [|c r IH]; [done|]. simpl.
  intros [Hc Hr]%andb_prop. rewrite (IH Hr).
  assert (is_combining_mark c = false) as ->; [|done].
  unfold is_ascii, is_combining_mark in *. apply N.ltb_lt in Hc.
  apply andb_false_iff. left. apply N.leb_gt. lia.
Qed.

Lemma ascii_text_lower s :
  ascii_text s = true -> ascii_text (List.map lower_unit s) = true.
Proof.
  unfold ascii_text. induction s as [|c r IH]; [done|]. simpl.
  intros [Hc Hr]%andb_prop. rewrite (IH Hr), andb_true_r.
  unfold is_ascii, lower_unit in *. apply N.ltb_lt in Hc. apply N.ltb_lt.
  destruct ((65 <=? c) && (c <=? 90)) eqn:Hu; [|done].
  apply andb_prop in Hu as [H1 H2]. apply N.leb_le in H1, H2. lia.
Qed.

Lemma runs_from_cur_not_nil cls cur s :
  cur <> [] -> runs_from cls cur s <> [].
Proof.
  revert cur. induction s as [|c r IH]; intros cur Hcur; simpl.
  - by destruct cur.
  - destruct (cls c); [by destruct cur|]. by apply IH.
Qed.

Lemma runs_from_nil cls s :
  runs_from cls [] s = [] -> forallb cls s = true.
Proof.
  induction s as [|c r IH]; [done|]. simpl.
  destruct (cls c); [exact IH|].
  intros H. by apply runs_from_cur_not_nil in H.
Qed.

Section AsciiNames.

Context `{host : Host}.

Hypothesis nfd_ascii : nfd_keeps_ascii.
Hypothesis lower_ascii : toLowerCase_on_ascii.

Lemma normalizeString_ascii s :
  ascii_text s = true ->
  normalizeString s = join [HYPHEN] (alnum_runs (List.map lower_unit s)).
Proof.
  intros Hs. unfold normalizeString.
  rewrite (nfd_ascii _ Hs), (ascii_no_combining_mark _ Hs), (lower_ascii _ Hs).
  set (t := List.map lower_unit s).
  pose proof (replace_runs_slug_shape false t) as Hshape.
  unfold replace_runs.
  rewrite (replace_runs_hyphen_fixes _ _ Hshape).
  fold (replace_runs not_lower_alnum [HYPHEN] t).
  rewrite strip_edge_hyphens_replace_runs.
  apply remove_last_hyphen_replace_runs.
Qed.

(** X5: on ASCII text the normalised name is made of the runs of letters
    and digits of the text, in lower case, with one hyphen between two of
    them; it is empty exactly when the text has no letter and no digit. *)
Theorem normalizeString_of_ascii s :
  ascii_text s = true ->
  normalizeString s = join [HYPHEN] (alnum_runs (List.map lower_unit s))
  /\ (normalizeString s = []
      <-> forallb not_lower_alnum (List.map lower_unit s) = true).
Proof.
  intros Hs. rewrite (normalizeString_ascii s Hs). split; [done|]. split.
  - intros Hempty. apply runs_from_nil.
    by apply (join_runs_empty [HYPHEN]); [apply runs_from_not_empty|].
  - intros Hnone. unfold alnum_runs.
    assert (forall t, forallb not_lower_alnum t = true ->
                      runs_from not_lower_alnum [] t = []) as Hruns.
    { induction t as [|c r IH]; [done|]. simpl.
      intros [-> Hr]%andb_prop. by apply IH. }
    by rewrite Hruns.
Qed.

Lemma lower_unit_fixed c :
  not_lower_alnum (lower_unit c) = true -> lower_unit c = c.
Proof.
  unfold lower_unit, not_lower_alnum, is_lower_alnum.
  destruct ((65 <=? c) && (c <=? 90)) eqn:Hu; [|done].
  apply andb_prop in Hu as [H1 H2]. apply N.leb_le in H1, H2.
  intros H. apply negb_true_iff, orb_false_iff in H as [H _].
  apply andb_false_iff in H as [H|H]; apply N.leb_gt in H; lia.
Qed.

(** X6: the resolver does not see the case of ASCII names: two names that
    are the same once in lower case have the same normalised form and are
    resolved to the same identifier, whatever the alias map. *)
Theorem resolve_ignores_case (aliasMap : AliasMap) (a b : jsstring) :
  ascii_text a = true -> ascii_text b = true ->
  List.map lower_unit a = List.map lower_unit b ->
  normalizeString a = normalizeString b
  /\ resolve_in aliasMap a = resolve_in aliasMap b.
Proof.
  intros Ha Hb Hsame.
  assert (normalizeString a = normalizeString b) as Hnorm
    by (by rewrite !normalizeString_ascii, Hsame).
  split; [done|]. rewrite !resolve_in_cases, <- Hnorm.
  destruct (aliasMap !! normalizeString a); [done|].
  destruct (is_empty (normalizeString a)) eqn:Hempty; [|done].
  assert (forall s, ascii_text s = true -> normalizeString s = [] ->
                    List.map lower_unit s = s) as Hfixed.
  { intros s Hs Hnil. rewrite (normalizeString_ascii s Hs) in Hnil.
    apply (join_runs_empty [HYPHEN]) in Hnil; [|apply runs_from_not_empty].
    apply runs_from_nil in Hnil. clear -Hnil.
    induction s as [|c r IH]; [done|]. simpl in *.
    apply andb_prop in Hnil as [Hc Hr].
    by rewrite (lower_unit_fixed _ Hc), (IH Hr). }
  assert (normalizeString a = []) as Hnil
    by (by destruct (normalizeString a)).
  f_equal. rewrite <- (Hfixed a Ha Hnil), Hsame.
  apply Hfixed; [done|]. by rewrite <- Hnorm.
Qed.

End AsciiNames.

Lemma normalizeString_of_ascii_witness :
  normalizeString (host := example_host) (js " Mr. MIME / jr ")
  = js "mr-mime-jr".
Proof.
  destruct (normalizeString_of_ascii (host := example_host)
              (ascii_host_nfd _ _) (ascii_host_lower _ _)
              (js " Mr. MIME / jr ") eq_refl) as [H _].
  exact H.
Defined.

Lemma resolve_ignores_case_witness :
  normalizeString (host := example_host) (js "PIKACHU")
  = normalizeString (host := example_host) (js "Pikachu")
  /\ resolve_in (host := example_host) ∅ (js "PIKACHU")
     = resolve_in (host := example_host) ∅ (js "Pikachu").
Proof.
  apply (resolve_ignores_case (host := example_host)
           (ascii_host_nfd _ _) (ascii_host_lower _ _)); reflexivity.
Defined.

(** ** The alias map, whatever the reference data *)

Lemma foldM_invariant {A B} (P : A -> Prop) (f : A -> B -> Result A) l a a' :
  P a ->
  (forall x b y, In b l -> P x -> f x b = Ok y -> P y) ->
  foldM f l a = Ok a' -> P a'.
Proof.
  revert a. induction l as [|b rest IH]; intros a Ha Hf; simpl.
  - by intros [= <-].
  - destruct (f a b) as [y|e] eqn:Hy; simpl; [|done].
    apply IH.
    + apply (Hf a b y); [by left|done|done].
    + intros x b' z Hin. apply Hf. by right.
Qed.

(** Converting to a string fails in one way only. *)
Lemma ToString_error : forall v e, ToString v = Throw e -> e = TypeError.
Proof.
  fix IH 1. intros v e. destruct v as [| |b|repr|s|items|fields]; simpl;
    try discriminate.
  - induction items as [|x rest IHrest]; [discriminate|].
    destruct rest as [|y rest'].
    + destruct (nullish x); [discriminate|]. apply IH.
    + destruct (nullish x).
      * simpl. destruct ((fix join_items (l : list JSVal) : Result jsstring :=
                   match l with
                   | [] => Ok []
                   | x :: rest =>
                       match rest with
                       | [] => if nullish x then Ok [] else ToString x
                       | _ :: _ =>
                           bind (if nullish x then Ok [] else ToString x)
                             (fun s => bind (join_items rest)
                                         (fun t => Ok (s ++ COMMA :: t)))
                       end
                   end) (y :: rest')) as [t|e'] eqn:Hrest; simpl.
        -- discriminate.
        -- intros [= <-]. by apply IHrest.
      * destruct (ToString x) as [s|e'] eqn:Hx; simpl.
        -- destruct ((fix join_items (l : list JSVal) : Result jsstring :=
                   match l with
                   | [] => Ok []
                   | x :: rest =>
                       match rest with
                       | [] => if nullish x then Ok [] else ToString x
                       | _ :: _ =>
                           bind (if nullish x then Ok [] else ToString x)
                             (fun s => bind (join_items rest)
                                         (fun t => Ok (s ++ COMMA :: t)))
                       end
                   end) (y :: rest')) as [t|e''] eqn:Hrest; simpl.
           ++ discriminate.
           ++ intros [= <-]. by apply IHrest.
        -- intros [= <-]. by apply (IH x).
  - destruct (lookup_field (js "toString") fields); [|discriminate].
    by intros [= <-].
Qed.

Section AliasData.

Context `{host : Host}.

Lemma normalizeName_error value e : normalizeName value = Throw e -> e = TypeError.
Proof.
  unfold normalizeName, toString_method.
  destruct (nullish value); simpl; [by intros [= <-]|].
  destruct (ToString value) as [s|e'] eqn:Hs; simpl; [done|].
  intros [= <-]. by eapply ToString_error.
Qed.

Lemma add_variant_error (id : jsstring) (m : AliasMap) (variant : JSVal)
  (e : JSError) :
  add_variant id m variant = Throw e -> e = TypeError.
Proof.
  unfold add_variant. destruct (truthy variant); [|done].
  destruct (normalizeName variant) as [key|e'] eqn:Hkey; simpl; [done|].
  intros [= <-]. by eapply normalizeName_error.
Qed.

Lemma foldM_error {A B} (f : A -> B -> Result A) l a e :
  (forall x b e', f x b = Throw e' -> e' = TypeError) ->
  foldM f l a = Throw e -> e = TypeError.
Proof.
  intros Hf. revert a. induction l as [|b rest IH]; intros a; simpl; [done|].
  destruct (f a b) as [y|e'] eqn:Hy; simpl; [apply IH|].
  intros [= <-]. by eapply Hf.
Qed.

Lemma add_entry_error (m : AliasMap) (entry : JSVal) (e : JSError) :
  add_entry m entry = Throw e -> e = TypeError.
Proof.
  unfold add_entry, getProp.
  destruct (nullish entry); cbn [bind]; [by intros [= <-]|].
  destruct (ToString _) as [id|e'] eqn:Hid; cbn [bind];
    [|intros [= <-]; by eapply ToString_error].
  unfold slugifyName.
  destruct (normalizeName _) as [slug|e'] eqn:Hslug; cbn [bind];
    [|intros [= <-]; by eapply normalizeName_error].
  apply foldM_error. intros x b e'. apply add_variant_error.
Qed.

Lemma foldM_add_entry_null (entries : list JSVal) (m : AliasMap) :
  In VNull entries -> foldM add_entry entries m = Throw TypeError.
Proof.
  revert m. induction entries as [|entry rest IH]; intros m; [done|].
  intros [->|Hin]; [done|]. simpl.
  destruct (add_entry m entry) as [m'|e] eqn:Hentry; simpl; [by apply IH|].
  by rewrite (add_entry_error _ _ _ Hentry).
Qed.

(** Reference data that is not an array, or is one with a [null] in it,
    builds no map. *)
Lemma buildPokemonAliasMap_malformed data :
  (forall entries, data = VArr entries -> In VNull entries) ->
  buildPokemonAliasMap (Ok data) = Throw TypeError.
Proof.
  intros Hbad. unfold buildPokemonAliasMap. simpl.
  destruct data; try done. by apply foldM_add_entry_null, Hbad.
Qed.

(** X7: reference data that is fetched but is not an array, or has a
    [null] among its records, wherever it stands, is treated as a failed
    fetch: the error goes to the console, no alias is kept, not even those
    of the records before the [null], and the name resolves to its slug. *)
Theorem malformed_alias_data_degrades st rawName data :
  aliasMapPromise st = None ->
  respond (request_count st) ALIAS_DATA_URL = Ok data ->
  (forall entries, data = VArr entries -> In VNull entries) ->
  resolvePokemonIdentifier rawName st
  = (Ok (slug_or_raw rawName),
     {| promises := promises st ++ [Fulfilled ∅];
        aliasMapPromise := Some (length (promises st));
        trace := trace st ++ [Request ALIAS_DATA_URL; ErrorAliasTable TypeError] |}).
Proof.
  intros Hnone Hdata Hbad.
  rewrite resolvePokemonIdentifier_first by done.
  by rewrite Hdata, (buildPokemonAliasMap_malformed data Hbad), resolve_in_empty.
Qed.

Lemma add_entry_from_data (entries : list JSVal) (m m' : AliasMap)
  (entry : JSVal) :
  In entry entries ->
  (forall key id : jsstring, m !! key = Some id -> from_data entries key id) ->
  add_entry m entry = Ok m' ->
  forall key id : jsstring, m' !! key = Some id -> from_data entries key id.
Proof.
  intros Hin Hm. unfold add_entry.
  destruct (getProp entry (js "id")) as [idv|] eqn:Hidv; cbn [bind]; [|done].
  destruct (ToString idv) as [id0|] eqn:Hid; cbn [bind]; [|done].
  destruct (slugifyName _) as [slug|]; cbn [bind]; [|done].
  apply (foldM_invariant
           (fun m : AliasMap =>
              forall key id : jsstring,
                m !! key = Some id -> from_data entries key id));
    [done|].
  intros x variant y _ Hx. unfold add_variant.
  destruct (truthy variant); [|by intros [= <-]].
  destruct (normalizeName variant) as [k|] eqn:Hk; simpl; [|done].
  intros [= <-] key id. destruct (decide (k = key)) as [->|Hne].
  - rewrite lookup_insert_eq. intros [= <-].
    apply normalizeName_inv in Hk as (text & _ & ->).
    split; [by exists text|]. by exists entry, idv.
  - rewrite lookup_insert_ne by done. apply Hx.
Qed.

Lemma buildPokemonAliasMap_from_data (entries : list JSVal) (m : AliasMap) :
  buildPokemonAliasMap (Ok (VArr entries)) = Ok m ->
  forall key id : jsstring, m !! key = Some id -> from_data entries key id.
Proof.
  unfold buildPokemonAliasMap. simpl.
  apply (foldM_invariant
           (fun m : AliasMap =>
              forall key id : jsstring,
                m !! key = Some id -> from_data entries key id)).
  - intros key id. by rewrite lookup_empty.
  - intros x entry y Hin Hx Hy. by eapply add_entry_from_data.
Qed.

Hypothesis nfd_ascii : nfd_keeps_ascii.
Hypothesis lower_ascii : toLowerCase_on_ascii.

(** X8: whatever the reference data, a map that is built holds nothing
    else than what the data gives: each key is a normalised text and is
    mapped to the id, as a string, of a record of the data; and no key is
    out of reach: resolving a key gives the id it is mapped to. *)
Theorem alias_map_comes_from_data (entries : list JSVal) (m : AliasMap)
  (key id : jsstring) :
  buildPokemonAliasMap (Ok (VArr entries)) = Ok m ->
  m !! key = Some id ->
  (exists entry idv,
      In entry entries /\ getProp entry (js "id") = Ok idv
      /\ ToString idv = Ok id)
  /\ normalizeString key = key
  /\ resolve_in m key = Ok id.
Proof.
  intros Hbuild Hkey.
  destruct (buildPokemonAliasMap_from_data entries m Hbuild key id Hkey)
    as [[text ->] Hentry].
  split; [done|].
  assert (normalizeString (normalizeString text) = normalizeString text) as Hfix
    by (by apply normalizeString_idempotent).
  split; [done|]. by rewrite resolve_in_cases, Hfix, Hkey.
Qed.

End AliasData.

Lemma malformed_alias_data_degrades_witness :
  resolvePokemonIdentifier
    (host := ascii_host no_file
               (fun _ _ => Ok (VArr [example_entry "25" "Pikachu" "Pikachu"; VNull])))
    (js "Pikachu") initial
  = (Ok (js "pikachu"),
     {| promises := [Fulfilled ∅];
        aliasMapPromise := Some 0%nat;
        trace := [Request ALIAS_DATA_URL; ErrorAliasTable TypeError] |}).
Proof.
  apply (malformed_alias_data_degrades
           (host := ascii_host no_file
                      (fun _ _ => Ok (VArr [example_entry "25" "Pikachu" "Pikachu";
                                            VNull])))
           initial (js "Pikachu")
           (VArr [example_entry "25" "Pikachu" "Pikachu"; VNull])
           eq_refl eq_refl).
  intros entries [= <-]. right. left. reflexivity.
Defined.

Lemma alias_map_comes_from_data_witness :
  resolve_in (host := example_host)
    (insert_keys (js "121") [js "121"; js "starmie"; js "staross"; js "starmie"]
       (insert_keys (js "25") [js "25"; js "pikachu"; js "pikachu"; js "pikachu"] ∅))
    (js "staross")
  = Ok (js "121").
Proof.
  destruct (alias_map_comes_from_data (host := example_host)
              (ascii_host_nfd _ _) (ascii_host_lower _ _)
              [example_entry "25" "Pikachu" "Pikachu";
               example_entry "121" "Starmie" "Staross"]
              (insert_keys (js "121")
                 [js "121"; js "starmie"; js "staross"; js "starmie"]
                 (insert_keys (js "25")
                    [js "25"; js "pikachu"; js "pikachu"; js "pikachu"] ∅))
              (js "staross") (js "121")) as (_ & _ & H).
  - vm_compute. reflexivity.
  - vm_compute. reflexivity.
  - exact H.
Defined.

(** ** More on the description *)

Lemma words_from_runs cur s : words_from cur s = runs_from is_whitespace cur s.
Proof.
  revert cur. induction s as [|c r IH]; intros cur; [done|].
  simpl. by rewrite !IH.
Qed.

Lemma words_from_word cur w s :
  forallb (fun c => negb (is_whitespace c)) w = true ->
  words_from cur (w ++ s) = words_from (rev w ++ cur) s.
Proof.
  revert cur. induction w as [|c w IH]; intros cur Hw; [done|].
  simpl in Hw. apply andb_prop in Hw as [Hc Hw]. apply negb_true_iff in Hc.
  simpl. rewrite Hc, (IH _ Hw). by rewrite <- app_assoc.
Qed.

Lemma words_join ws :
  Forall (fun w : jsstring => w <> []) ws ->
  Forall (fun w => forallb (fun c => negb (is_whitespace c)) w = true) ws ->
  words (join [SPACE] ws) = ws.
Proof.
  intros Hne. unfold words.
  induction Hne as [|w rest Hw Hne IH]; [done|].
  intros Hws. inversion_clear Hws as [|? ? Hw' Hrest].
  assert (is_empty (rev w) = false) as Hrev.
  { destruct w as [|c w]; [done|]. simpl. by destruct (rev w). }
  destruct rest as [|w' rest'].
  - cbn [join].
    assert (words_from [] (w ++ []) = [w]) as Hword.
    { rewrite words_from_word by done. cbn [words_from].
      rewrite app_nil_r, Hrev. by rewrite rev_involutive. }
    by rewrite app_nil_r in Hword.
  - rewrite join_cons by done. rewrite words_from_word by done.
    cbn [words_from]. change (is_whitespace SPACE) with true. cbn iota.
    rewrite app_nil_r, Hrev, rev_involutive. f_equal. by apply IH.
Qed.

(** X9: sanitising a text that is sanitised changes nothing; the words of
    the text are kept as they are; and the result is empty exactly when the
    text is white space only. *)
Theorem sanitizeFlavorText_idempotent rawText :
  sanitizeFlavorText (sanitizeFlavorText rawText) = sanitizeFlavorText rawText
  /\ words (sanitizeFlavorText rawText) = words rawText
  /\ (sanitizeFlavorText rawText = []
      <-> forallb is_whitespace rawText = true).
Proof.
  assert (words (sanitizeFlavorText rawText) = words rawText) as Hwords.
  { rewrite sanitizeFlavorText_words.
    apply words_join; [apply words_from_not_empty|].
    by apply words_from_no_whitespace. }
  split; [|split; [done|]].
  - rewrite (sanitizeFlavorText_words (sanitizeFlavorText rawText)), Hwords.
    by rewrite sanitizeFlavorText_words.
  - rewrite sanitizeFlavorText_words. unfold words.
    rewrite words_from_runs. split.
    + intros Hempty. apply runs_from_nil.
      by apply (join_runs_empty [SPACE]); [apply runs_from_not_empty|].
    + intros Hblank.
      assert (forall t, forallb is_whitespace t = true ->
                        runs_from is_whitespace [] t = []) as Hruns.
      { induction t as [|c r IH]; [done|]. simpl.
        intros [-> Hr]%andb_prop. by apply IH. }
      by rewrite Hruns.
Qed.

Section FlavorSearch.

Context `{host : Host}.

Lemma find_entry_cases lang entries :
  find_entry (has_language lang) entries
  = if searchable lang entries then Ok (default VUndefined (first_in lang entries))
    else Throw TypeError.
Proof.
  induction entries as [|entry rest IH]; [done|].
  rewrite first_in_cons. cbn [find_entry searchable].
  destruct (nullish entry) eqn:Hentry.
  - unfold has_language, getProp. by rewrite Hentry.
  - rewrite (has_language_total _ _ Hentry). cbn [bind negb andb].
    destruct (strict_eq_string _ lang); [done|]. exact IH.
Qed.

Lemma flavor_entries_species entries :
  flavor_entries (species_with entries) = VArr entries.
Proof. reflexivity. Qed.

(** When [extractFlavorText] returns and when it throws. *)
Lemma extractFlavorText_cases speciesData :
  extractFlavorText speciesData
  = match flavor_entries speciesData with
    | VArr entries =>
        if searchable (js "fr") entries && searchable (js "en") entries then
          match chosen_text entries with
          | VStr rawText => Ok (sanitizeFlavorText rawText)
          | _ => Throw TypeError
          end
        else Throw TypeError
    | _ => Throw TypeError
    end.
Proof.
  unfold extractFlavorText, flavor_entries. rewrite field_at_optProp.
  cbn [field_at].
  destruct (coalesce _ _) as [| | | | |entries|]; try done.
  rewrite !find_entry_cases.
  destruct (searchable (js "fr") entries); [|done].
  destruct (searchable (js "en") entries); [|done].
  cbn [bind andb].
  by rewrite !optProp_text, coalesce_first_present.
Qed.

(** X10: [extractFlavorText] returns exactly when the entries are an
    array (or are not there), both searches, the French and the English
    one, come to an end before any [null] entry, and the text selected is a
    string; otherwise it throws a TypeError.  So a record without the field
    gives the empty description; and a [null] entry fails the row even
    after a French entry with its text, when no English entry comes before
    it. *)
Theorem extractFlavorText_returns_or_throws :
  (forall speciesData,
      extractFlavorText speciesData
      = match flavor_entries speciesData with
        | VArr entries =>
            if searchable (js "fr") entries && searchable (js "en") entries then
              match chosen_text entries with
              | VStr rawText => Ok (sanitizeFlavorText rawText)
              | _ => Throw TypeError
              end
            else Throw TypeError
        | _ => Throw TypeError
        end)
  /\ (forall speciesData,
        present (field_at [js "flavor_text_entries"] speciesData) = false ->
        extractFlavorText speciesData = Ok [])
  /\ (forall before after,
        searchable (js "en") before = true ->
        first_in (js "en") before = None ->
        extractFlavorText (species_with (before ++ VNull :: after))
        = Throw TypeError).
Proof.
  split; [exact extractFlavorText_cases|]. split.
  - intros speciesData Hfield. rewrite extractFlavorText_cases.
    unfold flavor_entries, coalesce, present in *.
    apply negb_false_iff in Hfield. by rewrite Hfield.
  - intros before after Hsearch Hnone.
    rewrite extractFlavorText_cases, flavor_entries_species.
    assert (searchable (js "en") (before ++ VNull :: after) = false) as ->;
      [|by rewrite andb_false_r].
    induction before as [|entry rest IH]; [done|].
    rewrite first_in_cons in Hnone. cbn [searchable app] in *.
    destruct (nullish entry); [done|]. cbn [negb andb] in *.
    destruct (strict_eq_string _ (js "en")); [done|]. cbn [orb] in *.
    by apply IH.
Qed.

End FlavorSearch.

(** On the example: the French text is there, the English search goes on
    and meets [null]. *)
Example french_text_lost_to_null_entry :
  extractFlavorText
    (species_with [example_flavor (js "fr") (js "Souris"); VNull])
  = Throw TypeError.
Proof. reflexivity. Qed.

(** ** What a run asks for and what it writes *)



Lemma adds_weaken (Q Q' : Event -> Prop) {A} (c : Comp A) :
  (forall e, Q e -> Q' e) -> adds Q c -> adds Q' c.
Proof.
  intros HQ Hc st. destruct (Hc st) as (more & Htrace & Hmore).
  exists more. split; [done|]. by eapply Forall_impl.
Qed.









Section Requests.

Context `{host : Host}.























End Requests.


(** ** fetchJson and the server *)

Section Redirects.

Context `{server : Server}.

Lemma fetchJson_http_final fuel hop url outcome :
  settles_with (https_get hop url) outcome ->
  fetchJson_http (S fuel) hop url = Some outcome.
Proof.
  intros Hfinal. cbn [fetchJson_http].
  destruct Hfinal as [error|statusCode location chunks Hstatus
                     |statusCode location chunks Hstatus]; [done| |].
  - assert ((300 <=? statusCode) = false) as H300 by (apply N.leb_gt; lia).
    assert ((statusCode <? 200) = false) as H200 by (apply N.ltb_ge; lia).
    by rewrite H300, H200.
  - destruct Hstatus as [Hlow|[Hhigh|[Hredirect Hmissing]]].
    + assert ((300 <=? statusCode) = false) as -> by (apply N.leb_gt; lia).
      assert ((statusCode <? 200) = true) as -> by (apply N.ltb_lt; lia).
      done.
    + assert ((statusCode <? 400) = false) as -> by (apply N.ltb_ge; lia).
      assert ((300 <=? statusCode) = true) as -> by (apply N.leb_le; lia).
      by rewrite orb_true_r.
    + rewrite Hmissing.
      assert ((300 <=? statusCode) = true) as -> by (apply N.leb_le; lia).
      by rewrite andb_false_r, orb_true_r.
Qed.

Lemma fetchJson_http_redirect fuel hop url statusCode target chunks :
  https_get hop url = Response statusCode (Some target) chunks ->
  300 <= statusCode < 400 -> target <> [] ->
  fetchJson_http (S fuel) hop url = fetchJson_http fuel (S hop) target.
Proof.
  intros Hreply Hstatus Htarget. cbn [fetchJson_http]. rewrite Hreply.
  assert ((300 <=? statusCode) = true) as -> by (apply N.leb_le; lia).
  assert ((statusCode <? 400) = true) as -> by (apply N.ltb_lt; lia).
  by destruct target.
Qed.

(** X14: [fetchJson] follows the redirects, one request for each, and
    settles as the reply of the last target settles it: with the parsed
    body for a status from 200 to 299, with the error of the parser when
    the body is not JSON, with the error of the request, and with
    [Request failed with status N] for any other status, that of a
    redirect without a [location] header included.  It is pending as long
    as the last request has not been answered. *)
Theorem fetchJson_follows_redirects targets hop url outcome :
  redirected hop url targets ->
  settles_with (https_get (hop + length targets) (List.last targets url)) outcome ->
  forall fuel,
    fetchJson_http fuel hop url
    = if (fuel <=? length targets)%nat then None else Some outcome.
Proof.
  revert hop url. induction targets as [|target rest IH];
    intros hop url Hchain Hfinal fuel.
  - cbn [length List.last] in *. rewrite Nat.add_0_r in Hfinal.
    destruct fuel as [|fuel]; [done|]. by apply fetchJson_http_final.
  - destruct Hchain as ((statusCode & chunks & Hreply & Hstatus) & Htarget & Hrest).
    destruct fuel as [|fuel]; [done|].
    rewrite (fetchJson_http_redirect fuel hop url statusCode target chunks)
      by done.
    cbn [length]. change (S fuel <=? S (length rest))%nat
      with (fuel <=? length rest)%nat.
    apply IH; [done|].
    replace (S hop + length rest)%nat with (hop + length (target :: rest))%nat
      by (cbn [length]; lia).
    assert (List.last (target :: rest) url = List.last rest target) as <-; [|done].
    clear. revert target url.
    induction rest as [|t rest IH]; intros target url; [done|].
    change (List.last (target :: t :: rest) url) with (List.last (t :: rest) url).
    by rewrite (IH t url), (IH t target).
Qed.

(** X15: nothing bounds the redirects: when the requests for a set of
    URLs are all answered by redirects into the set, a call for one of
    them never settles, however many requests it sends. *)
Theorem redirect_cycle_never_settles (trap : jsstring -> Prop) url :
  redirect_trap trap -> trap url ->
  forall fuel hop, fetchJson_http fuel hop url = None.
Proof.
  intros Htrap Hurl fuel. revert url Hurl.
  induction fuel as [|fuel IH]; intros url Hurl hop; [done|].
  destruct (Htrap hop url Hurl)
    as (statusCode & target & chunks & Hreply & Hstatus & Htarget & Hnext).
  rewrite (fetchJson_http_redirect fuel hop url statusCode target chunks)
    by done.
  by apply IH.
Qed.

End Redirects.

Lemma fetchJson_follows_redirects_witness :
  fetchJson_http (server := example_server) 1 0 (js "https://pokeapi.co/a")
  = None
  /\ fetchJson_http (server := example_server) 2 0 (js "https://pokeapi.co/a")
     = Some (Ok (VArr [])).
Proof.
  assert (redirected (server := example_server) 0 (js "https://pokeapi.co/a")
            [js "https://pokeapi.co/b"]) as Hchain.
  { split; [|done]. exists 301, []. split; [reflexivity|lia]. }
  assert (settles_with (server := example_server)
            (https_get (Server := example_server) 1 (js "https://pokeapi.co/b"))
            (Ok (VArr []))) as Hfinal.
  { apply (settles_body (server := example_server) 200 None
             [[Byte.x5b]; [Byte.x5d]]). lia. }
  split.
  - apply (fetchJson_follows_redirects (server := example_server)
             [js "https://pokeapi.co/b"] 0 (js "https://pokeapi.co/a")
             (Ok (VArr [])) Hchain Hfinal 1%nat).
  - apply (fetchJson_follows_redirects (server := example_server)
             [js "https://pokeapi.co/b"] 0 (js "https://pokeapi.co/a")
             (Ok (VArr [])) Hchain Hfinal 2%nat).
Defined.

Lemma redirect_cycle_never_settles_witness :
  fetchJson_http (server := example_server) 1000 0
    (js "https://pokeapi.co/loop") = None.
Proof.
  apply (redirect_cycle_never_settles (server := example_server)
           (fun url => url = js "https://pokeapi.co/loop")); [|done].
  intros hop url ->. exists 302, (js "https://pokeapi.co/loop"), [].
  split; [reflexivity|]. split; [lia|]. by split.
Defined.

(** A redirect that names no target is a failure, with its status. *)
Example redirect_without_location :
  fetchJson_http (server := example_server) 5 0 (js "https://pokeapi.co/moved")
  = Some (Throw (Failure (js "Request failed with status 301"))).
Proof. reflexivity. Qed.

(** ** More on the title case *)

Lemma not_whitespace_between c : 33 <= c <= 159 -> is_whitespace c = false.
Proof.
  intros Hc. unfold is_whitespace.
  assert ((c <=? 13) = false) as -> by (apply N.leb_gt; lia).
  assert ((c =? 32) = false) as -> by (apply N.eqb_neq; lia).
  assert ((c =? 160) = false) as -> by (apply N.eqb_neq; lia).
  assert ((c =? 5760) = false) as -> by (apply N.eqb_neq; lia).
  assert ((8192 <=? c) = false) as -> by (apply N.leb_gt; lia).
  assert ((c =? 8232) = false) as -> by (apply N.eqb_neq; lia).
  assert ((c =? 8233) = false) as -> by (apply N.eqb_neq; lia).
  assert ((c =? 8239) = false) as -> by (apply N.eqb_neq; lia).
  assert ((c =? 8287) = false) as -> by (apply N.eqb_neq; lia).
  assert ((c =? 12288) = false) as -> by (apply N.eqb_neq; lia).
  assert ((c =? 65279) = false) as -> by (apply N.eqb_neq; lia).
  by rewrite andb_false_r.
Qed.

Lemma is_whitespace_lower c : is_whitespace (lower_unit c) = is_whitespace c.
Proof.
  unfold lower_unit. destruct ((65 <=? c) && (c <=? 90)) eqn:Hc; [|done].
  apply andb_prop in Hc as [H1 H2]. apply N.leb_le in H1, H2.
  rewrite !not_whitespace_between; [done|lia|lia].
Qed.

Lemma is_whitespace_upper c : is_whitespace (upper_unit c) = is_whitespace c.
Proof.
  unfold upper_unit. destruct ((97 <=? c) && (c <=? 122)) eqn:Hc; [|done].
  apply andb_prop in Hc as [H1 H2]. apply N.leb_le in H1, H2.
  rewrite !not_whitespace_between; [done|lia|lia].
Qed.

Lemma lower_lower c : lower_unit (lower_unit c) = lower_unit c.
Proof.
  unfold lower_unit. destruct ((65 <=? c) && (c <=? 90)) eqn:Hc;
    [|by rewrite Hc].
  apply andb_prop in Hc as [H1 H2]. apply N.leb_le in H1, H2.
  assert ((c + 32 <=? 90) = false) as -> by (apply N.leb_gt; lia).
  by rewrite andb_false_r.
Qed.

Lemma upper_upper c : upper_unit (upper_unit c) = upper_unit c.
Proof.
  unfold upper_unit. destruct ((97 <=? c) && (c <=? 122)) eqn:Hc;
    [|by rewrite Hc].
  apply andb_prop in Hc as [H1 H2]. apply N.leb_le in H1, H2.
  assert ((97 <=? c - 32) = false) as -> by (apply N.leb_gt; lia).
  done.
Qed.

Lemma upper_lower c : upper_unit (lower_unit c) = upper_unit c.
Proof.
  unfold lower_unit. destruct ((65 <=? c) && (c <=? 90)) eqn:Hc; [|done].
  apply andb_prop in Hc as [H1 H2]. apply N.leb_le in H1, H2.
  unfold upper_unit.
  assert ((97 <=? c + 32) = true) as -> by (apply N.leb_le; lia).
  assert ((c + 32 <=? 122) = true) as -> by (apply N.leb_le; lia).
  assert ((97 <=? c) = false) as -> by (apply N.leb_gt; lia).
  cbn [andb]. lia.
Qed.

Lemma lower_upper c : lower_unit (upper_unit c) = lower_unit c.
Proof.
  unfold upper_unit. destruct ((97 <=? c) && (c <=? 122)) eqn:Hc; [|done].
  apply andb_prop in Hc as [H1 H2]. apply N.leb_le in H1, H2.
  unfold lower_unit.
  assert ((65 <=? c - 32) = true) as -> by (apply N.leb_le; lia).
  assert ((c - 32 <=? 90) = true) as -> by (apply N.leb_le; lia).
  assert ((c <=? 90) = false) as -> by (apply N.leb_gt; lia).
  rewrite andb_false_r. cbn [andb]. lia.
Qed.

Lemma is_ascii_lower c : is_ascii c = true -> is_ascii (lower_unit c) = true.
Proof.
  unfold is_ascii, lower_unit. intros Hc%N.ltb_lt.
  destruct ((65 <=? c) && (c <=? 90)) eqn:Hu; apply N.ltb_lt; [|done].
  apply andb_prop in Hu as [H1 H2]. apply N.leb_le in H1, H2. lia.
Qed.

Lemma is_ascii_upper c : is_ascii c = true -> is_ascii (upper_unit c) = true.
Proof.
  unfold is_ascii, upper_unit. intros Hc%N.ltb_lt.
  destruct ((97 <=? c) && (c <=? 122)) eqn:Hu; apply N.ltb_lt; [|done].
  apply andb_prop in Hu as [H1 H2]. apply N.leb_le in H1, H2. lia.
Qed.

Lemma forallb_map_unit (P : N -> bool) (f : N -> N) s :
  (forall c, P (f c) = P c) -> forallb P (List.map f s) = forallb P s.
Proof.
  intros Hf. induction s as [|c r IH]; [done|]. simpl. by rewrite Hf, IH.
Qed.

Lemma ascii_text_map (f : N -> N) s :
  (forall c, is_ascii c = true -> is_ascii (f c) = true) ->
  ascii_text s = true -> ascii_text (List.map f s) = true.
Proof.
  intros Hf. unfold ascii_text. induction s as [|c r IH]; [done|]. simpl.
  intros [Hc Hr]%andb_prop. by rewrite (Hf c Hc), (IH Hr).
Qed.

Lemma split_runs_from_map (f : N -> N) cur b s :
  (forall c, is_whitespace (f c) = is_whitespace c) ->
  split_runs_from is_whitespace (List.map f cur) b (List.map f s)
  = List.map (List.map f) (split_runs_from is_whitespace cur b s).
Proof.
  intros Hf. revert cur b. induction s as [|c r IH]; intros cur b.
  - simpl. by rewrite List.map_rev.
  - cbn [List.map split_runs_from]. rewrite Hf.
    destruct (is_whitespace c).
    + destruct b; [apply (IH [])|].
      cbn [List.map]. by rewrite List.map_rev, (IH []).
    + apply (IH (c :: cur)).
Qed.

Lemma title_word_cons c r :
  title_word (c :: r) = upper_unit c :: List.map lower_unit r.
Proof. reflexivity. Qed.

Lemma title_word_lower w : title_word (List.map lower_unit w) = title_word w.
Proof.
  destruct w as [|c r]; [done|]. cbn [List.map]. rewrite !title_word_cons.
  rewrite upper_lower. f_equal. rewrite List.map_map.
  apply List.map_ext. intros d. apply lower_lower.
Qed.

Lemma title_word_upper w : title_word (List.map upper_unit w) = title_word w.
Proof.
  destruct w as [|c r]; [done|]. cbn [List.map]. rewrite !title_word_cons.
  rewrite upper_upper. f_equal. rewrite List.map_map.
  apply List.map_ext. intros d. apply lower_upper.
Qed.

Lemma title_word_twice w : title_word (title_word w) = title_word w.
Proof.
  destruct w as [|c r]; [done|]. rewrite !title_word_cons.
  rewrite upper_upper. f_equal. rewrite List.map_map.
  apply List.map_ext. intros d. apply lower_lower.
Qed.

Lemma title_word_no_whitespace w :
  forallb (fun c => negb (is_whitespace c)) (title_word w)
  = forallb (fun c => negb (is_whitespace c)) w.
Proof.
  destruct w as [|c r]; [done|]. rewrite title_word_cons. cbn [forallb].
  rewrite is_whitespace_upper. f_equal.
  apply forallb_map_unit. intros d. by rewrite is_whitespace_lower.
Qed.

Lemma title_word_empty w : is_empty (title_word w) = is_empty w.
Proof. by destruct w. Qed.

Lemma title_word_ascii w : ascii_text w = true -> ascii_text (title_word w) = true.
Proof.
  destruct w as [|c r]; [done|]. rewrite title_word_cons.
  unfold ascii_text. cbn [forallb].
  intros [Hc Hr]%andb_prop. rewrite (is_ascii_upper c Hc). cbn [andb].
  by apply (ascii_text_map lower_unit r is_ascii_lower).
Qed.

Lemma pieces_shape_any first pieces :
  pieces_shape false pieces = true -> pieces_shape first pieces = true.
Proof.
  destruct pieces as [|w rest]; [done|]. cbn [pieces_shape].
  destruct rest; [done|]. rewrite !orb_false_l.
  intros [Hw [Hne Hrest]%andb_prop]%andb_prop.
  by rewrite Hw, Hne, Hrest, orb_true_r.
Qed.

Lemma pieces_shape_not_nil first pieces :
  pieces_shape first pieces = true -> pieces <> [].
Proof. by destruct pieces. Qed.

Lemma is_empty_rev (s : jsstring) : is_empty (rev s) = is_empty s.
Proof. destruct s as [|c r]; [done|]. simpl. by destruct (rev r). Qed.

Lemma split_runs_from_shape s cur b :
  forallb (fun c => negb (is_whitespace c)) cur = true ->
  (b = true -> cur = []) ->
  pieces_shape (negb b && is_empty cur)
    (split_runs_from is_whitespace cur b s) = true.
Proof.
  revert cur b. induction s as [|c r IH]; intros cur b Hcur Hb.
  - cbn [split_runs_from pieces_shape]. by rewrite forallb_rev, Hcur.
  - cbn [split_runs_from]. destruct (is_whitespace c) eqn:Hc.
    + destruct b.
      * apply (IH [] true); done.
      * pose proof (IH [] true eq_refl (fun _ => eq_refl)) as Hrest.
        cbn [negb andb] in *. cbn [pieces_shape].
        rewrite forallb_rev, Hcur, is_empty_rev.
        destruct (split_runs_from is_whitespace [] true r) as [|p ps]; [done|].
        rewrite Hrest. by destruct (is_empty cur).
    + apply pieces_shape_any.
      apply (IH (c :: cur) false); [|done].
      simpl. by rewrite Hc, Hcur.
Qed.

Lemma split_runs_from_word cls cur b w s :
  forallb (fun c => negb (cls c)) w = true ->
  split_runs_from cls cur b (w ++ s)
  = split_runs_from cls (rev w ++ cur) (b && is_empty w) s.
Proof.
  revert cur b. induction w as [|c w IH]; intros cur b Hw.
  - by rewrite andb_true_r.
  - simpl in Hw. apply andb_prop in Hw as [Hc Hw]. apply negb_true_iff in Hc.
    cbn [app split_runs_from]. rewrite Hc, (IH _ _ Hw).
    cbn [andb is_empty rev]. by rewrite andb_false_r, <- app_assoc.
Qed.

Lemma split_runs_from_join pieces b :
  pieces_shape (negb b) pieces = true ->
  split_runs_from is_whitespace [] b (join [SPACE] pieces) = pieces.
Proof.
  revert b. induction pieces as [|w rest IH]; intros b; [done|].
  cbn [pieces_shape]. intros [Hw Hrest]%andb_prop.
  destruct rest as [|w' rest'].
  - cbn [join]. rewrite <- (app_nil_r w) at 1.
    rewrite split_runs_from_word by done. cbn [split_runs_from].
    by rewrite app_nil_r, rev_involutive.
  - apply andb_prop in Hrest as [Hne Hrest].
    rewrite join_cons by done. rewrite split_runs_from_word by done.
    assert (b && is_empty w = false) as ->.
    { destruct b; [|done]. cbn [negb orb andb] in *.
      by apply negb_true_iff in Hne. }
    cbn [split_runs_from]. change (is_whitespace SPACE) with true. cbn iota.
    rewrite app_nil_r, rev_involutive. f_equal.
    by apply (IH true).
Qed.

Lemma pieces_shape_title first pieces :
  pieces_shape first (List.map title_word pieces) = pieces_shape first pieces.
Proof.
  revert first. induction pieces as [|w rest IH]; intros first; [done|].
  cbn [List.map pieces_shape]. rewrite title_word_no_whitespace, title_word_empty.
  destruct rest as [|w' rest']; [done|].
  change (List.map title_word (w' :: rest'))
    with (title_word w' :: List.map title_word rest') at 1.
  cbn iota. f_equal. f_equal.
  apply (IH false).
Qed.

Lemma ascii_text_join (pieces : list jsstring) :
  Forall (fun piece => ascii_text piece = true) pieces ->
  ascii_text (join [SPACE] pieces) = true.
Proof.
  induction 1 as [|w rest Hw Hrest IH]; [done|].
  destruct rest as [|w' rest']; [done|].
  rewrite join_cons by done. unfold ascii_text in *.
  rewrite forallb_app, Hw. simpl. exact IH.
Qed.

Section TitleCase.

Context `{host : Host}.

Hypothesis lower_ascii : toLowerCase_on_ascii.
Hypothesis upper_ascii : toUpperCase_on_ascii.

Lemma capitalizeName_title_words s :
  ascii_text s = true ->
  capitalizeName s
  = join [SPACE] (List.map title_word (split_runs is_whitespace s)).
Proof. intros Hs. by apply capitalizeName_ascii. Qed.

Lemma capitalizeName_keeps_ascii s :
  ascii_text s = true -> ascii_text (capitalizeName s) = true.
Proof.
  intros Hs. rewrite capitalizeName_title_words by done.
  apply ascii_text_join. apply Forall_forall. intros piece Hpiece.
  apply list_elem_of_In, in_map_iff in Hpiece as (w & <- & Hw).
  apply title_word_ascii.
  pose proof (split_runs_pieces is_ascii is_whitespace [] false s eq_refl Hs)
    as Hall.
  rewrite Forall_forall in Hall. by apply Hall, list_elem_of_In.
Qed.

(** X19: on ASCII names the title case does not depend on the case of the
    name, and a name in title case stays as it is: applying
    [capitalizeName] a second time changes nothing. *)
Theorem capitalizeName_normal_form s :
  ascii_text s = true ->
  capitalizeName (List.map lower_unit s) = capitalizeName s
  /\ capitalizeName (List.map upper_unit s) = capitalizeName s
  /\ capitalizeName (capitalizeName s) = capitalizeName s.
Proof.
  intros Hs.
  assert (forall f : N -> N,
             (forall c, is_whitespace (f c) = is_whitespace c) ->
             (forall c, is_ascii c = true -> is_ascii (f c) = true) ->
             (forall w, title_word (List.map f w) = title_word w) ->
             capitalizeName (List.map f s) = capitalizeName s) as Hcase.
  { intros f Hws Hascii Htitle.
    rewrite !capitalizeName_title_words by (by try apply ascii_text_map).
    unfold split_runs.
    pose proof (split_runs_from_map f [] false s Hws) as Hmap.
    change (List.map f []) with (@nil N) in Hmap.
    rewrite Hmap, List.map_map.
    f_equal. apply List.map_ext. intros w. apply Htitle. }
  split; [|split].
  - apply Hcase;
      [apply is_whitespace_lower|apply is_ascii_lower|apply title_word_lower].
  - apply Hcase;
      [apply is_whitespace_upper|apply is_ascii_upper|apply title_word_upper].
  - rewrite (capitalizeName_title_words (capitalizeName s))
      by (by apply capitalizeName_keeps_ascii).
    rewrite (capitalizeName_title_words s) by done.
    unfold split_runs at 1. rewrite split_runs_from_join.
    + rewrite List.map_map. f_equal. apply List.map_ext. intros w.
      apply title_word_twice.
    + rewrite pieces_shape_title.
      apply (split_runs_from_shape s [] false); done.
Qed.

End TitleCase.

Lemma capitalizeName_normal_form_witness :
  capitalizeName (host := ascii_host no_file no_network)
    (List.map lower_unit (js "mR  MIME"))
  = capitalizeName (host := ascii_host no_file no_network) (js "mR  MIME")
  /\ capitalizeName (host := ascii_host no_file no_network)
       (List.map upper_unit (js "mR  MIME"))
     = capitalizeName (host := ascii_host no_file no_network) (js "mR  MIME")
  /\ capitalizeName (host := ascii_host no_file no_network)
       (capitalizeName (host := ascii_host no_file no_network) (js "mR  MIME"))
     = capitalizeName (host := ascii_host no_file no_network) (js "mR  MIME").
Proof.
  apply (capitalizeName_normal_form (host := ascii_host no_file no_network)
           (ascii_host_lower _ _) (ascii_host_upper _ _)).
  reflexivity.
Defined.

(** ** The requests of a row *)

Section RowRequests.

Context `{host : Host}.


End RowRequests.


(** ** The page *)

Section PageProperties.

Context `{browser : Page.Browser}.


Lemma forEach_app members more children :
  Page.forEach (members ++ more) children
  = match Page.forEach members children with
    | (Ok _, children') => Page.forEach more children'
    | (Throw error, children') => (Throw error, children')
    end.
Proof.
  revert children. induction members as [|member rest IH]; intros children;
    [done|].
  cbn [app Page.forEach]. destruct (Page.render_card member); [apply IH|done].
Qed.

Lemma render_card_record record :
  (rec_image record = VNull \/ exists url, rec_image record = VStr url) ->
  Page.render_card (record_value record) = Ok (card_of_record record).
Proof.
  intros Himage. unfold Page.render_card, card_of_record, image_source.
  destruct record as [name pokemon image description]. cbn [rec_image] in *.
  destruct Himage as [->|[url ->]]; reflexivity.
Qed.

Lemma forEach_records records children :
  Forall (fun record =>
            rec_image record = VNull \/ exists url, rec_image record = VStr url)
    records ->
  Page.forEach (List.map record_value records) children
  = (Ok tt, children ++ List.map card_of_record records).
Proof.
  intros Hrecords. revert children.
  induction Hrecords as [|record rest Hrecord Hrest IH]; intros children.
  - by rewrite app_nil_r.
  - cbn [List.map Page.forEach]. rewrite (render_card_record record Hrecord).
    rewrite IH. by rewrite <- app_assoc.
Qed.

(** X17: the page shows the dataset the generator writes: when the
    members loaded are the records of a dataset, each with its artwork or
    with none, the container gets, after what it held, one card for each
    record, in the order of the dataset; the card has the name as title,
    the species as badge, the description, and an image whose source is
    the artwork and whose alternative text is the species, [de] and the
    name.  A record without artwork gets an image whose source is the text
    [null]. *)
Theorem page_renders_the_dataset records children :
  Page.cardsContainer = Some children ->
  fst Page.loadTeamMembers = List.map record_value records ->
  Forall (fun record =>
            rec_image record = VNull \/ exists url, rec_image record = VStr url)
    records ->
  Page.main
  = (Ok tt, Some (children ++ List.map card_of_record records),
     snd Page.loadTeamMembers)
  /\ (forall record, rec_image record = VNull ->
        card_of_record record
        = card (rec_name record) (rec_pokemon record) (js "null")
            (rec_description record)).
Proof.
  intros Hcontainer Hmembers Hrecords. split.
  - unfold Page.main. rewrite Hcontainer.
    destruct Page.loadTeamMembers as [members events]. cbn [fst snd] in *.
    subst members. by rewrite (forEach_records records children Hrecords).
  - intros record Himage. unfold card_of_record, image_source.
    by rewrite Himage.
Qed.

Lemma render_card_is_card member element :
  Page.render_card member = Ok element -> is_card element.
Proof.
  unfold Page.render_card.
  destruct (getProp member (js "image")) as [v1|]; [|done]. cbn [bind].
  destruct (Page.to_string v1) as [src|]; [|done]. cbn [bind].
  destruct (getProp member (js "pokemon")) as [v2|]; [|done]. cbn [bind].
  destruct (Page.to_string v2) as [pokemon|]; [|done]. cbn [bind].
  destruct (getProp member (js "name")) as [v3|]; [|done]. cbn [bind].
  destruct (Page.to_string v3) as [name|]; [|done]. cbn [bind].
  destruct (Page.to_text v3) as [title|]; [|done]. cbn [bind].
  destruct (Page.to_text v2) as [badge|]; [|done]. cbn [bind].
  destruct (getProp member (js "description")) as [v4|]; [|done]. cbn [bind].
  destruct (Page.to_text v4) as [description|]; [|done]. cbn [bind].
  intros [= <-]. by eexists _, _, _, _, _.
Qed.

Lemma render_card_error member error :
  Page.render_card member = Throw error -> error = TypeError.
Proof.
  assert (forall v s, Page.to_text v = Throw s -> s = TypeError) as Htext.
  { intros v s. unfold Page.to_text. destruct (nullish v); [done|].
    apply ToString_error. }
  unfold Page.render_card, getProp.
  destruct (nullish member); [by intros [= <-]|]. cbn [bind].
  destruct (Page.to_string (own_prop member (js "image"))) as [src|e] eqn:H1;
    cbn [bind]; [|intros [= <-]; by apply ToString_error in H1].
  destruct (Page.to_string (own_prop member (js "pokemon"))) as [pokemon|e]
    eqn:H2; cbn [bind]; [|intros [= <-]; by apply ToString_error in H2].
  destruct (Page.to_string (own_prop member (js "name"))) as [name|e] eqn:H3;
    cbn [bind]; [|intros [= <-]; by apply ToString_error in H3].
  destruct (Page.to_text (own_prop member (js "name"))) as [title|e] eqn:H4;
    cbn [bind]; [|intros [= <-]; by apply Htext in H4].
  destruct (Page.to_text (own_prop member (js "pokemon"))) as [badge|e] eqn:H5;
    cbn [bind]; [|intros [= <-]; by apply Htext in H5].
  destruct (Page.to_text (own_prop member (js "description")))
    as [description|e] eqn:H6; cbn [bind];
    [done|intros [= <-]; by apply Htext in H6].
Qed.

Lemma forEach_cards members children :
  exists cards,
    snd (Page.forEach members children) = children ++ cards
    /\ Forall is_card cards
    /\ match fst (Page.forEach members children) with
       | Ok _ => length cards = length members
       | Throw error =>
           error = TypeError
           /\ exists member,
               members !! length cards = Some member
               /\ Page.render_card member = Throw TypeError
       end.
Proof.
  revert children. induction members as [|member rest IH]; intros children.
  - exists []. by rewrite app_nil_r.
  - cbn [Page.forEach].
    destruct (Page.render_card member) as [element|error] eqn:Hcard.
    + destruct (IH (children ++ [element])) as (cards & Hchildren & Hcards & Hend).
      exists (element :: cards). split; [by rewrite Hchildren, <- app_assoc|].
      split; [constructor; [by eapply render_card_is_card|done]|].
      destruct (fst (Page.forEach rest (children ++ [element])));
        [by cbn [length]; rewrite Hend|done].
    + exists []. split; [by rewrite app_nil_r|]. split; [constructor|].
      pose proof (render_card_error member error Hcard) as ->.
      split; [done|]. by exists member.
Qed.

(** X18: whatever is loaded, the page keeps what the container held and
    appends whole cards only, one for each member up to the first that
    cannot be rendered, such as [null]: there [main] fails with a
    TypeError and the members that follow get no card.  When [main] ends
    well there is one card for each member; an empty dataset leaves the
    container as it was.  Without a container nothing is loaded and
    nothing is logged. *)
Theorem page_appends_whole_cards :
  match Page.cardsContainer with
  | None => Page.main = (Ok tt, None, [])
  | Some children =>
      exists cards,
        Page.main
        = (fst (fst Page.main), Some (children ++ cards), snd Page.loadTeamMembers)
        /\ Forall is_card cards
        /\ match fst (fst Page.main) with
           | Ok _ => length cards = length (fst Page.loadTeamMembers)
           | Throw error =>
               error = TypeError
               /\ exists member,
                   fst Page.loadTeamMembers !! length cards = Some member
                   /\ Page.render_card member = Throw TypeError
           end
  end.
Proof.
  unfold Page.main. destruct Page.cardsContainer as [children|]; [|done].
  destruct Page.loadTeamMembers as [members events]. cbn [fst snd].
  destruct (forEach_cards members children) as (cards & Hchildren & Hcards & Hend).
  destruct (Page.forEach members children) as [result children'].
  cbn [fst snd] in *. exists cards. by rewrite Hchildren.
Qed.

End PageProperties.

Lemma page_renders_the_dataset_witness :
  Page.main (browser := example_browser)
  = (Ok tt,
     Some [Page.Elem (js "h1") [] [];
           card (js "Ash") (js "Pikachu") (js "https://img/25.png") (js "Souris");
           card (js "Misty") (js "Staross") (js "null") []],
     [Page.Fetch (js "data.json")]).
Proof.
  apply (page_renders_the_dataset (browser := example_browser)
           example_records [Page.Elem (js "h1") [] []]); [reflexivity|reflexivity|].
  constructor; [right; by eexists|].
  constructor; [by left|constructor].
Defined.

(** Opened from a file with a [null] in the embedded dataset: the card of
    the member before it is there, the member after it gets none. *)
Example page_stops_at_null :
  Page.main (browser := example_file_browser)
  = (Throw TypeError, Some [card (js "Ash") (js "Pikachu") (js "null") []], []).
Proof. reflexivity. Qed.
